(** * The custom-element component framework of [src/all.js]

    A shallow embedding of the ref tracker ([Component]), the shadow
    hydrator ([DeclarativeShadowElement]), the event delegation router
    ([registerEventListeners]) and the frame [Scheduler], followed by the
    properties the specification states about them.

    Modelling conventions.
    - The DOM is a store of node records addressed by node identity; a
      JavaScript reference to a node is its identity, so two references to
      the same node alias.  [parentNode], [childNodes], [shadowRoot] and
      [host] are fields, as the DOM exposes them.
    - Strings are byte strings.  Where the platform works on code points
      (case mapping, white space, UTF-8 decoding of percent escapes) the
      model is exact on ASCII and leaves other bytes untouched; white
      space outside ASCII (NBSP, BOM and the like) is not recognised.
    - Numbers read from text are kept as the exact decimal they denote.
      That is the value the code computes whenever a double represents
      the decimal exactly, as for integers below [2 ^ 53]; beyond that
      the code rounds, and the properties that name a value say so.
    - A plain JavaScript object used as a dictionary is a [gmap] of its own
      properties; the [in] operator additionally sees the property names a
      plain object inherits from [Object.prototype].  This is what the
      code does for every property name but [__proto__]: assigning to
      that name replaces the prototype of the object instead of creating
      a property, and what the object then inherits depends on the value
      assigned.  The model does not follow the code there; every property
      that depends on the content of [refs] assumes that no marker names
      the slot [__proto__] ([plainSlots]).
    - Code that can throw lives in a state-and-exception monad [M]; a
      thrown value is a [JsError]. *)

From Stdlib Require Import ZArith Lia Ascii String List.
From stdpp Require Import base option list gmap strings.

Local Open Scope string_scope.
Local Open Scope list_scope.

(** ** Part I: the embedding *)

(** *** JavaScript strings and values *)

Module Js.

Definition dquote : string := String (ascii_of_nat 34) EmptyString.

Definition chars (s : string) : list ascii := list_ascii_of_string s.
Definition str (l : list ascii) : string := string_of_list_ascii l.

(** [s.endsWith(suffix)] *)
Definition endsWith (s suffix : string) : bool :=
  let n := String.length s in
  let m := String.length suffix in
  if (m <=? n)%nat then String.eqb (substring (n - m) m s) suffix else false.

(** [s.startsWith(prefix)] *)
Definition startsWith (s pre : string) : bool :=
  String.eqb (substring 0 (String.length pre) s) pre.

(** [s.slice(0, -2)]: everything but the last two characters. *)
Definition slice_0_m2 (s : string) : string :=
  substring 0 (String.length s - 2) s.

(** [s.slice(1)] *)
Definition slice_1 (s : string) : string :=
  match s with
  | EmptyString => EmptyString
  | String _ rest => rest
  end.

Definition lower_ascii (c : ascii) : ascii :=
  let n := nat_of_ascii c in
  if ((65 <=? n) && (n <=? 90))%nat then ascii_of_nat (n + 32) else c.

(** [s.toLowerCase()] *)
Fixpoint toLowerCase (s : string) : string :=
  match s with
  | EmptyString => EmptyString
  | String c rest => String (lower_ascii c) (toLowerCase rest)
  end.

(** [s.split(sep)] for a one-character separator; never empty. *)
Fixpoint split (sep : ascii) (s : string) : list string :=
  match s with
  | EmptyString => [EmptyString]
  | String c rest =>
      if Ascii.eqb c sep then EmptyString :: split sep rest
      else match split sep rest with
           | h :: t => String c h :: t
           | [] => [String c EmptyString]
           end
  end.

(** White space and line terminators removed by [trim] and skipped by
    [Number], as far as ASCII goes: TAB, LF, VT, FF, CR and SPACE.  The
    platform also skips NBSP, BOM and the other Unicode space characters,
    none of which starts with an ASCII byte. *)
Definition isSpace (c : ascii) : bool :=
  let n := nat_of_ascii c in
  ((9 <=? n) && (n <=? 13) || (n =? 32))%nat.

Fixpoint dropSpaces (l : list ascii) : list ascii :=
  match l with
  | c :: rest => if isSpace c then dropSpaces rest else l
  | [] => []
  end.

(** [s.trim()] *)
Definition trim (s : string) : string :=
  str (rev (dropSpaces (rev (dropSpaces (chars s))))).

(** Splits a list at the first element that fails [p]. *)
Fixpoint span {A} (p : A -> bool) (l : list A) : list A * list A :=
  match l with
  | x :: rest =>
      if p x then let '(a, b) := span p rest in (x :: a, b) else ([], l)
  | [] => ([], [])
  end.

(** *** Numbers

    [Number(str)] follows the StringNumericLiteral grammar.  A finite
    result is kept as the decimal it denotes, [mantissa * 10 ^ exponent]
    with a sign; the platform then rounds that to a double. *)

Inductive JsNumber :=
| NaN
| Infinity (negative : bool)
| Finite (negative : bool) (mantissa : N) (exponent : Z).

Definition digitVal (base : N) (c : ascii) : option N :=
  let n := N_of_ascii c in
  let v :=
    if ((48 <=? n) && (n <=? 57))%N then Some (n - 48)%N
    else if ((97 <=? n) && (n <=? 102))%N then Some (n - 87)%N
    else if ((65 <=? n) && (n <=? 70))%N then Some (n - 55)%N
    else None in
  match v with
  | Some d => if (d <? base)%N then Some d else None
  | None => None
  end.

Definition isDigit (c : ascii) : bool :=
  match digitVal 10 c with Some _ => true | None => false end.

(** Reads a non-empty run of digits in [base]; fails on anything else. *)
Fixpoint digitsVal (base : N) (acc : N) (l : list ascii) : option N :=
  match l with
  | [] => Some acc
  | c :: rest =>
      match digitVal base c with
      | Some d => digitsVal base (acc * base + d)%N rest
      | None => None
      end
  end.

Definition natural (base : N) (l : list ascii) : option N :=
  match l with
  | [] => None
  | _ => digitsVal base 0%N l
  end.

Definition signOf (l : list ascii) : bool * list ascii :=
  match l with
  | "-"%char :: rest => (true, rest)
  | "+"%char :: rest => (false, rest)
  | _ => (false, l)
  end.

(** The exponent part: empty, or [e]/[E], an optional sign and digits. *)
Definition exponentPart (l : list ascii) : option Z :=
  match l with
  | [] => Some 0%Z
  | c :: rest =>
      if Ascii.eqb c "e" || Ascii.eqb c "E" then
        let '(neg, ds) := signOf rest in
        match natural 10 ds with
        | Some n => Some (if neg then (- Z.of_N n)%Z else Z.of_N n)
        | None => None
        end
      else None
  end.

(** StrUnsignedDecimalLiteral without [Infinity]. *)
Definition unsignedDecimal (l : list ascii) : option (N * Z) :=
  let '(ip, r1) := span isDigit l in
  let '(fp, r2) :=
    match r1 with
    | "."%char :: r => span isDigit r
    | _ => ([], r1)
    end in
  let hasDot := match r1 with "."%char :: _ => true | _ => false end in
  match ip, fp with
  | [], [] => None
  | _, _ =>
      if negb hasDot && match ip with [] => true | _ => false end then None
      else
        match digitsVal 10 0%N (ip ++ fp), exponentPart r2 with
        | Some m, Some e => Some (m, (e - Z.of_nat (length fp))%Z)
        | _, _ => None
        end
  end.

Definition nonDecimal (l : list ascii) : option N :=
  match l with
  | "0"%char :: p :: ds =>
      if Ascii.eqb p "x" || Ascii.eqb p "X" then natural 16 ds
      else if Ascii.eqb p "o" || Ascii.eqb p "O" then natural 8 ds
      else if Ascii.eqb p "b" || Ascii.eqb p "B" then natural 2 ds
      else None
  | _ => None
  end.

(** [Number(s)], before rounding: the exact decimal the text denotes.  The
    code returns the double nearest to it, which is the same number when
    that is representable (an integer below [2 ^ 53], say) and differs
    otherwise, up to [Infinity] on overflow. *)
Definition Number (s : string) : JsNumber :=
  let body := chars (trim s) in
  match body with
  | [] => Finite false 0 0
  | _ =>
      match nonDecimal body with
      | Some n => Finite false n 0
      | None =>
          let '(neg, u) := signOf body in
          if String.eqb (str u) "Infinity" then Infinity neg
          else match unsignedDecimal u with
               | Some (m, e) => Finite neg m e
               | None => NaN
               end
      end
  end.

Definition isNaN (n : JsNumber) : bool :=
  match n with NaN => true | _ => false end.

Inductive Value :=
| VBool (b : bool)
| VNum (n : JsNumber)
| VStr (s : string).

(** The property names every plain object inherits from
    [Object.prototype]; [name in {}] is true for each of them. *)
Definition objectPrototypeNames : list string :=
  [ "constructor"; "__defineGetter__"; "__defineSetter__"; "hasOwnProperty";
    "__lookupGetter__"; "__lookupSetter__"; "isPrototypeOf";
    "propertyIsEnumerable"; "toString"; "valueOf"; "__proto__";
    "toLocaleString" ].

Definition inherited (name : string) : bool :=
  existsb (String.eqb name) objectPrototypeNames.

End Js.

(** *** The DOM store *)

Definition NodeId := nat.

Inductive NodeType :=
| ElementNode
| TextNode
| DocumentNode
| ShadowRootNode
| FragmentNode.

#[global] Instance NodeType_eq_dec : EqDecision NodeType.
Proof. solve_decision. Defined.

(** One DOM node.  [tagName] is what the DOM reports (upper case for an HTML
    element); [isHTMLElement] is [instanceof HTMLElement]; [content] is the
    fragment of an [HTMLTemplateElement] and is present exactly for those;
    [shadowRoot] is the open shadow root, [host] the host of a shadow
    root. *)
Record Node := mkNode {
  nodeType : NodeType;
  parentNode : option NodeId;
  childNodes : list NodeId;
  tagName : string;
  attributes : gmap string string;
  shadowRoot : option NodeId;
  host : option NodeId;
  isHTMLElement : bool;
  content : option NodeId
}.

Module Dom.

Abbreviation Store := (gmap NodeId Node).

(** Parent walks recurse on a counter that exceeds the number of nodes, the
    longest chain a store without cycles can have. *)
Definition depthBound (d : Store) : nat := S (size d).

Definition isElement (d : Store) (n : NodeId) : bool :=
  match d !! n with
  | Some r => bool_decide (nodeType r = ElementNode)
  | None => false
  end.

Definition isShadowRoot (d : Store) (n : NodeId) : bool :=
  match d !! n with
  | Some r => bool_decide (nodeType r = ShadowRootNode)
  | None => false
  end.

Definition parentOf (d : Store) (n : NodeId) : option NodeId :=
  r ← d !! n; parentNode r.

Definition childrenOf (d : Store) (n : NodeId) : list NodeId :=
  match d !! n with
  | Some r => childNodes r
  | None => []
  end.

(** [node.getAttribute(name)] *)
Definition getAttribute (d : Store) (n : NodeId) (name : string) : option string :=
  r ← d !! n; attributes r !! name.

(** [node.hasAttribute(name)] *)
Definition hasAttribute (d : Store) (n : NodeId) (name : string) : bool :=
  bool_decide (is_Some (getAttribute d n name)).

(** [node.getRootNode()] *)
Fixpoint getRootNodeFrom (fuel : nat) (d : Store) (n : NodeId) : NodeId :=
  match fuel with
  | O => n
  | S fuel' =>
      match parentOf d n with
      | Some p => getRootNodeFrom fuel' d p
      | None => n
      end
  end.

Definition getRootNode (d : Store) (n : NodeId) : NodeId :=
  getRootNodeFrom (depthBound d) d n.

(** [root.querySelectorAll('[' + attr + ']')]: the element descendants of
    [root] that carry [attr], in document order.  Shadow trees and
    template contents are not descendants. *)
Fixpoint descendantsFrom (fuel : nat) (d : Store) (n : NodeId) : list NodeId :=
  match fuel with
  | O => []
  | S fuel' =>
      flat_map (fun c => c :: descendantsFrom fuel' d c) (childrenOf d n)
  end.

Definition descendants (d : Store) (n : NodeId) : list NodeId :=
  descendantsFrom (depthBound d) d n.

Definition querySelectorAllAttr (d : Store) (root : NodeId) (attr : string)
  : list NodeId :=
  List.filter (fun e => isElement d e && hasAttribute d e attr)
              (descendants d root).

(** [el.closest('[' + attr + ']')]: the nearest inclusive ancestor element
    carrying [attr]; the walk follows parent elements and so stops at a
    shadow root or at the document. *)
Fixpoint closestAttrFrom (fuel : nat) (d : Store) (n : NodeId) (attr : string)
  : option NodeId :=
  match fuel with
  | O => None
  | S fuel' =>
      if isElement d n then
        if hasAttribute d n attr then Some n
        else match parentOf d n with
             | Some p => closestAttrFrom fuel' d p attr
             | None => None
             end
      else None
  end.

Definition closestAttr (d : Store) (n : NodeId) (attr : string) : option NodeId :=
  closestAttrFrom (depthBound d) d n attr.

End Dom.

(** *** Errors, completions and the state-and-exception monad *)

Inductive JsError :=
| MissingRefError (message : string)
| DOMException (name : string)
| UserError (tag : string).

Inductive Completion (A : Type) :=
| Normal (a : A)
| Throw (e : JsError).
Arguments Normal {A} a.
Arguments Throw {A} e.

Definition M (S A : Type) : Type := S -> S * Completion A.

Definition ret {S A} (a : A) : M S A := fun s => (s, Normal a).

Definition bind {S A B} (m : M S A) (k : A -> M S B) : M S B :=
  fun s =>
    match m s with
    | (s', Normal a) => k a s'
    | (s', Throw e) => (s', Throw e)
    end.

Definition get {S} : M S S := fun s => (s, Normal s).
Definition modify {S} (f : S -> S) : M S unit := fun s => (f s, Normal tt).
Definition throw {S A} (e : JsError) : M S A := fun s => (s, Throw e).

(** [try { body } catch (error) { handler(error) }] *)
Definition tryCatch {S A} (body : M S A) (handler : JsError -> M S A) : M S A :=
  fun s =>
    match body s with
    | (s', Normal a) => (s', Normal a)
    | (s', Throw e) => handler e s'
    end.

Notation "x <- m ;; k" := (bind m (fun x => k))
  (at level 100, m at next level, right associativity).
Notation "m ;;; k" := (bind m (fun _ => k))
  (at level 100, right associativity).

(** A [for (const x of l)] loop whose body may throw. *)
Fixpoint forEach {S A} (l : list A) (body : A -> M S unit) : M S unit :=
  match l with
  | [] => ret tt
  | x :: rest => body x ;;; forEach rest body
  end.

(** *** Component instances and the page *)

Inductive RefValue :=
| RefElement (e : NodeId)
| RefArray (es : list NodeId).

#[global] Instance RefValue_eq_dec : EqDecision RefValue.
Proof. solve_decision. Defined.

Inductive MutationType := AttributesMutation | ChildListMutation.

Record MutationRecord := mkRecord {
  mType : MutationType;
  mTarget : NodeId;
  addedNodes : list NodeId;
  removedNodes : list NodeId
}.

(** The fields of one [Component] instance: [refs], [requiredRefs], and its
    private mutation observer (the roots it observes and its record
    queue). *)
Record Instance := mkInstance {
  refs : gmap string RefValue;
  requiredRefs : option (list string);
  observed : list NodeId;
  records : list MutationRecord
}.

Inductive IdleTask := ObserveRoots (c : NodeId).

(** Everything the framework reads and writes: the DOM, the component
    instances (a node is [instanceof Component] exactly when it has an
    entry), the module-level [initialized] flag, the capturing listeners on
    the document, and the pending idle callbacks. *)
Record Page := mkPage {
  nodes : gmap NodeId Node;
  components : gmap NodeId Instance;
  initialized : bool;
  documentListeners : list string;
  idleQueue : list IdleTask
}.

Definition withNodes (f : gmap NodeId Node -> gmap NodeId Node) (p : Page) : Page :=
  mkPage (f (nodes p)) (components p) (initialized p) (documentListeners p)
         (idleQueue p).

Definition withComponents
  (f : gmap NodeId Instance -> gmap NodeId Instance) (p : Page) : Page :=
  mkPage (nodes p) (f (components p)) (initialized p) (documentListeners p)
         (idleQueue p).

Definition refsOf (p : Page) (c : NodeId) : gmap string RefValue :=
  match components p !! c with
  | Some i => refs i
  | None => ∅
  end.

Definition isComponent (p : Page) (n : NodeId) : bool :=
  bool_decide (is_Some (components p !! n)).

Definition tagOf (p : Page) (n : NodeId) : string :=
  match nodes p !! n with
  | Some r => tagName r
  | None => EmptyString
  end.

Definition isHTML (p : Page) (n : NodeId) : bool :=
  match nodes p !! n with
  | Some r => isHTMLElement r
  | None => false
  end.

(** [getAncestor(node)]: the parent, or across a shadow boundary the host. *)
Definition getAncestor (p : Page) (node : NodeId) : option NodeId :=
  match Dom.parentOf (nodes p) node with
  | Some parent => Some parent
  | None =>
      let root := Dom.getRootNode (nodes p) node in
      if Dom.isShadowRoot (nodes p) root then r ← nodes p !! root; host r
      else None
  end.

(** [getClosestComponent(node)] *)
Fixpoint getClosestComponentFrom (fuel : nat) (p : Page) (node : option NodeId)
  : option NodeId :=
  match fuel with
  | O => None
  | S fuel' =>
      match node with
      | None => None
      | Some n =>
          if isComponent p n then Some n
          else if isHTML p n
                  && Js.endsWith (Js.toLowerCase (tagOf p n)) "-component"
          then Some n
          else match getAncestor p n with
               | Some ancestor => getClosestComponentFrom fuel' p (Some ancestor)
               | None => None
               end
      end
  end.

Definition getClosestComponent (p : Page) (node : option NodeId) : option NodeId :=
  getClosestComponentFrom (Dom.depthBound (nodes p)) p node.

(** [#isDescendant(node)]: [getClosestComponent(getAncestor(node)) === this] *)
Definition isDescendant (p : Page) (this node : NodeId) : bool :=
  bool_decide (getClosestComponent p (getAncestor p node) = Some this).

(** *** DOM operations the framework calls *)

Module DomOps.

Definition freshId (d : gmap NodeId Node) : NodeId := fresh (dom d).

Definition setChildren (kids : list NodeId) (r : Node) : Node :=
  mkNode (nodeType r) (parentNode r) kids (tagName r) (attributes r)
         (shadowRoot r) (host r) (isHTMLElement r) (content r).

Definition setParent (parent : option NodeId) (r : Node) : Node :=
  mkNode (nodeType r) parent (childNodes r) (tagName r) (attributes r)
         (shadowRoot r) (host r) (isHTMLElement r) (content r).

Definition setShadowRoot (sr : option NodeId) (r : Node) : Node :=
  mkNode (nodeType r) (parentNode r) (childNodes r) (tagName r) (attributes r)
         sr (host r) (isHTMLElement r) (content r).

Definition setContent (c : option NodeId) (r : Node) : Node :=
  mkNode (nodeType r) (parentNode r) (childNodes r) (tagName r) (attributes r)
         (shadowRoot r) (host r) (isHTMLElement r) c.

(** The copy [cloneNode] makes of one node: same type, tag, attributes and
    class; no parent, no children yet, no shadow root. *)
Definition blankCopy (parent : option NodeId) (r : Node) : Node :=
  mkNode (nodeType r) parent [] (tagName r) (attributes r) None None
         (isHTMLElement r) None.

(** [src.cloneNode(true)], the copy being born under [parent]: the node,
    its children in order, and for a template its content fragment. *)
Fixpoint cloneNodeFrom (fuel : nat) (d : gmap NodeId Node) (src : NodeId)
  (parent : option NodeId) : gmap NodeId Node * option NodeId :=
  match fuel with
  | O => (d, None)
  | S fuel' =>
      match d !! src with
      | None => (d, None)
      | Some r =>
          let id := freshId d in
          let d0 := <[id := blankCopy parent r]> d in
          let '(d1, kids) :=
            fold_left
              (fun acc k =>
                 let '(dk, o) := cloneNodeFrom fuel' (fst acc) k (Some id) in
                 (dk, snd acc ++ option_list o))
              (childNodes r) (d0, []) in
          let '(d2, c) :=
            match content r with
            | Some f => cloneNodeFrom fuel' d1 f None
            | None => (d1, None)
            end in
          (alter (fun n => setContent c (setChildren kids n)) id d2, Some id)
      end
  end.

(** [target.append(fragment.cloneNode(true))]: the children of [fragment]
    are copied in order and the copies become the children of [target]. *)
Definition appendClonedChildren (fuel : nat) (d : gmap NodeId Node)
  (fragment target : NodeId) : gmap NodeId Node :=
  let '(d1, kids) :=
    fold_left
      (fun acc k =>
         let '(dk, o) := cloneNodeFrom fuel (fst acc) k (Some target) in
         (dk, snd acc ++ option_list o))
      (Dom.childrenOf d fragment) (d, []) in
  alter (fun n => setChildren (childNodes n ++ kids) n) target d1.

(** The shadow root [attachShadow] creates for [hostId]. *)
Definition newShadowRoot (hostId : NodeId) : Node :=
  mkNode ShadowRootNode None [] EmptyString ∅ None (Some hostId) false None.

(** [this.querySelector(':scope > template[shadowrootmode="open"]')]: the
    first child element whose type is [template] (compared in lower case
    for an HTML element) and whose [shadowrootmode] is [open]. *)
Definition isOpenTemplate (d : gmap NodeId Node) (n : NodeId) : bool :=
  match d !! n with
  | Some r =>
      bool_decide (nodeType r = ElementNode)
      && String.eqb (if isHTMLElement r then Js.toLowerCase (tagName r)
                     else tagName r) "template"
      && bool_decide (attributes r !! "shadowrootmode" = Some "open")
  | None => false
  end.

Definition queryOpenTemplate (d : gmap NodeId Node) (this : NodeId)
  : option NodeId :=
  List.find (isOpenTemplate d) (Dom.childrenOf d this).

(** [parent.removeChild(child)] on the store. *)
Definition removeChild (d : gmap NodeId Node) (parent child : NodeId)
  : gmap NodeId Node :=
  alter (setParent None) child
    (alter (fun r => setChildren
                       (List.filter (fun k => negb (Nat.eqb k child)) (childNodes r)) r)
           parent d).

(** [parent.appendChild(child)] for a detached [child]. *)
Definition appendChild (d : gmap NodeId Node) (parent child : NodeId)
  : gmap NodeId Node :=
  alter (setParent (Some parent)) child
    (alter (fun r => setChildren (childNodes r ++ [child]) r) parent d).

(** The inclusive ancestors of a node along [parentNode]. *)
Fixpoint inclusiveAncestorsFrom (fuel : nat) (d : gmap NodeId Node) (n : NodeId)
  : list NodeId :=
  match fuel with
  | O => []
  | S fuel' =>
      n :: match Dom.parentOf d n with
           | Some p => inclusiveAncestorsFrom fuel' d p
           | None => []
           end
  end.

Definition inclusiveAncestors (d : gmap NodeId Node) (n : NodeId) : list NodeId :=
  inclusiveAncestorsFrom (Dom.depthBound d) d n.

End DomOps.

(** *** DeclarativeShadowElement *)

Module DeclarativeShadowElement.

(** [this.attachShadow({ mode: 'open' })] *)
Definition attachShadow (this : NodeId) : M Page NodeId :=
  p <- get ;;
  match nodes p !! this with
  | Some r =>
      match shadowRoot r with
      | Some _ => throw (DOMException "NotSupportedError")
      | None =>
          let sr := DomOps.freshId (nodes p) in
          modify (withNodes (fun d =>
            <[this := DomOps.setShadowRoot (Some sr) r]>
              (<[sr := DomOps.newShadowRoot this]> d))) ;;;
          ret sr
      end
  | None => throw (DOMException "NotSupportedError")
  end.

(** [connectedCallback()]: nothing when [this.shadowRoot] is set; nothing
    when the query finds no child or the child found is not an
    [HTMLTemplateElement]; otherwise [attachShadow] and
    [shadow.append(template.content.cloneNode(true))]. *)
Definition connectedCallback (this : NodeId) : M Page unit :=
  p <- get ;;
  match nodes p !! this ≫= shadowRoot with
  | Some _ => ret tt
  | None =>
      match DomOps.queryOpenTemplate (nodes p) this with
      | None => ret tt
      | Some template =>
          match nodes p !! template ≫= content with
          | None => ret tt
          | Some fragment =>
              shadow <- attachShadow this ;;
              modify (withNodes (fun d =>
                DomOps.appendClonedChildren (Dom.depthBound d) d fragment shadow))
          end
      end
  end.

End DeclarativeShadowElement.

(** *** Component: the ref tracker *)

(** The event names [registerEventListeners] installs, in order. *)
Definition events : list string :=
  ["click"; "change"; "select"; "focus"; "blur"; "submit"; "input"; "keydown";
   "keyup"; "toggle"].
Definition shouldBubble : list string := ["focus"; "blur"].
Definition expensiveEvents : list string := ["pointerenter"; "pointerleave"].

(** [registerEventListeners()]: guarded by [initialized]; one capturing
    listener on the document per event name.  The listener body is
    [Router.listener] below. *)
Definition registerEventListeners : M Page unit :=
  p <- get ;;
  if initialized p then ret tt
  else
    modify (fun p =>
      mkPage (nodes p) (components p) true
             (documentListeners p ++ events ++ expensiveEvents) (idleQueue p)).

Module Component.

(** [get roots()] *)
Definition roots (p : Page) (this : NodeId) : list NodeId :=
  match nodes p !! this ≫= shadowRoot with
  | Some sr => [this; sr]
  | None => [this]
  end.

(** [Set.prototype.add] on an insertion-ordered set. *)
Definition setAdd (e : NodeId) (acc : list NodeId) : list NodeId :=
  if bool_decide (e ∈ acc) then acc else acc ++ [e].

(** The [reduce] of [#updateRefs]: the marked descendants owned by
    [this], in order of discovery. *)
Definition ownedRefElements (p : Page) (this : NodeId) : list NodeId :=
  fold_left
    (fun acc root =>
       fold_left
         (fun acc element =>
            if negb (isDescendant p this element) then acc
            else setAdd element acc)
         (Dom.querySelectorAllAttr (nodes p) root "ref") acc)
    (roots p this) [].

(** One turn of the [for (const ref of elements)] loop, for a [path] other
    than [__proto__]: the assignment creates or replaces a property of the
    local object.  (For [__proto__] the code replaces the prototype of the
    object instead, see [plainSlots].) *)
Definition assignRef (p : Page) (refs : gmap string RefValue) (ref : NodeId)
  : gmap string RefValue :=
  let refName := default EmptyString (Dom.getAttribute (nodes p) ref "ref") in
  let isArray := Js.endsWith refName "[]" in
  let path := if isArray then Js.slice_0_m2 refName else refName in
  if isArray then
    let array := match refs !! path with
                 | Some (RefArray l) => l
                 | _ => []
                 end in
    <[path := RefArray (array ++ [ref])]> refs
  else <[path := RefElement ref]> refs.

(** The local [refs] object once the loop is over. *)
Definition buildRefs (p : Page) (this : NodeId) : gmap string RefValue :=
  fold_left (assignRef p) (ownedRefElements p this) ∅.

(** [ref in refs] on an object whose prototype is [Object.prototype], as
    the local object of [#updateRefs] is under [plainSlots]: its own
    properties and the names it inherits. *)
Definition jsIn (name : string) (refs : gmap string RefValue) : bool :=
  bool_decide (is_Some (refs !! name)) || Js.inherited name.

(** [new MissingRefError(ref, component)] *)
Definition missingRefError (p : Page) (ref : string) (component : NodeId)
  : JsError :=
  MissingRefError
    ("Required ref " +:+ Js.dquote +:+ ref +:+ Js.dquote
     +:+ " not found in component " +:+ Js.toLowerCase (tagOf p component)).

Definition setRefs (this : NodeId) (refs : gmap string RefValue) (p : Page)
  : Page :=
  withComponents
    (alter (fun i => mkInstance refs (requiredRefs i) (observed i) (records i))
           this) p.

(** [#updateRefs()] *)
Definition updateRefs (this : NodeId) : M Page unit :=
  p <- get ;;
  let refs := buildRefs p this in
  (match components p !! this ≫= requiredRefs with
   | Some (r :: rest) =>
       forEach (r :: rest) (fun ref =>
         if negb (jsIn ref refs) then throw (missingRefError p ref this)
         else ret tt)
   | _ => ret tt
   end) ;;;
  modify (setRefs this refs).

(** [this.#mutationObserver.observe(root, ...)] *)
Definition observe (this root : NodeId) (p : Page) : Page :=
  withComponents
    (alter (fun i => mkInstance (refs i) (requiredRefs i)
                       (if bool_decide (root ∈ observed i) then observed i
                        else observed i ++ [root])
                       (records i)) this) p.

(** [this.#mutationObserver.takeRecords()] *)
Definition takeRecords (this : NodeId) (p : Page) : Page :=
  withComponents
    (alter (fun i => mkInstance (refs i) (requiredRefs i) (observed i) [])
           this) p.

(** [this.#mutationObserver.disconnect()] *)
Definition disconnect (this : NodeId) (p : Page) : Page :=
  withComponents
    (alter (fun i => mkInstance (refs i) (requiredRefs i) [] []) this) p.

Definition requestIdleCallback (t : IdleTask) (p : Page) : Page :=
  mkPage (nodes p) (components p) (initialized p) (documentListeners p)
         (idleQueue p ++ [t]).

(** [connectedCallback()] *)
Definition connectedCallback (this : NodeId) : M Page unit :=
  DeclarativeShadowElement.connectedCallback this ;;;
  registerEventListeners ;;;
  updateRefs this ;;;
  modify (requestIdleCallback (ObserveRoots this)).

(** The idle callback registered by [connectedCallback]. *)
Definition runIdleTask (t : IdleTask) (p : Page) : Page :=
  match t with
  | ObserveRoots this =>
      fold_left (fun p root => observe this root p) (roots p this) p
  end.

(** The platform runs the oldest pending idle callback. *)
Definition idle (p : Page) : Page :=
  match idleQueue p with
  | [] => p
  | t :: rest =>
      runIdleTask t
        (mkPage (nodes p) (components p) (initialized p)
                (documentListeners p) rest)
  end.

(** [updatedCallback()] *)
Definition updatedCallback (this : NodeId) : M Page unit :=
  modify (takeRecords this) ;;;
  updateRefs this.

(** [disconnectedCallback()] *)
Definition disconnectedCallback (this : NodeId) : M Page unit :=
  modify (disconnect this).

(** The predicate of [mutations.some(...)] in the observer callback. *)
Definition relevantMutation (p : Page) (this : NodeId) (m : MutationRecord)
  : bool :=
  match mType m with
  | AttributesMutation => isDescendant p this (mTarget m)
  | ChildListMutation =>
      existsb (isDescendant p this) (addedNodes m ++ removedNodes m)
  end.

(** The callback given to [new MutationObserver(...)]. *)
Definition mutationCallback (this : NodeId) (mutations : list MutationRecord)
  : M Page unit :=
  p <- get ;;
  if existsb (relevantMutation p this) mutations then updateRefs this
  else ret tt.

(** Mutation-observer delivery for one component: its queued records, if
    any, are handed to the callback in one batch. *)
Definition deliver (this : NodeId) : M Page unit :=
  p <- get ;;
  match records <$> components p !! this with
  | Some (m :: ms) =>
      modify (takeRecords this) ;;;
      mutationCallback this (m :: ms)
  | _ => ret tt
  end.

End Component.

(** *** Mutations made by the embedding page *)

Module Environment.

(** An observer watching [root] with [subtree: true] is interested in a
    mutation whose target has [root] among its inclusive ancestors. *)
Definition interested (p : Page) (target : NodeId) (i : Instance) : bool :=
  existsb (fun a => bool_decide (a ∈ observed i))
          (DomOps.inclusiveAncestors (nodes p) target).

Definition queueRecord (m : MutationRecord) (p : Page) : Page :=
  withComponents
    (fmap (fun i =>
       if interested p (mTarget m) i
       then mkInstance (refs i) (requiredRefs i) (observed i) (records i ++ [m])
       else i)) p.

(** [parent.removeChild(child)], with the records it queues. *)
Definition removeChild (parent child : NodeId) (p : Page) : Page :=
  withNodes (fun d => DomOps.removeChild d parent child)
    (queueRecord (mkRecord ChildListMutation parent [] [child]) p).

(** [parent.appendChild(child)] for a detached child. *)
Definition appendChild (parent child : NodeId) (p : Page) : Page :=
  withNodes (fun d => DomOps.appendChild d parent child)
    (queueRecord (mkRecord ChildListMutation parent [child] []) p).

End Environment.

(** *** The event delegation router *)

Record Event := mkEvent {
  eType : string;
  eTarget : NodeId;
  composedPath : option (list NodeId);
  bubbles : bool
}.

(** What a handler receives as its event: the event itself, or the [Proxy]
    that answers [target] with the element that declared the binding. *)
Inductive EventArg :=
| PlainEvent (e : Event)
| ProxiedEvent (e : Event) (target : NodeId).

Definition targetOf (a : EventArg) : NodeId :=
  match a with
  | PlainEvent e => eTarget e
  | ProxiedEvent _ target => target
  end.

Inductive Data :=
| DataObject (o : gmap string Js.Value)
| DataValue (v : Js.Value).

Inductive Arg :=
| ArgData (d : Data)
| ArgEvent (e : EventArg).

(** A method of a component class: it runs on the page and may throw. *)
Definition Handler : Type := list Arg -> M Page unit.

Record Call := mkCall {
  callee : NodeId;
  methodName : string;
  arguments : list Arg
}.

(** The page together with what an observer of the router sees: the method
    calls it made, what it sent to [console.error], and the exceptions that
    left a listener and were reported by the platform. *)
Record World := mkWorld {
  page : Page;
  calls : list Call;
  console : list JsError;
  uncaught : list JsError
}.

Inductive SelectorResult :=
| Matched (n : NodeId)
| NoMatch
| InvalidSelector.

(** The platform's selector engine, for selectors written in markup:
    [document.querySelector(s)] and [el.closest(s)].  Both raise a
    [SyntaxError] on a string that is not a selector. *)
Record SelectorEngine := mkEngine {
  querySelector : Page -> string -> SelectorResult;
  closest : Page -> NodeId -> string -> SelectorResult
}.

Module Router.

Definition isDelimiter (c : ascii) : bool :=
  Ascii.eqb c "/" || Ascii.eqb c "?".

Definition notDelimiter (c : ascii) : bool := negb (isDelimiter c).

(** [value.match(/([\/\?][^\/\?]+)([\/\?][^\/\?]+)$/)], second group:
    the value must end with a delimiter, a non-empty run without
    delimiters, a delimiter, and another such run; the group is the last
    delimiter with the last run. *)
Definition trailingData (value : string) : option string :=
  let '(run2, before2) := Js.span notDelimiter (rev (Js.chars value)) in
  match run2, before2 with
  | _ :: _, d2 :: before1 =>
      let '(run1, before0) := Js.span notDelimiter before1 in
      match run1, before0 with
      | _ :: _, _ :: _ => Some (Js.str (d2 :: rev run2))
      | _, _ => None
      end
  | _, _ => None
  end.

(** Line terminators, which [.] does not match: LF, CR, and the UTF-8
    encodings of U+2028 and U+2029. *)
Definition startsWithLineTerminator (s : string) : bool :=
  match s with
  | String c rest =>
      Ascii.eqb c (ascii_of_nat 10) || Ascii.eqb c (ascii_of_nat 13)
      || match rest with
         | String c2 (String c3 _) =>
             Ascii.eqb c (ascii_of_nat 226) && Ascii.eqb c2 (ascii_of_nat 128)
             && (Ascii.eqb c3 (ascii_of_nat 168) || Ascii.eqb c3 (ascii_of_nat 169))
         | _ => false
         end
  | EmptyString => false
  end.

(** What is left of [s] after the longest match of [.*] at its start. *)
Fixpoint afterDotStar (s : string) : string :=
  match s with
  | EmptyString => EmptyString
  | String _ rest => if startsWithLineTerminator s then s else afterDotStar rest
  end.

(** [method.replace(/\?.*/, '')] *)
Fixpoint stripQuery (method : string) : string :=
  match method with
  | EmptyString => EmptyString
  | String c rest =>
      if Ascii.eqb c "?" then afterDotStar rest
      else String c (stripQuery rest)
  end.

Definition hexVal (c : ascii) : option N := Js.digitVal 16 c.

(** Percent-decoding of a form-urlencoded byte sequence.  The escaped
    bytes are kept as they are; the platform goes on to decode them as
    UTF-8 and replaces a malformed sequence by U+FFFD, so the two agree
    when the escapes spell well-formed UTF-8, ASCII in particular. *)
Fixpoint percentDecode (s : string) : string :=
  match s with
  | EmptyString => EmptyString
  | String c rest =>
      match rest with
      | String h (String l rest') =>
          match Ascii.eqb c "%", hexVal h, hexVal l with
          | true, Some a, Some b =>
              String (ascii_of_N (16 * a + b)) (percentDecode rest')
          | _, _, _ => String c (percentDecode rest)
          end
      | _ => String c (percentDecode rest)
      end
  end.

Fixpoint plusToSpace (s : string) : string :=
  match s with
  | EmptyString => EmptyString
  | String c rest =>
      String (if Ascii.eqb c "+" then " "%char else c) (plusToSpace rest)
  end.

(** The name and value of one [name=value] sequence: split at the first
    [=]. *)
Fixpoint splitFirstEq (s : string) : string * string :=
  match s with
  | EmptyString => (EmptyString, EmptyString)
  | String c rest =>
      if Ascii.eqb c "=" then (EmptyString, rest)
      else let '(n, v) := splitFirstEq rest in (String c n, v)
  end.

(** [Array.from(new URLSearchParams(data).entries())] *)
Definition urlSearchParams (data : string) : list (string * string) :=
  let body := if Js.startsWith data "?" then Js.slice_1 data else data in
  List.map
    (fun seq =>
       let '(n, v) := splitFirstEq seq in
       (percentDecode (plusToSpace n), percentDecode (plusToSpace v)))
    (List.filter (fun seq => negb (String.eqb seq EmptyString))
                 (Js.split "&" body)).

(** [parseValue(str)] *)
Definition parseValue (str : string) : Js.Value :=
  if String.eqb str "true" then Js.VBool true
  else if String.eqb str "false" then Js.VBool false
  else
    let maybeNumber := Js.Number str in
    if negb (Js.isNaN maybeNumber) && negb (String.eqb (Js.trim str) EmptyString)
    then Js.VNum maybeNumber
    else Js.VStr str.

(** [Object.fromEntries(entries)]: a later entry replaces an earlier one
    of the same key. *)
Definition fromEntries (entries : list (string * Js.Value))
  : gmap string Js.Value :=
  fold_left (fun o kv => <[fst kv := snd kv]> o) entries ∅.

(** [parseData(str)] *)
Definition parseData (str : string) : Data :=
  let delimiter := match str with String c _ => Some c | EmptyString => None end in
  let data := Js.slice_1 str in
  if bool_decide (delimiter = Some "?"%char) then
    DataObject
      (fromEntries
         (List.map (fun kv => (fst kv, parseValue (snd kv))) (urlSearchParams data)))
  else DataValue (parseValue data).

(** [getElement(event)] *)
Definition getElement (p : Page) (event : Event) : option NodeId :=
  let target :=
    match composedPath event with
    | Some (t :: _) => t
    | _ => eTarget event
    end in
  let attribute := "on:" +:+ eType event in
  if negb (Dom.isElement (nodes p) target) then None
  else if Dom.hasAttribute (nodes p) target attribute then Some target
  else if existsb (String.eqb (eType event)) expensiveEvents then None
  else if bubbles event || existsb (String.eqb (eType event)) shouldBubble
       then Dom.closestAttr (nodes p) target attribute
       else None.

Section Listener.

(** [instance[method]] when it is a function: the methods the classes of
    the page define. *)
Variable methods : NodeId -> string -> option Handler.
Variable engine : SelectorEngine.

Definition liftPage {A} (m : M Page A) : M World A :=
  fun w =>
    let '(p', r) := m (page w) in
    (mkWorld p' (calls w) (console w) (uncaught w), r).

Definition recordCall (c : Call) : M World unit :=
  modify (fun w => mkWorld (page w) (calls w ++ [c]) (console w) (uncaught w)).

(** [console.error(error)] *)
Definition consoleError (error : JsError) : M World unit :=
  modify (fun w => mkWorld (page w) (calls w) (console w ++ [error]) (uncaught w)).

Definition ofSelector (r : SelectorResult) : M World (option NodeId) :=
  match r with
  | Matched n => ret (Some n)
  | NoMatch => ret None
  | InvalidSelector => throw (DOMException "SyntaxError")
  end.

(** The resolution of [instance] from the selector segment. *)
Definition resolveInstance (p : Page) (selector : string) (element : NodeId)
  : M World (option NodeId) :=
  if negb (String.eqb selector EmptyString) then
    if Js.startsWith selector "#" then ofSelector (querySelector engine p selector)
    else ofSelector (closest engine p element selector)
  else ret (getClosestComponent p (Some element)).

(** The listener installed for [eventName]. *)
Definition listener (eventName : string) (event : Event) : M World unit :=
  w <- get ;;
  let p := page w in
  match getElement p event with
  | None => ret tt
  | Some element =>
      let attribute := "on:" +:+ eventName in
      let proxiedEvent :=
        if negb (Nat.eqb (eTarget event) element)
        then ProxiedEvent event element
        else PlainEvent event in
      let value := default EmptyString (Dom.getAttribute (nodes p) element attribute) in
      let parts := Js.split "/" value in
      let selector := nth 0 parts EmptyString in
      let method := nth_error parts 1 in
      let data := trailingData value in
      instance <- resolveInstance p selector element ;;
      match instance, method with
      | Some inst, Some (String c m) =>
          if negb (isComponent p inst) then ret tt
          else
            let method := stripQuery (String c m) in
            match methods inst method with
            | Some callback =>
                tryCatch
                  (let args := [ArgEvent proxiedEvent] in
                   let args :=
                     match data with
                     | Some d => ArgData (parseData d) :: args
                     | None => args
                     end in
                   recordCall (mkCall inst method args) ;;;
                   liftPage (callback args))
                  consoleError
            | None => ret tt
            end
      | _, _ => ret tt
      end
  end.

(** The platform dispatches [event] on the document: every listener
    installed for its type runs; an exception that leaves a listener is
    reported and the remaining listeners still run. *)
Definition runListener (event : Event) (w : World) (eventName : string) : World :=
  match listener eventName event w with
  | (w', Normal _) => w'
  | (w', Throw e) => mkWorld (page w') (calls w') (console w') (uncaught w' ++ [e])
  end.

Definition dispatchEvent (event : Event) (w : World) : World :=
  fold_left (runListener event)
    (List.filter (String.eqb (eType event)) (documentListeners (page w))) w.

End Listener.

End Router.

(** *** The scheduler and the part of the event loop it uses *)

Module Scheduler.

(** A task is a function object; only its identity matters here. *)
Definition Task := nat.

(** [queue] and [scheduled] are the private fields of the one [Scheduler];
    [transition] is whether [viewTransition.current] holds a pending
    promise; [awaiting] counts the [schedule] calls suspended on it;
    [frameRequests] counts the pending [requestAnimationFrame(this.flush)]
    callbacks; [timers] are the pending [setTimeout(task, 0)] callbacks,
    oldest first; [executed] lists the tasks run so far. *)
Record Loop := mkLoop {
  queue : list Task;
  scheduled : bool;
  transition : bool;
  awaiting : nat;
  frameRequests : nat;
  timers : list Task;
  executed : list Task
}.

(** [Set.prototype.add]: insertion order, no duplicates. *)
Definition setAdd (t : Task) (q : list Task) : list Task :=
  if bool_decide (t ∈ q) then q else q ++ [t].

(** [schedule(task)], up to its return or its [await]; the part after the
    [await] runs in [finishTransition]. *)
Definition schedule (task : Task) (s : Loop) : Loop :=
  let q := setAdd task (queue s) in
  if negb (scheduled s) then
    if transition s then
      mkLoop q true (transition s) (S (awaiting s)) (frameRequests s)
             (timers s) (executed s)
    else
      mkLoop q true (transition s) (awaiting s) (S (frameRequests s))
             (timers s) (executed s)
  else
    mkLoop q (scheduled s) (transition s) (awaiting s) (frameRequests s)
           (timers s) (executed s).

(** [flush()] *)
Definition flush (s : Loop) : Loop :=
  mkLoop [] false (transition s) (awaiting s) (frameRequests s)
         (timers s ++ queue s) (executed s).

(** A view transition starts: [viewTransition.current] is set. *)
Definition startTransition (s : Loop) : Loop :=
  mkLoop (queue s) (scheduled s) true (awaiting s) (frameRequests s)
         (timers s) (executed s).

(** The transition's promise resolves: [viewTransition.current] is reset
    and every suspended [schedule] resumes at
    [requestAnimationFrame(this.flush)]. *)
Definition finishTransition (s : Loop) : Loop :=
  mkLoop (queue s) (scheduled s) false 0 (frameRequests s + awaiting s)
         (timers s) (executed s).

(** The next animation frame runs the requested callbacks. *)
Definition animationFrame (s : Loop) : Loop :=
  Nat.iter (frameRequests s) flush
    (mkLoop (queue s) (scheduled s) (transition s) (awaiting s) 0
            (timers s) (executed s)).

(** The event loop runs the oldest pending timer. *)
Definition runTimer (s : Loop) : Loop :=
  match timers s with
  | [] => s
  | t :: rest =>
      mkLoop (queue s) (scheduled s) (transition s) (awaiting s)
             (frameRequests s) rest (executed s ++ [t])
  end.

(** The event loop runs every pending timer, oldest first. *)
Definition runTimers (s : Loop) : Loop :=
  Nat.iter (length (timers s)) runTimer s.

Definition scheduleAll (tasks : list Task) (s : Loop) : Loop :=
  fold_left (fun s t => schedule t s) tasks s.

(** A scheduler at rest: nothing queued, requested or pending. *)
Definition atRest (s : Loop) : Prop :=
  queue s = [] /\ scheduled s = false /\ awaiting s = 0
  /\ frameRequests s = 0 /\ timers s = [].

(** The tasks of [l] in order of first occurrence. *)
Definition firstOccurrences (l : list Task) : list Task :=
  fold_left (fun q t => setAdd t q) l [].

End Scheduler.

(** *** Vocabulary of the specification *)

(** [msg.includes(part)] *)
Fixpoint includes (msg part : string) : bool :=
  Js.startsWith msg part
  || match msg with
     | EmptyString => false
     | String _ rest => includes rest part
     end.

(** The marker an element carries, as [#updateRefs] reads it. *)
Definition markerOf (p : Page) (e : NodeId) : string :=
  default EmptyString (Dom.getAttribute (nodes p) e "ref").

(** Whether the marker ends with the repetition suffix. *)
Definition isRepeated (p : Page) (e : NodeId) : bool :=
  Js.endsWith (markerOf p e) "[]".

(** The slot a marker names: the marker without its repetition suffix. *)
Definition slotName (p : Page) (e : NodeId) : string :=
  if isRepeated p e then Js.slice_0_m2 (markerOf p e) else markerOf p e.

(** The owned marked elements whose marker names [slot]. *)
Definition namingSlot (p : Page) (this : NodeId) (slot : string) : list NodeId :=
  List.filter (fun e => String.eqb (slotName p e) slot)
              (Component.ownedRefElements p this).

(** No owned marked element names the slot [__proto__], as [__proto__] or
    as [__proto__[]].  On such a component [refs] stays a plain object
    throughout [#updateRefs], and [Component.assignRef] and
    [Component.jsIn] are what the code does. *)
Definition plainSlots (p : Page) (this : NodeId) : Prop :=
  namingSlot p this "__proto__" = [].

(** An element is held by a slot value. *)
Definition holds (v : RefValue) (e : NodeId) : Prop :=
  match v with
  | RefElement x => x = e
  | RefArray l => e ∈ l
  end.

(** An element appears in a [refs] mapping under some slot name. *)
Definition appearsIn (refs : gmap string RefValue) (e : NodeId) : Prop :=
  exists name v, refs !! name = Some v /\ holds v e.

(** The nearest owning component of a node. *)
Definition nearestOwner (p : Page) (e : NodeId) : option NodeId :=
  getClosestComponent p (getAncestor p e).

(** The names a component declares as required. *)
Definition requiredNames (p : Page) (this : NodeId) : list string :=
  default [] (components p !! this ≫= requiredRefs).

(** The router is installed: [registerEventListeners] has run. *)
Definition routerInstalled (p : Page) : Prop :=
  initialized p = true /\ documentListeners p = events ++ expensiveEvents.

(** What one more element does to the value of the slot it names. *)
Definition slotStep (p : Page) (v : option RefValue) (e : NodeId)
  : option RefValue :=
  if isRepeated p e then
    Some (RefArray (match v with Some (RefArray l) => l | _ => [] end ++ [e]))
  else Some (RefElement e).

(** The arguments the listener builds for a handler, from the marker value,
    the event and the element that declared the binding. *)
Definition handlerArgs (value : string) (event : Event) (element : NodeId)
  : list Arg :=
  let proxiedEvent :=
    if negb (Nat.eqb (eTarget event) element)
    then ProxiedEvent event element
    else PlainEvent event in
  match Router.trailingData value with
  | Some d => [ArgData (Router.parseData d); ArgEvent proxiedEvent]
  | None => [ArgEvent proxiedEvent]
  end.

(** The element an event originates from, as [getElement] computes it. *)
Definition originOf (event : Event) : NodeId :=
  match composedPath event with
  | Some (t :: _) => t
  | _ => eTarget event
  end.

(** The state of the router's observer before any event. *)
Definition worldOf (p : Page) : World := mkWorld p [] [] [].

(** What the event loop does once tasks are scheduled: the in-flight view
    transition, if any, finishes; the next animation frame runs; the timers
    it set run. *)
Definition settle (s : Scheduler.Loop) : Scheduler.Loop :=
  Scheduler.runTimers
    (Scheduler.animationFrame
       (if Scheduler.transition s then Scheduler.finishTransition s else s)).

(** The shape of a subtree: what [cloneNode(true)] copies of each node, its
    children in order, and for a template its content.  Reading a shape
    fails when the subtree is deeper than [fuel] or refers to a node that
    is not in the store. *)
#[warnings="-register-all"]
Inductive Tree :=
| TreeNode (type : NodeType) (tag : string) (attrs : gmap string string)
           (html : bool) (templateContent : option Tree) (kids : list Tree).

Fixpoint shapeFrom (fuel : nat) (d : gmap NodeId Node) (n : NodeId)
  : option Tree :=
  match fuel with
  | O => None
  | S fuel' =>
      match d !! n with
      | None => None
      | Some r =>
          match mapM (shapeFrom fuel' d) (childNodes r),
                match content r with
                | None => Some None
                | Some f =>
                    match shapeFrom fuel' d f with
                    | Some t => Some (Some t)
                    | None => None
                    end
                end
          with
          | Some kids, Some c =>
              Some (TreeNode (nodeType r) (tagName r) (attributes r)
                             (isHTMLElement r) c kids)
          | _, _ => None
          end
      end
  end.

(** The shapes of a node's children. *)
Definition childShapes (fuel : nat) (d : gmap NodeId Node) (n : NodeId)
  : option (list Tree) :=
  mapM (shapeFrom fuel d) (Dom.childrenOf d n).

(** [d''] has every node that [d'] added to [d], unchanged. *)
Definition agreesOnNew (d d' d'' : gmap NodeId Node) : Prop :=
  forall m, d !! m = None -> is_Some (d' !! m) -> d'' !! m = d' !! m.

(** Node [i] was added between [d] and [d'] under [parent] as the root of a
    copy of shape [t]; the copy is made of added nodes only, so it has that
    shape in every store that keeps them. *)
Definition clonedAs (fuel : nat) (d d' : gmap NodeId Node)
  (parent : option NodeId) (i : NodeId) (t : Tree) : Prop :=
  d !! i = None
  /\ parentNode <$> d' !! i = Some parent
  /\ forall d'', agreesOnNew d d' d'' -> shapeFrom fuel d'' i = Some t.

(** The node reached from [n] by [k] steps of [getAncestor]. *)
Fixpoint ancestorAt (k : nat) (p : Page) (n : NodeId) : option NodeId :=
  match k with
  | O => Some n
  | S k' =>
      match getAncestor p n with
      | Some a => ancestorAt k' p a
      | None => None
      end
  end.

(** The first [k] nodes of the ancestor walk from [n]. *)
Fixpoint ancestorChain (k : nat) (p : Page) (n : NodeId) : list NodeId :=
  match k with
  | O => []
  | S k' =>
      n :: match getAncestor p n with
           | Some a => ancestorChain k' p a
           | None => []
           end
  end.

(** No node is its own ancestor, as in every DOM. *)
Definition acyclic (p : Page) : Prop :=
  forall n k, ancestorAt (S k) p n <> Some n.

(** *** Concrete pages *)

Module Examples.

Definition element (tag : string) (parent : NodeId) (kids : list NodeId)
  (attrs : list (string * string)) : Node :=
  mkNode ElementNode (Some parent) kids tag (list_to_map attrs) None None
         true None.

Definition documentNode (kids : list NodeId) : Node :=
  mkNode DocumentNode None kids EmptyString ∅ None None false None.

Definition instance (required : option (list string)) : Instance :=
  mkInstance ∅ required [] [].

Definition freshPage (d : list (NodeId * Node)) (cs : list (NodeId * Instance))
  : Page :=
  mkPage (list_to_map d) (list_to_map cs) false [] [].

(** [<x-component>] with no marked descendant, requiring [bar] and [foo]. *)
Definition twoRequired : Page :=
  freshPage
    [(0, documentNode [1]); (1, element "X-COMPONENT" 0 [] [])]
    [(1, instance (Some ["bar"; "foo"]))].

(** [<x-component>] with no marked descendant, requiring [foo]. *)
Definition fooRequired : Page :=
  freshPage
    [(0, documentNode [1]); (1, element "X-COMPONENT" 0 [] [])]
    [(1, instance (Some ["foo"]))].

(** [<x-component>] with no marked descendant, requiring [toString]. *)
Definition toStringRequired : Page :=
  freshPage
    [(0, documentNode [1]); (1, element "X-COMPONENT" 0 [] [])]
    [(1, instance (Some ["toString"]))].

(** [<x-component><div ref="foo"/><div ref="item[]"/> x3</x-component>],
    requiring [foo]. *)
Definition listPage : Page :=
  freshPage
    [(0, documentNode [1]);
     (1, element "X-COMPONENT" 0 [2; 3; 4; 5] []);
     (2, element "DIV" 1 [] [("ref", "foo")]);
     (3, element "LI" 1 [] [("ref", "item[]")]);
     (4, element "LI" 1 [] [("ref", "item[]")]);
     (5, element "LI" 1 [] [("ref", "item[]")])]
    [(1, instance (Some ["foo"]))].

(** [<x-component><li ref="item[]"/> x3</x-component>], requiring [foo],
    which nothing names. *)
Definition itemsRequired : Page :=
  freshPage
    [(0, documentNode [1]);
     (1, element "X-COMPONENT" 0 [2; 3; 4] []);
     (2, element "LI" 1 [] [("ref", "item[]")]);
     (3, element "LI" 1 [] [("ref", "item[]")]);
     (4, element "LI" 1 [] [("ref", "item[]")])]
    [(1, instance (Some ["foo"]))].

(** [<x-component><div ref="foo"/><y-component/></x-component>], both
    components, the outer one requiring [foo]. *)
Definition nestedPage : Page :=
  freshPage
    [(0, documentNode [1]);
     (1, element "X-COMPONENT" 0 [2; 3] []);
     (2, element "DIV" 1 [] [("ref", "foo")]);
     (3, element "Y-COMPONENT" 1 [] [])]
    [(1, instance (Some ["foo"])); (3, instance None)].

(** [<x-component><button on:click="/submit?amount=5"><span/></button>
    </x-component>] *)
Definition routerPage : Page :=
  freshPage
    [(0, documentNode [1]);
     (1, element "X-COMPONENT" 0 [2] []);
     (2, element "BUTTON" 1 [3] [("on:click", "/submit?amount=5")]);
     (3, element "SPAN" 2 [] [])]
    [(1, instance None)].

(** [<x-component><button on:click="!"/></x-component>]: a binding with a
    selector segment that is not a selector, and no method segment. *)
Definition badSelectorPage : Page :=
  freshPage
    [(0, documentNode [1]);
     (1, element "X-COMPONENT" 0 [2] []);
     (2, element "BUTTON" 1 [] [("on:click", "!")])]
    [(1, instance None)].

(** [<x-host><template shadowrootmode="open"><div ref="foo"><span/></div>
    </template></x-host>], the host a component without a shadow root. *)
Definition hostPage : Page :=
  freshPage
    [(0, documentNode [1]);
     (1, element "X-HOST" 0 [2] []);
     (2, mkNode ElementNode (Some 1) [] "TEMPLATE"
           {[ "shadowrootmode" := "open" ]} None None true (Some 3));
     (3, mkNode FragmentNode None [4] EmptyString ∅ None None false None);
     (4, element "DIV" 3 [5] [("ref", "foo")]);
     (5, element "SPAN" 4 [] [])]
    [(1, instance None)].

(** A class whose [submit] returns normally, and one whose [submit]
    throws. *)
Definition quietSubmit (n : NodeId) (m : string) : option Handler :=
  if Nat.eqb n 1 && String.eqb m "submit" then Some (fun _ => ret tt) else None.

Definition failingSubmit (n : NodeId) (m : string) : option Handler :=
  if Nat.eqb n 1 && String.eqb m "submit"
  then Some (fun _ => throw (UserError "submit failed")) else None.

Definition isIdentChar (c : ascii) : bool :=
  let n := nat_of_ascii c in
  ((48 <=? n) && (n <=? 57) || (65 <=? n) && (n <=? 90)
   || (97 <=? n) && (n <=? 122) || (n =? 45) || (n =? 95))%nat.

Definition isIdent (s : string) : bool :=
  match Js.chars s with
  | [] => false
  | c :: _ => negb (Js.isDigit c) && forallb isIdentChar (Js.chars s)
  end.

Definition hasTag (p : Page) (tag : string) (n : NodeId) : bool :=
  Dom.isElement (nodes p) n
  && String.eqb (Js.toLowerCase (tagOf p n)) (Js.toLowerCase tag).

Fixpoint closestTagFrom (fuel : nat) (p : Page) (n : NodeId) (tag : string)
  : option NodeId :=
  match fuel with
  | O => None
  | S fuel' =>
      if hasTag p tag n then Some n
      else match Dom.parentOf (nodes p) n with
           | Some parent => closestTagFrom fuel' p parent tag
           | None => None
           end
  end.

Definition ofOption (o : option NodeId) : SelectorResult :=
  match o with
  | Some n => Matched n
  | None => NoMatch
  end.

(** A selector engine for type selectors and id selectors.  An id selector
    is looked up among the descendants of the document nodes, so not
    inside shadow trees.  It reports every other string as invalid; for a
    string such as [!], which no selector grammar accepts, so does every
    engine. *)
Definition simpleEngine : SelectorEngine :=
  mkEngine
    (fun p s =>
       if Js.startsWith s "#" && isIdent (Js.slice_1 s) then
         ofOption
           (List.find
              (fun n => Dom.isElement (nodes p) n
                        && bool_decide (Dom.getAttribute (nodes p) n "id"
                                        = Some (Js.slice_1 s)))
              (flat_map (fun root => Dom.descendants (nodes p) root)
                 (List.filter
                    (fun n => bool_decide (nodeType <$> nodes p !! n
                                           = Some DocumentNode))
                    (fst <$> map_to_list (nodes p)))))
       else InvalidSelector)
    (fun p el s =>
       if isIdent s
       then ofOption (closestTagFrom (Dom.depthBound (nodes p)) p el s)
       else InvalidSelector).

(** A click that originates at node [n] inside the light tree. *)
Definition clickOn (n : NodeId) : Event :=
  mkEvent "click" n (Some [n]) true.

End Examples.

(** A store extends another: every node of the first is unchanged in the
    second. *)
Definition extends (d d' : gmap NodeId Node) : Prop :=
  forall n, is_Some (d !! n) -> d' !! n = d !! n.

(** *** Histories on the concrete pages *)

Module Histories.

(** [nestedPage] after connection of the outer component, after the page
    then moves the marked [div] into the nested component, and after the
    re-render notification that follows. *)
Definition nestedConnected : Page :=
  fst (Component.connectedCallback 1 Examples.nestedPage).

Definition nestedMoved : Page :=
  Environment.appendChild 3 2 (Environment.removeChild 1 2 nestedConnected).

Definition nestedUpdated : Page * Completion unit :=
  Component.updatedCallback 1 nestedMoved.

(** [listPage] after connection, after the idle callback has registered
    the observer, after the page removes one marked element, and after
    the mutation observer has delivered its records. *)
Definition listConnected : Page :=
  fst (Component.connectedCallback 1 Examples.listPage).

Definition listObserving : Page := Component.idle listConnected.

Definition listRemoved (child : NodeId) : Page :=
  Environment.removeChild 1 child listObserving.

Definition listDelivered (child : NodeId) : Page * Completion unit :=
  Component.deliver 1 (listRemoved child).

(** [routerPage] and [badSelectorPage] once their component is
    connected, which installs the router. *)
Definition routerReady : World :=
  worldOf (fst (Component.connectedCallback 1 Examples.routerPage)).

Definition badSelectorReady : World :=
  worldOf (fst (Component.connectedCallback 1 Examples.badSelectorPage)).

(** [hostPage] once the host has been connected. *)
Definition hostHydrated : Page :=
  fst (DeclarativeShadowElement.connectedCallback 1 Examples.hostPage).

(** A scheduler at rest, without and with a view transition in flight. *)
Definition idleLoop : Scheduler.Loop :=
  Scheduler.mkLoop [] false false 0 0 [] [].

Definition transitioningLoop : Scheduler.Loop :=
  Scheduler.startTransition idleLoop.

End Histories.

(** *** Further vocabulary *)

(** A node counts as a component for [getClosestComponent]: an instance of
    [Component], or an HTML element whose lower-cased tag ends with
    [-component]. *)
Definition classified (p : Page) (n : NodeId) : bool :=
  isComponent p n
  || isHTML p n && Js.endsWith (Js.toLowerCase (tagOf p n)) "-component".

(** The router has never been installed on this page. *)
Definition routerAbsent (p : Page) : Prop :=
  initialized p = false /\ documentListeners p = [].

(** An element is an owned marked element of [this]: it passes
    [#isDescendant] and [querySelectorAll('[ref]')] finds it under one of
    the roots. *)
Definition ownedMarked (p : Page) (this e : NodeId) : Prop :=
  isDescendant p this e = true
  /\ exists root, root ∈ Component.roots p this
                  /\ e ∈ Dom.querySelectorAllAttr (nodes p) root "ref".

(** What can happen to a page between two callbacks of a component: a
    mutation record is queued for the observers interested in its target
    (an attribute changes, say), a child is removed or appended, or the
    platform runs the oldest pending idle callback. *)
Inductive PageStep :=
| RecordQueued (m : MutationRecord)
| ChildRemoved (parent child : NodeId)
| ChildAppended (parent child : NodeId)
| IdleCallbackRun.

Definition pageStep (p : Page) (e : PageStep) : Page :=
  match e with
  | RecordQueued m => Environment.queueRecord m p
  | ChildRemoved parent child => Environment.removeChild parent child p
  | ChildAppended parent child => Environment.appendChild parent child p
  | IdleCallbackRun => Component.idle p
  end.

Definition runPage (steps : list PageStep) (p : Page) : Page :=
  fold_left pageStep steps p.

(** The idle callback requested by a [connectedCallback] of [this] has not
    run yet. *)
Definition observationPending (p : Page) (this : NodeId) : Prop :=
  ObserveRoots this ∈ idleQueue p.

(** What can happen to the scheduler, one event at a time: a call of
    [schedule], a view transition starting or resolving, an animation
    frame, the event loop running its oldest timer. *)
Inductive LoopStep :=
| Schedule (t : Scheduler.Task)
| StartTransition
| FinishTransition
| AnimationFrame
| RunTimer.

Definition loopStep (s : Scheduler.Loop) (e : LoopStep) : Scheduler.Loop :=
  match e with
  | Schedule t => Scheduler.schedule t s
  | StartTransition => Scheduler.startTransition s
  | FinishTransition => Scheduler.finishTransition s
  | AnimationFrame => Scheduler.animationFrame s
  | RunTimer => Scheduler.runTimer s
  end.

Definition runLoop (steps : list LoopStep) (s : Scheduler.Loop) : Scheduler.Loop :=
  fold_left loopStep steps s.

(** The tasks handed to [schedule] along a run, in order. *)
Definition scheduledIn (steps : list LoopStep) : list Scheduler.Task :=
  flat_map (fun e => match e with Schedule t => [t] | _ => [] end) steps.

(** A queued task always has its flush on the way: the pending flag is set
    exactly when one flush is requested or suspended, it is set whenever
    the set is non-empty, and a suspended request means a transition is in
    flight. *)
Definition flushPending (s : Scheduler.Loop) : Prop :=
  NoDup (Scheduler.queue s)
  /\ Scheduler.awaiting s + Scheduler.frameRequests s
     = (if Scheduler.scheduled s then 1 else 0)
  /\ (Scheduler.queue s <> [] -> Scheduler.scheduled s = true)
  /\ (Scheduler.awaiting s <> 0 -> Scheduler.transition s = true).

(** How often [t] occurs among the tasks run, pending as timers, or
    queued. *)
Definition occurrences (s : Scheduler.Loop) (t : Scheduler.Task) : nat :=
  count_occ Nat.eq_dec (Scheduler.executed s) t
  + count_occ Nat.eq_dec (Scheduler.timers s) t
  + count_occ Nat.eq_dec (Scheduler.queue s) t.

(** The promise a suspended [schedule] awaits rejects: the [await]
    throws, so each suspended call ends without requesting the flush and
    with the pending flag still set. *)
Definition rejectTransition (s : Scheduler.Loop) : Scheduler.Loop :=
  Scheduler.mkLoop (Scheduler.queue s) (Scheduler.scheduled s)
    (Scheduler.transition s) 0 (Scheduler.frameRequests s)
    (Scheduler.timers s) (Scheduler.executed s).

(** *** More concrete pages *)

Module MoreExamples.

(** [<x-component><input ref="name"/><input ref="email"/>
    <button ref="send"/></x-component>] *)
Definition formPage : Page :=
  Examples.freshPage
    [(0, Examples.documentNode [1]);
     (1, Examples.element "X-COMPONENT" 0 [2; 3; 4] []);
     (2, Examples.element "INPUT" 1 [] [("ref", "name")]);
     (3, Examples.element "INPUT" 1 [] [("ref", "email")]);
     (4, Examples.element "BUTTON" 1 [] [("ref", "send")])]
    [(1, Examples.instance None)].

(** [<x-component><li ref="item[]"/><li ref="item"/><li ref="item[]"/>
    <li ref="item[]"/></x-component>]: a plain marker between repeated
    ones of the same name. *)
Definition mixedPage : Page :=
  Examples.freshPage
    [(0, Examples.documentNode [1]);
     (1, Examples.element "X-COMPONENT" 0 [2; 3; 4; 5] []);
     (2, Examples.element "LI" 1 [] [("ref", "item[]")]);
     (3, Examples.element "LI" 1 [] [("ref", "item")]);
     (4, Examples.element "LI" 1 [] [("ref", "item[]")]);
     (5, Examples.element "LI" 1 [] [("ref", "item[]")])]
    [(1, Examples.instance None)].

End MoreExamples.

Module MoreHistories.

(** [listPage] with one more [<li ref="item[]">] that is not in the
    document yet, its component connected and observing. *)
Definition growPage : Page :=
  Examples.freshPage
    [(0, Examples.documentNode [1]);
     (1, Examples.element "X-COMPONENT" 0 [2; 3; 4; 5] []);
     (2, Examples.element "DIV" 1 [] [("ref", "foo")]);
     (3, Examples.element "LI" 1 [] [("ref", "item[]")]);
     (4, Examples.element "LI" 1 [] [("ref", "item[]")]);
     (5, Examples.element "LI" 1 [] [("ref", "item[]")]);
     (6, mkNode ElementNode None [] "LI" {[ "ref" := "item[]" ]} None None
           true None)]
    [(1, Examples.instance (Some ["foo"]))].

Definition growObserving : Page :=
  Component.idle (fst (Component.connectedCallback 1 growPage)).

End MoreHistories.

(** *** Utilities of [src/all.js]

    Numbers that the code only compares, adds or subtracts are integers
    here; that is exact for the integer values of a double. *)

Module Utilities.

(** [s.indexOf(c)] for a one-character [c], counting from [i]; [-1] when
    [c] does not occur. *)
Fixpoint indexOfFrom (c : ascii) (s : string) (i : Z) : Z :=
  match s with
  | EmptyString => (-1)%Z
  | String x rest => if Ascii.eqb x c then i else indexOfFrom c rest (i + 1)%Z
  end.

Definition indexOf (c : ascii) (s : string) : Z := indexOfFrom c s 0%Z.

(** [s.replace(c, replacement)] with a string pattern: only the first
    occurrence is replaced. *)
Fixpoint replace (c : ascii) (replacement : string) (s : string) : string :=
  match s with
  | EmptyString => EmptyString
  | String x rest =>
      if Ascii.eqb x c then replacement +:+ rest
      else String x (replace c replacement rest)
  end.

(** [formatMoney(value)] *)
Definition formatMoney (value : string) : string :=
  let valueWithNoSpaces := replace " " EmptyString value in
  if (indexOf "," valueWithNoSpaces =? -1)%Z then valueWithNoSpaces
  else if (indexOf "," valueWithNoSpaces <? indexOf "." valueWithNoSpaces)%Z
  then replace "," EmptyString valueWithNoSpaces
  else if (indexOf "." valueWithNoSpaces <? indexOf "," valueWithNoSpaces)%Z
  then replace "," "." (replace "." EmptyString valueWithNoSpaces)
  else if negb (indexOf "," valueWithNoSpaces =? -1)%Z
  then replace "," "." valueWithNoSpaces
  else valueWithNoSpaces.

(** The argument [config] of [fetchConfig] and the [RequestInit] it
    returns; a body is passed through untouched and stays abstract. *)
Record Config (Body : Type) := mkConfig {
  cHeaders : option (gmap string string);
  cBody : option Body
}.
Arguments mkConfig {Body} _ _.
Arguments cHeaders {Body} _.
Arguments cBody {Body} _.

Record RequestInit (Body : Type) := mkRequestInit {
  rMethod : string;
  rHeaders : gmap string string;
  rBody : option Body
}.
Arguments mkRequestInit {Body} _ _ _.
Arguments rMethod {Body} _.
Arguments rHeaders {Body} _.
Arguments rBody {Body} _.

(** [fetchConfig(type = 'json', config = {})]: in the object literal the
    spread of [config.headers] comes last, so its properties replace the
    two written before it. *)
Definition fetchConfig {Body : Type} (type : option string)
  (config : option (Config Body)) : RequestInit Body :=
  let type := default "json" type in
  let config := default (mkConfig None None) config in
  let headers :=
    default ∅ (cHeaders config)
    ∪ <["Content-Type" := "application/json"]>
        (<["Accept" := "application/" +:+ type]> ∅) in
  let headers :=
    if String.eqb type "javascript"
    then delete "Content-Type" (<["X-Requested-With" := "XMLHttpRequest"]> headers)
    else headers in
  mkRequestInit "POST" headers (cBody config).

(** [clamp(value, min, max)] *)
Definition clamp (value min max : Z) : Z := Z.max min (Z.min value max).

(** [closest(values, target)]: [reduce] without an initial value starts
    from the first element and throws a [TypeError] on an empty array,
    which is [None] here.  The differences are exact integers; those of
    the code are doubles, which are the same numbers as long as the values
    and the target do not exceed [2 ^ 52] in magnitude and are rounded
    beyond. *)
Definition closest (values : list Z) (target : Z) : option Z :=
  match values with
  | [] => None
  | first :: rest =>
      Some (fold_left
              (fun prev curr =>
                 if (Z.abs (curr - target) <? Z.abs (prev - target))%Z
                 then curr else prev)
              rest first)
  end.

(** The radix [parseInt(s)] settles on without a radix argument, and what
    is left to read: 16 after a [0x] or [0X] prefix, which is dropped,
    and 10 otherwise. *)
Definition radixAndDigits (u : list ascii) : N * list ascii :=
  match u with
  | "0"%char :: p :: r =>
      if Ascii.eqb p "x" || Ascii.eqb p "X" then (16%N, r) else (10%N, u)
  | _ => (10%N, u)
  end.

Definition isRadixDigit (radix : N) (c : ascii) : bool :=
  match Js.digitVal radix c with Some _ => true | None => false end.

(** [parseInt(s)] without a radix: leading white space is skipped, a sign
    and a [0x] prefix are read, then the longest run of digits; no digit
    gives [NaN].  The result is the exact integer the digits denote, which
    the code rounds to a double when it exceeds [2 ^ 53]; and of the white
    space the platform skips, only the ASCII part is skipped here. *)
Definition parseInt (s : string) : Js.JsNumber :=
  let body := Js.dropSpaces (Js.chars s) in
  let '(neg, u) := Js.signOf body in
  let '(radix, u) := radixAndDigits u in
  let '(ds, _) := Js.span (isRadixDigit radix) u in
  match Js.natural radix ds with
  | Some n => Js.Finite neg n 0
  | None => Js.NaN
  end.

(** [parseIntOrDefault(value, defaultValue)] for a [value] that is a
    string, [null] or [undefined] (both [None] here); the default is a
    number or [null]. *)
Definition parseIntOrDefault (value : option string)
  (defaultValue : option Js.JsNumber) : option Js.JsNumber :=
  match value with
  | None => defaultValue
  | Some s =>
      if String.eqb s EmptyString then defaultValue
      else
        let parsed := parseInt s in
        if Js.isNaN parsed then defaultValue else Some parsed
  end.

End Utilities.

(** *** [debounce]

    Timers are the platform's: [setTimeout] hands out a fresh identifier
    and remembers the callback, [clearTimeout] forgets it, and a timer
    that is still remembered may fire at any later moment. *)

Module Debounce.

Section Debounced.

Context {Args : Type}.

(** [timeout] is the variable of the closure; [pendingTimers] are the
    platform's timers set by this closure and neither fired nor cleared,
    each with the arguments its callback will pass to [fn]; [invoked]
    lists the arguments [fn] was called with. *)
Record State := mkState {
  timeout : option nat;
  pendingTimers : gmap nat Args;
  nextTimer : nat;
  invoked : list Args
}.

Definition initial : State := mkState None ∅ 0 [].

(** [clearTimeout(timeout)] *)
Definition clearTimeout (s : State) : State :=
  match timeout s with
  | Some id => mkState (timeout s) (delete id (pendingTimers s)) (nextTimer s)
                       (invoked s)
  | None => s
  end.

(** [debounced(...args)] *)
Definition debounced (args : Args) (s : State) : State :=
  let s := clearTimeout s in
  mkState (Some (nextTimer s)) (<[nextTimer s := args]> (pendingTimers s))
          (S (nextTimer s)) (invoked s).

(** [debounced.cancel()] *)
Definition cancel (s : State) : State := clearTimeout s.

(** The platform fires timer [id], if it is still pending. *)
Definition fire (id : nat) (s : State) : State :=
  match pendingTimers s !! id with
  | Some args =>
      mkState (timeout s) (delete id (pendingTimers s)) (nextTimer s)
              (invoked s ++ [args])
  | None => s
  end.

Inductive Step :=
| Call (args : Args)
| Cancel
| Fire (id : nat).

Definition step (s : State) (e : Step) : State :=
  match e with
  | Call args => debounced args s
  | Cancel => cancel s
  | Fire id => fire id s
  end.

Definition run (steps : list Step) : State := fold_left step steps initial.

(** The arguments of the calls of [debounced] along a run, in order. *)
Definition calledWith (steps : list Step) : list Args :=
  flat_map (fun e => match e with Call a => [a] | _ => [] end) steps.

End Debounced.

Arguments State : clear implicits.
Arguments Step : clear implicits.

End Debounce.

(** *** [throttle]

    [performance.now()] is an argument of each step; times are integers. *)

Module Throttle.

Section Throttled.

Context {Args : Type}.
Variable delay : Z.

(** [lastCall] is the variable of the closure; [invoked] lists the calls
    of [fn], each with the time it was made at. *)
Record State := mkState {
  lastCall : Z;
  invoked : list (Z * Args)
}.

Definition initial : State := mkState 0 [].

(** [throttled(...args)] at time [now] *)
Definition throttled (now : Z) (args : Args) (s : State) : State :=
  if (now - lastCall s >=? delay)%Z
  then mkState now (invoked s ++ [(now, args)])
  else s.

(** [throttled.cancel()] at time [now] *)
Definition cancel (now : Z) (s : State) : State := mkState now (invoked s).

Inductive Step :=
| Call (now : Z) (args : Args)
| Cancel (now : Z).

Definition timeOf (e : Step) : Z :=
  match e with Call now _ => now | Cancel now => now end.

Definition step (s : State) (e : Step) : State :=
  match e with
  | Call now args => throttled now args s
  | Cancel now => cancel now s
  end.

Definition run (steps : list Step) : State := fold_left step steps initial.

Definition calledWith (steps : list Step) : list Args :=
  flat_map (fun e => match e with Call _ a => [a] | Cancel _ => [] end) steps.

End Throttled.

Arguments State : clear implicits.
Arguments Step : clear implicits.

(** Each time of the list is at least [gap] after the one before it, the
    first one at least [gap] after [last]. *)
Fixpoint spacedFrom (gap last : Z) (times : list Z) : Prop :=
  match times with
  | [] => True
  | t :: rest => (last + gap <= t)%Z /\ spacedFrom gap t rest
  end.

End Throttle.

(** *** [ResizeNotifier] *)

Module ResizeNotifier.

Section Notifier.

Context {Entries : Type}.

(** [initialized] is the private field; [received] lists what the
    callback given to the constructor was called with. *)
Record State := mkState {
  initialized : bool;
  received : list Entries
}.

Definition fresh : State := mkState false [].

(** The function handed to [super(...)], which the platform calls with
    the entries of each notification. *)
Definition notify (entries : Entries) (s : State) : State :=
  if initialized s then mkState (initialized s) (received s ++ [entries])
  else mkState true (received s).

(** [disconnect()] *)
Definition disconnect (s : State) : State := mkState false (received s).

Inductive Step :=
| Notify (entries : Entries)
| Disconnect.

Definition step (s : State) (e : Step) : State :=
  match e with
  | Notify entries => notify entries s
  | Disconnect => disconnect s
  end.

Definition run (steps : list Step) (s : State) : State := fold_left step steps s.

End Notifier.

Arguments State : clear implicits.
Arguments Step : clear implicits.

End ResizeNotifier.

(** *** The scroll script of [src/unnamed/part_000] *)

Module PageScript.

(** [isElementInViewport(element)], from the [top] and [bottom] of the
    element's bounding rectangle and the two candidate view heights;
    [a || b] takes [b] when [a] is zero. *)
Definition isElementInViewport (top bottom innerHeight clientHeight : Z) : bool :=
  let viewHeight := if (innerHeight =? 0)%Z then clientHeight else innerHeight in
  ((top <=? 0) && (bottom >=? 0)
   || (bottom >=? viewHeight) && (top <=? viewHeight)
   || (top >=? 0) && (bottom <=? viewHeight))%Z.

End PageScript.

(** ** Part II: properties *)

(** *** The monad *)

Lemma bind_normal {S A B} (m : M S A) (k : A -> M S B) s s' a :
  m s = (s', Normal a) -> bind m k s = k a s'.
Proof. intros H. unfold bind. now rewrite H. Qed.

Lemma bind_throw {S A B} (m : M S A) (k : A -> M S B) s s' e :
  m s = (s', Throw e) -> bind m k s = (s', Throw e).
Proof. intros H. unfold bind. now rewrite H. Qed.

(** A loop whose body only checks: it changes nothing and throws at the
    first element that fails the check. *)
Lemma forEach_check {S} (l : list string) (ok : string -> bool)
      (err : string -> JsError) (s : S) :
  forEach l (fun x => if negb (ok x) then throw (err x) else ret tt) s
  = match List.find (fun x => negb (ok x)) l with
    | Some x => (s, Throw (err x))
    | None => (s, Normal tt)
    end.
Proof.
  induction l as [|x l IH]; simpl; [reflexivity|].
  unfold bind. destruct (negb (ok x)); simpl; [reflexivity|].
  exact IH.
Qed.

(** *** The ref computation *)

(** The first required name the built mapping lacks, if any. *)
Lemma updateRefs_outcome p this :
  Component.updateRefs this p
  = match List.find (fun r => negb (Component.jsIn r (Component.buildRefs p this)))
                    (requiredNames p this) with
    | Some r => (p, Throw (Component.missingRefError p r this))
    | None => (Component.setRefs this (Component.buildRefs p this) p, Normal tt)
    end.
Proof.
  unfold Component.updateRefs, requiredNames, bind, get.
  destruct (components p !! this ≫= requiredRefs) as [[|r rest]|]; simpl;
    try reflexivity.
  pose proof (forEach_check (r :: rest)
                (fun x => Component.jsIn x (Component.buildRefs p this))
                (fun x => Component.missingRefError p x this) p) as H.
  simpl in H. unfold bind in H. unfold bind. 
  destruct (negb (Component.jsIn r (Component.buildRefs p this))); simpl in *;
    [reflexivity|].
  rewrite H.
  destruct (List.find _ rest); reflexivity.
Qed.

Lemma assignRef_lookup p refs e name :
  Component.assignRef p refs e !! name
  = if String.eqb (slotName p e) name then slotStep p (refs !! name) e
    else refs !! name.
Proof.
  unfold Component.assignRef, slotName, slotStep, isRepeated, markerOf.
  set (marker := default EmptyString (Dom.getAttribute (nodes p) e "ref")).
  destruct (Js.endsWith marker "[]").
  - destruct (String.eqb_spec (Js.slice_0_m2 marker) name) as [->|Hne].
    + rewrite lookup_insert_eq. reflexivity.
    + rewrite lookup_insert_ne by congruence. reflexivity.
  - destruct (String.eqb_spec marker name) as [->|Hne].
    + rewrite lookup_insert_eq. reflexivity.
    + rewrite lookup_insert_ne by congruence. reflexivity.
Qed.

Lemma fold_assignRef_lookup p l refs name :
  fold_left (Component.assignRef p) l refs !! name
  = fold_left (slotStep p)
      (List.filter (fun e => String.eqb (slotName p e) name) l) (refs !! name).
Proof.
  revert refs. induction l as [|e l IH]; intros refs; simpl; [reflexivity|].
  rewrite IH, assignRef_lookup.
  destruct (String.eqb (slotName p e) name); reflexivity.
Qed.

(** The value of a slot is decided by the owned elements naming it, in
    order of discovery. *)
Lemma buildRefs_lookup p this name :
  Component.buildRefs p this !! name
  = fold_left (slotStep p) (namingSlot p this name) None.
Proof.
  unfold Component.buildRefs, namingSlot.
  rewrite fold_assignRef_lookup, lookup_empty. reflexivity.
Qed.

Lemma slotStep_fold_snoc p l v e :
  fold_left (slotStep p) (l ++ [e]) v = slotStep p (fold_left (slotStep p) l v) e.
Proof. rewrite fold_left_app. reflexivity. Qed.

Lemma slotStep_fold_is_Some p l v :
  is_Some (fold_left (slotStep p) l v) <-> is_Some v \/ l <> [].
Proof.
  revert v. induction l as [|e l IH]; intros v; simpl.
  - split; [auto|]. intros [H|H]; [exact H|congruence].
  - rewrite IH. split; [intros _; right; discriminate|].
    intros _. left. unfold slotStep. destruct (isRepeated p e); eauto.
Qed.

Lemma slotStep_fold_holds p l v v' e :
  fold_left (slotStep p) l v = Some v' -> holds v' e ->
  e ∈ l \/ exists v0, v = Some v0 /\ holds v0 e.
Proof.
  revert v. induction l as [|x l IH]; intros v Hf Hh; simpl in Hf.
  - right. eauto.
  - destruct (IH _ Hf Hh) as [Hin|(v0 & Hv0 & Hh0)].
    + left. now apply list_elem_of_further.
    + unfold slotStep in Hv0. destruct (isRepeated p x).
      * injection Hv0 as <-. simpl in Hh0.
        apply elem_of_app in Hh0 as [Hh0|Hh0].
        -- right. destruct v as [[?|a]|]; simpl in Hh0;
             try (now apply elem_of_nil in Hh0).
           exists (RefArray a). auto.
        -- apply list_elem_of_singleton in Hh0 as ->. left. apply list_elem_of_here.
      * injection Hv0 as <-. simpl in Hh0. subst. left. apply list_elem_of_here.
Qed.

Lemma slotStep_fold_repeated p l a :
  Forall (fun e => isRepeated p e = true) l ->
  fold_left (slotStep p) l (Some (RefArray a)) = Some (RefArray (a ++ l)).
Proof.
  revert a. induction l as [|e l IH]; intros a Hall; simpl.
  - now rewrite app_nil_r.
  - inversion Hall as [|? ? He Hl]; subst.
    unfold slotStep at 2. rewrite He, (IH _ Hl), <- app_assoc. reflexivity.
Qed.

Lemma slotStep_fold_all_repeated p l :
  l <> [] -> Forall (fun e => isRepeated p e = true) l ->
  fold_left (slotStep p) l None = Some (RefArray l).
Proof.
  destruct l as [|e l]; [congruence|]. intros _ Hall.
  inversion Hall as [|? ? He Hl]; subst. simpl.
  unfold slotStep at 2. rewrite He. simpl.
  now rewrite (slotStep_fold_repeated _ _ _ Hl).
Qed.

Lemma filter_In_elem {A} (f : A -> bool) (l : list A) x :
  x ∈ List.filter f l <-> x ∈ l /\ f x = true.
Proof. rewrite !list_elem_of_In. apply filter_In. Qed.

(** Every element a built mapping holds is an owned marked element naming
    that slot. *)
Lemma buildRefs_holds p this name v e :
  Component.buildRefs p this !! name = Some v -> holds v e ->
  e ∈ Component.ownedRefElements p this /\ slotName p e = name.
Proof.
  rewrite buildRefs_lookup. intros Hf Hh.
  destruct (slotStep_fold_holds _ _ _ _ _ Hf Hh) as [Hin|(v0 & Hv0 & _)];
    [|discriminate].
  unfold namingSlot in Hin. apply filter_In_elem in Hin as [Hin Heq].
  split; [exact Hin|]. now apply String.eqb_eq.
Qed.

(** A slot exists exactly when some owned element names it. *)
Lemma buildRefs_is_Some p this name :
  is_Some (Component.buildRefs p this !! name) <-> namingSlot p this name <> [].
Proof.
  rewrite buildRefs_lookup, slotStep_fold_is_Some.
  split; [intros [[? H]|H]; [discriminate|exact H]|auto].
Qed.

Lemma setAdd_elem e x acc :
  x ∈ Component.setAdd e acc <-> x ∈ acc \/ x = e.
Proof.
  unfold Component.setAdd. case_bool_decide as Hin.
  - split; [auto|]. intros [H| ->]; assumption.
  - rewrite elem_of_app, list_elem_of_singleton. reflexivity.
Qed.

Lemma ownedRefElements_inner p this l acc x :
  x ∈ fold_left
        (fun acc element =>
           if negb (isDescendant p this element) then acc
           else Component.setAdd element acc) l acc ->
  x ∈ acc \/ (x ∈ l /\ isDescendant p this x = true).
Proof.
  revert acc. induction l as [|e l IH]; intros acc H; simpl in H; [auto|].
  apply IH in H as [H|[H1 H2]].
  - destruct (isDescendant p this e) eqn:He; simpl in H; [|auto].
    apply setAdd_elem in H as [H| ->]; [auto|].
    right. split; [apply list_elem_of_here|exact He].
  - right. split; [now apply list_elem_of_further|exact H2].
Qed.

(** Every owned marked element passed the [#isDescendant] filter and was
    found under one of the roots. *)
Lemma ownedRefElements_spec p this x :
  x ∈ Component.ownedRefElements p this ->
  isDescendant p this x = true
  /\ exists root, root ∈ Component.roots p this
                  /\ x ∈ Dom.querySelectorAllAttr (nodes p) root "ref".
Proof.
  unfold Component.ownedRefElements.
  assert (G : forall rs acc,
    x ∈ fold_left
          (fun acc root =>
             fold_left
               (fun acc element =>
                  if negb (isDescendant p this element) then acc
                  else Component.setAdd element acc)
               (Dom.querySelectorAllAttr (nodes p) root "ref") acc) rs acc ->
    x ∈ acc \/ (isDescendant p this x = true
                /\ exists root, root ∈ rs
                     /\ x ∈ Dom.querySelectorAllAttr (nodes p) root "ref")).
  { induction rs as [|r rs IH]; intros acc H; simpl in H; [auto|].
    apply IH in H as [H|(H1 & root & H2 & H3)].
    - apply ownedRefElements_inner in H as [H|[H1 H2]]; [auto|].
      right. split; [exact H2|]. exists r. split; [apply list_elem_of_here|exact H1].
    - right. split; [exact H1|]. exists root.
      split; [now apply list_elem_of_further|exact H3]. }
  intros H. apply G in H as [H|H]; [now apply elem_of_nil in H|exact H].
Qed.

Lemma refsOf_setRefs p this refs i :
  components p !! this = Some i ->
  refsOf (Component.setRefs this refs p) this = refs.
Proof.
  intros H. unfold refsOf, Component.setRefs, withComponents. simpl.
  rewrite lookup_alter_eq, H. reflexivity.
Qed.

(** *** String facts used by the error message *)

Lemma append_nil_l (s : string) : EmptyString +:+ s = s.
Proof. reflexivity. Qed.

Lemma append_cons (c : ascii) (a b : string) :
  String c a +:+ b = String c (a +:+ b).
Proof. reflexivity. Qed.

Lemma append_nil_r (s : string) : s +:+ EmptyString = s.
Proof.
  induction s as [|c s IH]; [reflexivity|]. now rewrite append_cons, IH.
Qed.

Lemma append_assoc (a b c : string) : (a +:+ b) +:+ c = a +:+ (b +:+ c).
Proof.
  induction a as [|x a IH]; [reflexivity|]. now rewrite !append_cons, IH.
Qed.

Lemma substring_prefix (a b : string) :
  substring 0 (String.length a) (a +:+ b) = a.
Proof.
  induction a as [|c a IH].
  - rewrite append_nil_l. now destruct b.
  - rewrite append_cons. simpl. now rewrite IH.
Qed.

Lemma startsWith_app (a b : string) : Js.startsWith (a +:+ b) a = true.
Proof. unfold Js.startsWith. rewrite substring_prefix. apply String.eqb_refl. Qed.

Lemma includes_unfold (s part : string) :
  includes s part
  = Js.startsWith s part
    || match s with
       | EmptyString => false
       | String _ rest => includes rest part
       end.
Proof. destruct s; reflexivity. Qed.

Lemma includes_app (a b c : string) : includes (a +:+ b +:+ c) b = true.
Proof.
  induction a as [|x a IH].
  - rewrite append_nil_l, includes_unfold, startsWith_app. reflexivity.
  - rewrite append_cons, includes_unfold, IH. apply orb_true_r.
Qed.

Lemma includes_suffix (a b : string) : includes (a +:+ b) b = true.
Proof. rewrite <- (append_nil_r b) at 1. apply includes_app. Qed.

(** *** Cloning only adds nodes *)

Lemma extends_refl d : extends d d.
Proof. intros n _. reflexivity. Qed.

Lemma extends_trans d1 d2 d3 : extends d1 d2 -> extends d2 d3 -> extends d1 d3.
Proof.
  intros H12 H23 n Hn. rewrite H23, H12; auto. rewrite H12; auto.
Qed.

Lemma freshId_fresh (d : gmap NodeId Node) : d !! DomOps.freshId d = None.
Proof. apply not_elem_of_dom. unfold DomOps.freshId. apply is_fresh. Qed.

Lemma extends_insert_fresh d r : extends d (<[DomOps.freshId d := r]> d).
Proof.
  intros n Hn. apply lookup_insert_ne. intros <-.
  rewrite freshId_fresh in Hn. now destruct Hn.
Qed.

Lemma extends_alter_new d d' f id :
  d !! id = None -> extends d d' -> extends d (alter f id d').
Proof.
  intros Hid H n Hn. rewrite lookup_alter_ne; [now apply H|].
  intros <-. rewrite Hid in Hn. now destruct Hn.
Qed.

Lemma cloneAll_extends
      (clone : gmap NodeId Node -> NodeId -> gmap NodeId Node * option NodeId)
      (Hclone : forall d k, extends d (fst (clone d k))) ks acc :
  extends (fst acc)
    (fst (fold_left
            (fun acc k =>
               let '(dk, o) := clone (fst acc) k in
               (dk, snd acc ++ option_list o)) ks acc)).
Proof.
  revert acc. induction ks as [|k ks IH]; intros acc; simpl; [apply extends_refl|].
  eapply extends_trans; [|apply IH].
  specialize (Hclone (fst acc) k). destruct (clone (fst acc) k). exact Hclone.
Qed.

Lemma cloneNodeFrom_extends fuel d src parent :
  extends d (fst (DomOps.cloneNodeFrom fuel d src parent)).
Proof.
  revert d src parent. induction fuel as [|fuel IH]; intros d src parent; simpl;
    [apply extends_refl|].
  destruct (d !! src) as [r|]; [|apply extends_refl].
  pose proof (cloneAll_extends
    (fun d k => DomOps.cloneNodeFrom fuel d k (Some (DomOps.freshId d)))) as Hall.
  match goal with
  | |- context [fold_left ?F ?ks ?acc] =>
      pose proof (cloneAll_extends
        (fun dd k => DomOps.cloneNodeFrom fuel dd k (Some (DomOps.freshId d)))
        (fun dd k => IH dd k _) ks acc) as Hfold;
      destruct (fold_left F ks acc) as [d1 kids] eqn:Efold
  end.
  simpl in Hfold.
  assert (H1 : extends d d1).
  { eapply extends_trans; [apply extends_insert_fresh|exact Hfold]. }
  destruct (content r) as [f|].
  - pose proof (IH d1 f None) as H2.
    destruct (DomOps.cloneNodeFrom fuel d1 f None) as [d2 c]. simpl in *.
    apply extends_alter_new; [apply freshId_fresh|].
    eapply extends_trans; eassumption.
  - simpl. apply extends_alter_new; [apply freshId_fresh|exact H1].
Qed.

Lemma appendClonedChildren_other fuel d fragment target n :
  n <> target -> is_Some (d !! n) ->
  DomOps.appendClonedChildren fuel d fragment target !! n = d !! n.
Proof.
  intros Hne Hn. unfold DomOps.appendClonedChildren.
  pose proof (cloneAll_extends
    (fun dd k => DomOps.cloneNodeFrom fuel dd k (Some target))
    (fun dd k => cloneNodeFrom_extends fuel dd k _)
    (Dom.childrenOf d fragment) (d, [])) as Hfold.
  destruct (fold_left _ _ _) as [d1 kids]. simpl in Hfold.
  rewrite lookup_alter_ne by congruence. now apply Hfold.
Qed.

(** *** Hydration and listener registration leave the instances alone *)

Lemma queryOpenTemplate_Some d this t :
  DomOps.queryOpenTemplate d this = Some t -> is_Some (d !! this).
Proof.
  unfold DomOps.queryOpenTemplate, Dom.childrenOf.
  destruct (d !! this); [eauto|]. simpl. discriminate.
Qed.

(** The four ways [DeclarativeShadowElement.connectedCallback] can go. *)
Lemma hydrate_cases p this :
  (DeclarativeShadowElement.connectedCallback this p = (p, Normal tt)
   /\ (is_Some (nodes p !! this ≫= shadowRoot)
       \/ DomOps.queryOpenTemplate (nodes p) this = None
       \/ exists t, DomOps.queryOpenTemplate (nodes p) this = Some t
                    /\ nodes p !! t ≫= content = None))
  \/ exists r t fragment,
       nodes p !! this = Some r /\ shadowRoot r = None
       /\ DomOps.queryOpenTemplate (nodes p) this = Some t
       /\ nodes p !! t ≫= content = Some fragment
       /\ let sr := DomOps.freshId (nodes p) in
          let d1 := <[this := DomOps.setShadowRoot (Some sr) r]>
                      (<[sr := DomOps.newShadowRoot this]> (nodes p)) in
          DeclarativeShadowElement.connectedCallback this p
          = (withNodes (fun _ =>
               DomOps.appendClonedChildren (Dom.depthBound d1) d1 fragment sr) p,
             Normal tt).
Proof.
  unfold DeclarativeShadowElement.connectedCallback, bind, get.
  destruct (nodes p !! this ≫= shadowRoot) as [sr|] eqn:Hsr.
  { left. split; [reflexivity|]. left. eauto. }
  destruct (DomOps.queryOpenTemplate (nodes p) this) as [t|] eqn:Ht.
  2:{ left. split; [reflexivity|]. right. left. reflexivity. }
  destruct (nodes p !! t ≫= content) as [f|] eqn:Hf.
  2:{ left. split; [reflexivity|]. right. right. eauto. }
  right. destruct (queryOpenTemplate_Some _ _ _ Ht) as [r Hr].
  exists r, t, f. rewrite Hr in Hsr. simpl in Hsr.
  repeat split; try assumption.
  unfold DeclarativeShadowElement.attachShadow, bind, get.
  rewrite Hr, Hsr. simpl. reflexivity.
Qed.

Lemma hydrate_outcome p this :
  exists p1,
    DeclarativeShadowElement.connectedCallback this p = (p1, Normal tt)
    /\ components p1 = components p
    /\ initialized p1 = initialized p
    /\ documentListeners p1 = documentListeners p
    /\ idleQueue p1 = idleQueue p
    /\ tagOf p1 this = tagOf p this.
Proof.
  destruct (hydrate_cases p this) as [[H _]|(r & t & f & Hr & Hsr & Ht & Hf & H)].
  - exists p. repeat split; try reflexivity. exact H.
  - simpl in H. eexists. split; [exact H|]. repeat split; try reflexivity.
    unfold tagOf, withNodes. simpl.
    rewrite appendClonedChildren_other.
    + rewrite lookup_insert_eq, Hr. reflexivity.
    + intros ->. pose proof (freshId_fresh (nodes p)) as Hfr. congruence.
    + rewrite lookup_insert_eq. eauto.
Qed.

Lemma registerEventListeners_outcome p :
  exists p2,
    registerEventListeners p = (p2, Normal tt)
    /\ nodes p2 = nodes p /\ components p2 = components p
    /\ idleQueue p2 = idleQueue p /\ initialized p2 = true.
Proof.
  unfold registerEventListeners, bind, get, modify.
  destruct (initialized p) eqn:Hi; eexists; repeat split; assumption || reflexivity.
Qed.

(** What a page's tree and instances decide stays the same on any page with
    the same tree and instances. *)
Lemma fold_left_ext {A B} (f g : A -> B -> A) (l : list B) (a : A) :
  (forall a x, f a x = g a x) -> fold_left f l a = fold_left g l a.
Proof.
  intros H. revert a. induction l as [|x l IH]; intros a; simpl; [reflexivity|].
  now rewrite H, IH.
Qed.

Lemma getClosestComponentFrom_view fuel p q node :
  nodes q = nodes p -> components q = components p ->
  getClosestComponentFrom fuel q node = getClosestComponentFrom fuel p node.
Proof.
  intros Hn Hc. revert node. induction fuel as [|fuel IH]; intros node; simpl;
    [reflexivity|].
  destruct node as [n|]; [|reflexivity].
  unfold isComponent, isHTML, tagOf, getAncestor. rewrite Hn, Hc.
  destruct (bool_decide _); [reflexivity|].
  destruct (_ && _); [reflexivity|].
  destruct (Dom.parentOf (nodes p) n); [apply IH|].
  destruct (Dom.isShadowRoot _ _); [|reflexivity].
  destruct (_ ≫= _); [apply IH|reflexivity].
Qed.

Lemma isDescendant_view p q this e :
  nodes q = nodes p -> components q = components p ->
  isDescendant q this e = isDescendant p this e.
Proof.
  intros Hn Hc. unfold isDescendant, getClosestComponent.
  rewrite (getClosestComponentFrom_view _ p q) by assumption.
  unfold getAncestor. rewrite Hn. reflexivity.
Qed.

Lemma refs_view_irrelevant p q this :
  nodes q = nodes p -> components q = components p ->
  Component.buildRefs q this = Component.buildRefs p this
  /\ requiredNames q this = requiredNames p this
  /\ (forall r, Component.missingRefError q r this
                = Component.missingRefError p r this)
  /\ (forall refs, refsOf (Component.setRefs this refs q) this
                   = refsOf (Component.setRefs this refs p) this).
Proof.
  intros Hn Hc. repeat split.
  - unfold Component.buildRefs, Component.ownedRefElements, Component.roots.
    rewrite Hn.
    erewrite (fold_left_ext (fun acc root => fold_left _ _ acc)).
    + apply fold_left_ext. intros refs e.
      unfold Component.assignRef. rewrite Hn. reflexivity.
    + intros acc root. apply fold_left_ext. intros acc' e.
      rewrite (isDescendant_view p q) by assumption. reflexivity.
  - unfold requiredNames. now rewrite Hc.
  - intros r. unfold Component.missingRefError, tagOf. now rewrite Hn.
  - intros refs. unfold refsOf, Component.setRefs, withComponents. simpl.
    now rewrite Hc.
Qed.

Lemma connectedCallback_outcome p this :
  exists p1 p2,
    DeclarativeShadowElement.connectedCallback this p = (p1, Normal tt)
    /\ nodes p2 = nodes p1 /\ components p2 = components p
    /\ idleQueue p2 = idleQueue p /\ tagOf p2 this = tagOf p this
    /\ Component.connectedCallback this p
       = match List.find
                 (fun r => negb (Component.jsIn r (Component.buildRefs p1 this)))
                 (requiredNames p this) with
         | Some r => (p2, Throw (Component.missingRefError p2 r this))
         | None =>
             (Component.requestIdleCallback (ObserveRoots this)
                (Component.setRefs this (Component.buildRefs p1 this) p2),
              Normal tt)
         end.
Proof.
  destruct (hydrate_outcome p this) as (p1 & H1 & Hc1 & _ & _ & Hq1 & Ht1).
  destruct (registerEventListeners_outcome p1) as (p2 & H2 & Hn2 & Hc2 & Hq2 & _).
  exists p1, p2. repeat split; try congruence.
  - unfold tagOf. rewrite Hn2. exact Ht1.
  - unfold Component.connectedCallback.
    rewrite (bind_normal _ _ _ _ _ H1), (bind_normal _ _ _ _ _ H2).
    destruct (refs_view_irrelevant p1 p2 this Hn2 Hc2) as (Hb & Hr & _ & _).
    unfold bind. rewrite updateRefs_outcome, Hb, Hr.
    replace (requiredNames p1 this) with (requiredNames p this)
      by (unfold requiredNames; now rewrite Hc1).
    destruct (List.find _ _); reflexivity.
Qed.

Lemma find_first {A} (f : A -> bool) (before after : list A) (x : A) :
  (forall r, r ∈ before -> f r = false) -> f x = true ->
  List.find f (before ++ x :: after) = Some x.
Proof.
  intros Hb Hx. induction before as [|b before IH]; simpl.
  - now rewrite Hx.
  - rewrite (Hb b) by apply list_elem_of_here.
    apply IH. intros r Hr. apply Hb. now apply list_elem_of_further.
Qed.

Lemma jsIn_false p this name :
  namingSlot p this name = [] -> Js.inherited name = false ->
  Component.jsIn name (Component.buildRefs p this) = false.
Proof.
  intros Hs Hi. unfold Component.jsIn. rewrite Hi, orb_false_r.
  apply bool_decide_eq_false. rewrite buildRefs_is_Some. now rewrite Hs.
Qed.

(** Under [plainSlots] the loop never assigns to [__proto__]: the local
    object keeps the prototype it was created with. *)
Lemma plainSlots_no_proto_assignment p this :
  plainSlots p this <-> Component.buildRefs p this !! "__proto__" = None.
Proof.
  unfold plainSlots.
  pose proof (buildRefs_is_Some p this "__proto__") as H.
  destruct (Component.buildRefs p this !! "__proto__") as [v|].
  - split; [|discriminate]. intros Hnil.
    destruct (proj1 H) as []; [now eexists|exact Hnil].
  - split; [reflexivity|]. intros _.
    destruct (namingSlot p this "__proto__") as [|e l]; [reflexivity|].
    destruct (proj2 H) as [v Hv]; discriminate.
Qed.

(** C1 (as amended).  On a component none of whose owned markers names the
    slot [__proto__]: when [foo] is the first name of [requiredRefs], in
    declaration order, that the newly built mapping lacks (no owned
    descendant carries a marker naming it, and it is not a name every plain
    object inherits), connection raises [MissingRefError] with the message
    [Required ref "foo" not found in component <tag>], which names [foo]
    and the lower-cased tag.  The error leaves [connectedCallback] uncaught;
    [refs] is not replaced and no observation is scheduled. *)
Theorem missing_required_ref_fails
  (p : Page) (this : NodeId) (inst : Instance) (foo : string)
  (before after : list string) :
  let p1 := fst (DeclarativeShadowElement.connectedCallback this p) in
  components p !! this = Some inst ->
  requiredRefs inst = Some (before ++ foo :: after) ->
  plainSlots p1 this ->
  (forall r, r ∈ before ->
             Component.jsIn r (Component.buildRefs p1 this) = true) ->
  namingSlot p1 this foo = [] ->
  Js.inherited foo = false ->
  exists p' msg,
    Component.connectedCallback this p = (p', Throw (MissingRefError msg))
    /\ msg = "Required ref " +:+ Js.dquote +:+ foo +:+ Js.dquote
             +:+ " not found in component " +:+ Js.toLowerCase (tagOf p this)
    /\ includes msg foo = true
    /\ includes msg (Js.toLowerCase (tagOf p this)) = true
    /\ refsOf p' this = refsOf p this
    /\ idleQueue p' = idleQueue p.
Proof.
  intros p1 Hinst Hreq _ Hbefore Hnone Hinh.
  destruct (connectedCallback_outcome p this)
    as (q1 & p2 & H1 & Hn2 & Hc2 & Hq2 & Ht2 & Hcc).
  assert (q1 = p1) as -> by (unfold p1; now rewrite H1).
  assert (Hnames : requiredNames p this = before ++ foo :: after).
  { unfold requiredNames. rewrite Hinst. simpl. now rewrite Hreq. }
  rewrite Hnames, (find_first _ before after foo) in Hcc.
  - exists p2. eexists. split; [exact Hcc|].
    unfold Component.missingRefError. rewrite Ht2.
    split; [reflexivity|]. split; [|split; [|split]].
    + rewrite <- append_assoc. apply includes_app.
    + rewrite <- !append_assoc. apply includes_suffix.
    + unfold refsOf. now rewrite Hc2.
    + exact Hq2.
  - intros r Hr. now rewrite (Hbefore r Hr).
  - rewrite jsIn_false; auto.
Qed.

Lemma missing_required_ref_fails_witness :
  exists p' msg,
    Component.connectedCallback 1 Examples.fooRequired
    = (p', Throw (MissingRefError msg))
    /\ msg = "Required ref " +:+ Js.dquote +:+ "foo" +:+ Js.dquote
             +:+ " not found in component "
             +:+ Js.toLowerCase (tagOf Examples.fooRequired 1)
    /\ includes msg "foo" = true
    /\ includes msg (Js.toLowerCase (tagOf Examples.fooRequired 1)) = true
    /\ refsOf p' 1 = refsOf Examples.fooRequired 1
    /\ idleQueue p' = idleQueue Examples.fooRequired.
Proof.
  apply (missing_required_ref_fails Examples.fooRequired 1
           (Examples.instance (Some ["foo"])) "foo" [] []).
  - reflexivity.
  - reflexivity.
  - vm_compute. reflexivity.
  - intros r Hr. now apply elem_of_nil in Hr.
  - vm_compute. reflexivity.
  - reflexivity.
Defined.

(** C1 as stated fails: with [requiredRefs = ['bar', 'foo']] and no marked
    descendant, [foo] is required and nothing names it, yet the error that
    connection raises names [bar] and does not mention [foo]. *)
Lemma missing_required_ref_counterexample :
  "foo" ∈ requiredNames Examples.twoRequired 1
  /\ namingSlot
       (fst (DeclarativeShadowElement.connectedCallback 1 Examples.twoRequired))
       1 "foo" = []
  /\ exists msg,
       snd (Component.connectedCallback 1 Examples.twoRequired)
       = Throw (MissingRefError msg)
       /\ msg = "Required ref " +:+ Js.dquote +:+ "bar" +:+ Js.dquote
                +:+ " not found in component x-component"
       /\ includes msg "foo" = false.
Proof.
  split; [|split].
  - vm_compute. apply list_elem_of_further, list_elem_of_here.
  - vm_compute. reflexivity.
  - eexists. split; [vm_compute; reflexivity|]. split; vm_compute; reflexivity.
Qed.

(** A required name that every plain object inherits is never reported:
    [toString in refs] holds for the empty mapping. *)
Lemma inherited_name_never_missing :
  namingSlot Examples.toStringRequired 1 "toString" = []
  /\ snd (Component.connectedCallback 1 Examples.toStringRequired) = Normal tt.
Proof. split; vm_compute; reflexivity. Qed.



(** C3 (as amended).  An element whose nearest owning component is not
    [this] is held by no slot of the mapping a ref computation builds, and
    so by no slot of [refs] after a ref computation that completes. *)
Theorem nested_marker_not_in_refs (p : Page) (this e : NodeId) :
  nearestOwner p e <> Some this ->
  ~ appearsIn (Component.buildRefs p this) e
  /\ forall p', Component.updateRefs this p = (p', Normal tt) ->
                ~ appearsIn (refsOf p' this) e.
Proof.
  intros Hown.
  assert (Hbuilt : ~ appearsIn (Component.buildRefs p this) e).
  { intros (name & v & Hv & Hh).
    destruct (buildRefs_holds _ _ _ _ _ Hv Hh) as [Hin _].
    apply ownedRefElements_spec in Hin as [Hd _].
    unfold isDescendant in Hd. apply bool_decide_eq_true in Hd.
    now apply Hown. }
  split; [exact Hbuilt|].
  intros p'. rewrite updateRefs_outcome.
  destruct (List.find _ _); [discriminate|].
  intros H. injection H as <-.
  destruct (components p !! this) as [i|] eqn:Hi.
  - now rewrite (refsOf_setRefs _ _ _ _ Hi).
  - intros (name & v & Hv & _).
    unfold refsOf, Component.setRefs, withComponents in Hv. simpl in Hv.
    rewrite lookup_alter_eq, Hi in Hv. simpl in Hv.
    now rewrite lookup_empty in Hv.
Qed.

Lemma nested_marker_not_in_refs_witness :
  ~ appearsIn (Component.buildRefs Histories.nestedMoved 1) 2
  /\ forall p', Component.updateRefs 1 Histories.nestedMoved = (p', Normal tt) ->
                ~ appearsIn (refsOf p' 1) 2.
Proof.
  apply (nested_marker_not_in_refs Histories.nestedMoved 1 2).
  vm_compute. discriminate.
Defined.

(** C3 as stated fails after a ref computation that throws.  The outer
    component connects and holds the marked [div] under [foo]; the page
    moves the [div] into the nested component; the re-render notification
    recomputes, finds [foo] missing and throws; [refs] still holds the
    [div], whose nearest owning component is now the nested one. *)
Lemma nested_marker_counterexample :
  refsOf Histories.nestedConnected 1 !! "foo" = Some (RefElement 2)
  /\ nearestOwner (fst Histories.nestedUpdated) 2 = Some 3
  /\ (exists e, snd Histories.nestedUpdated = Throw e)
  /\ appearsIn (refsOf (fst Histories.nestedUpdated) 1) 2.
Proof.
  split; [vm_compute; reflexivity|].
  split; [vm_compute; reflexivity|].
  split; [eexists; vm_compute; reflexivity|].
  exists "foo", (RefElement 2). split; [vm_compute; reflexivity|reflexivity].
Qed.

(** *** The repetition suffix *)

Lemma length_append (a b : string) :
  String.length (a +:+ b) = String.length a + String.length b.
Proof.
  induction a as [|c a IH]; [reflexivity|]. rewrite append_cons. simpl. now rewrite IH.
Qed.

Lemma substring_suffix (a b : string) :
  substring (String.length a) (String.length b) (a +:+ b) = b.
Proof.
  induction a as [|c a IH].
  - rewrite append_nil_l. simpl. induction b as [|x b IHb]; simpl; [reflexivity|].
    now rewrite IHb.
  - rewrite append_cons. simpl. exact IH.
Qed.

Lemma substring_split (s : string) (k : nat) :
  (k <= String.length s)%nat ->
  s = substring 0 k s +:+ substring k (String.length s - k) s.
Proof.
  revert k. induction s as [|c s IH]; intros k Hk; simpl in Hk.
  - assert (k = 0) as -> by lia. reflexivity.
  - destruct k as [|k].
    + simpl. rewrite append_nil_l. f_equal.
      specialize (IH 0 ltac:(lia)). simpl in IH.
      replace (String.length s - 0) with (String.length s) in IH by lia.
      destruct s; simpl in *; [reflexivity|]. 
      rewrite append_nil_l in IH. 
      destruct (String.length s); exact IH.
    + simpl. rewrite append_cons. f_equal. apply IH. lia.
Qed.

Lemma endsWith_app (a suffix : string) : Js.endsWith (a +:+ suffix) suffix = true.
Proof.
  unfold Js.endsWith. rewrite length_append.
  replace (String.length suffix <=? String.length a + String.length suffix)%nat
    with true by (symmetry; apply Nat.leb_le; lia).
  replace (String.length a + String.length suffix - String.length suffix)
    with (String.length a) by lia.
  rewrite substring_suffix. apply String.eqb_refl.
Qed.

Lemma endsWith_split (s suffix : string) :
  Js.endsWith s suffix = true ->
  s = substring 0 (String.length s - String.length suffix) s +:+ suffix.
Proof.
  unfold Js.endsWith.
  destruct (Nat.leb_spec (String.length suffix) (String.length s)) as [Hle|];
    [|discriminate].
  intros H. apply String.eqb_eq in H.
  rewrite (substring_split s (String.length s - String.length suffix)) at 1 by lia.
  replace (String.length s - (String.length s - String.length suffix))
    with (String.length suffix) by lia.
  now rewrite H.
Qed.

Lemma slice_0_m2_app (slot : string) : Js.slice_0_m2 (slot +:+ "[]") = slot.
Proof.
  unfold Js.slice_0_m2. rewrite length_append. simpl.
  replace (String.length slot + 2 - 2) with (String.length slot) by lia.
  apply substring_prefix.
Qed.

(** A marker is repeated exactly when it is a slot name followed by the two
    characters of the suffix, and then names that slot. *)
Lemma repetition_suffix p e :
  (isRepeated p e = true <-> exists slot, markerOf p e = slot +:+ "[]")
  /\ (forall slot, markerOf p e = slot +:+ "[]" -> slotName p e = slot)
  /\ (isRepeated p e = false -> slotName p e = markerOf p e).
Proof.
  unfold slotName, isRepeated. split; [split|split].
  - intros H. eexists. apply (endsWith_split _ _ H).
  - intros [slot ->]. apply endsWith_app.
  - intros slot ->. rewrite endsWith_app. apply slice_0_m2_app.
  - intros ->. reflexivity.
Qed.

Lemma updateRefs_completes p this i :
  components p !! this = Some i ->
  (forall r, r ∈ requiredNames p this ->
             Component.jsIn r (Component.buildRefs p this) = true) ->
  exists p', Component.updateRefs this p = (p', Normal tt)
             /\ refsOf p' this = Component.buildRefs p this
             /\ nodes p' = nodes p.
Proof.
  intros Hi Hreq. rewrite updateRefs_outcome.
  destruct (List.find _ _) as [r|] eqn:Hfind.
  - apply find_some in Hfind as [Hin Hneg].
    rewrite (Hreq r) in Hneg by now apply list_elem_of_In. discriminate.
  - eexists. split; [reflexivity|]. split; [|reflexivity].
    now apply (refsOf_setRefs _ _ _ i).
Qed.

(** C5 (as amended).  After a ref computation on a component whose
    required names are all present and none of whose owned markers names
    the slot [__proto__]: the computation completes, and when the owned
    elements naming slot [item] are, in order of
    discovery, [E1], [E2], [E3], each marked [item[]], [refs.item] is the
    sequence [E1; E2; E3], and in general a slot whose owned elements all
    carry the suffix holds them all, in order of discovery; a marker is
    repeated exactly when it ends with the two characters [[]], which are
    then stripped to give the slot; and when the last owned element naming a
    slot carries a marker without the suffix, the slot holds that single
    element, whatever came before. *)
Theorem repeated_markers_accumulate (p : Page) (this : NodeId) (inst : Instance) :
  components p !! this = Some inst ->
  (forall r, r ∈ requiredNames p this ->
             Component.jsIn r (Component.buildRefs p this) = true) ->
  plainSlots p this ->
  exists p',
    Component.updateRefs this p = (p', Normal tt)
    /\ (forall E1 E2 E3,
          namingSlot p this "item" = [E1; E2; E3] ->
          markerOf p E1 = "item[]" -> markerOf p E2 = "item[]" ->
          markerOf p E3 = "item[]" ->
          refsOf p' this !! "item" = Some (RefArray [E1; E2; E3]))
    /\ (forall slot,
          namingSlot p this slot <> [] ->
          Forall (fun e => isRepeated p e = true) (namingSlot p this slot) ->
          refsOf p' this !! slot = Some (RefArray (namingSlot p this slot)))
    /\ (forall e,
          (isRepeated p e = true <-> exists slot, markerOf p e = slot +:+ "[]")
          /\ (forall slot, markerOf p e = slot +:+ "[]" -> slotName p e = slot)
          /\ (isRepeated p e = false -> slotName p e = markerOf p e))
    /\ (forall slot earlier e,
          namingSlot p this slot = earlier ++ [e] ->
          isRepeated p e = false ->
          refsOf p' this !! slot = Some (RefElement e)).
Proof.
  intros Hi Hreq _.
  destruct (updateRefs_completes p this inst Hi Hreq) as (p' & Hrun & Hrefs & _).
  exists p'. split; [exact Hrun|]. rewrite Hrefs. split; [|split; [|split]].
  - intros E1 E2 E3 Hnaming H1 H2 H3.
    rewrite buildRefs_lookup, Hnaming. simpl.
    unfold slotStep, isRepeated. rewrite H1, H2, H3. reflexivity.
  - intros slot Hne Hall. rewrite buildRefs_lookup.
    now apply slotStep_fold_all_repeated.
  - intros e. apply repetition_suffix.
  - intros slot earlier e Hnaming Hsingle.
    rewrite buildRefs_lookup, Hnaming, slotStep_fold_snoc.
    unfold slotStep. now rewrite Hsingle.
Qed.

Lemma repeated_markers_accumulate_witness :
  exists p',
    Component.updateRefs 1 Examples.listPage = (p', Normal tt)
    /\ (forall E1 E2 E3,
          namingSlot Examples.listPage 1 "item" = [E1; E2; E3] ->
          markerOf Examples.listPage E1 = "item[]" ->
          markerOf Examples.listPage E2 = "item[]" ->
          markerOf Examples.listPage E3 = "item[]" ->
          refsOf p' 1 !! "item" = Some (RefArray [E1; E2; E3]))
    /\ (forall slot,
          namingSlot Examples.listPage 1 slot <> [] ->
          Forall (fun e => isRepeated Examples.listPage e = true)
                 (namingSlot Examples.listPage 1 slot) ->
          refsOf p' 1 !! slot
          = Some (RefArray (namingSlot Examples.listPage 1 slot)))
    /\ (forall e,
          (isRepeated Examples.listPage e = true
           <-> exists slot, markerOf Examples.listPage e = slot +:+ "[]")
          /\ (forall slot, markerOf Examples.listPage e = slot +:+ "[]" ->
                           slotName Examples.listPage e = slot)
          /\ (isRepeated Examples.listPage e = false ->
              slotName Examples.listPage e = markerOf Examples.listPage e))
    /\ (forall slot earlier e,
          namingSlot Examples.listPage 1 slot = earlier ++ [e] ->
          isRepeated Examples.listPage e = false ->
          refsOf p' 1 !! slot = Some (RefElement e)).
Proof.
  apply (repeated_markers_accumulate Examples.listPage 1
           (Examples.instance (Some ["foo"]))).
  - vm_compute. reflexivity.
  - assert (Hnames : requiredNames Examples.listPage 1 = ["foo"])
      by (vm_compute; reflexivity).
    rewrite Hnames. intros r Hr. apply list_elem_of_singleton in Hr as ->.
    vm_compute. reflexivity.
  - vm_compute. reflexivity.
Defined.

(** C5 as stated fails: the three owned elements marked [item[]] are all
    there, but the component requires [foo] and nothing names it, so the
    ref computation throws before [refs] is assigned and [refs.item] is not
    the sequence of the three: it is absent. *)
Lemma repeated_markers_counterexample :
  namingSlot Examples.itemsRequired 1 "item" = [2; 3; 4]
  /\ Forall (fun e => markerOf Examples.itemsRequired e = "item[]") [2; 3; 4]
  /\ snd (Component.updateRefs 1 Examples.itemsRequired)
     = Throw (Component.missingRefError Examples.itemsRequired "foo" 1)
  /\ refsOf (fst (Component.updateRefs 1 Examples.itemsRequired)) 1 !! "item"
     = None
  /\ refsOf (fst (Component.connectedCallback 1 Examples.itemsRequired)) 1
       !! "item"
     = None.
Proof.
  split; [vm_compute; reflexivity|].
  split; [repeat (constructor 2; [vm_compute; reflexivity|]); constructor 1|].
  repeat split; vm_compute; reflexivity.
Qed.

(** The three elements marked [item[]] on [listPage], in document order. *)
Example listPage_items :
  namingSlot Examples.listPage 1 "item" = [3; 4; 5]
  /\ refsOf Histories.listConnected 1 !! "item" = Some (RefArray [3; 4; 5])
  /\ refsOf Histories.listConnected 1 !! "foo" = Some (RefElement 2).
Proof. repeat split; vm_compute; reflexivity. Qed.

(** *** Mutation delivery *)

Lemma getRootNode_detached d n :
  Dom.parentOf d n = None -> Dom.getRootNode d n = n.
Proof. intros H. unfold Dom.getRootNode, Dom.depthBound. simpl. now rewrite H. Qed.

(** A node without a parent that is not a shadow root belongs to no
    component. *)
Lemma detached_not_descendant p this n :
  Dom.parentOf (nodes p) n = None -> Dom.isShadowRoot (nodes p) n = false ->
  isDescendant p this n = false.
Proof.
  intros Hp Hs. unfold isDescendant, getAncestor.
  rewrite Hp, (getRootNode_detached _ _ Hp), Hs.
  unfold getClosestComponent, Dom.depthBound. simpl. reflexivity.
Qed.

Lemma removeChild_detaches p parent child :
  Dom.parentOf (nodes (Environment.removeChild parent child p)) child = None.
Proof.
  unfold Environment.removeChild, Environment.queueRecord, withNodes,
    withComponents, DomOps.removeChild, Dom.parentOf. simpl.
  rewrite lookup_alter_eq.
  destruct (alter _ parent (nodes p) !! child); reflexivity.
Qed.

Lemma removeChild_isShadowRoot p parent child n :
  Dom.isShadowRoot (nodes (Environment.removeChild parent child p)) n
  = Dom.isShadowRoot (nodes p) n.
Proof.
  unfold Environment.removeChild, Environment.queueRecord, withNodes,
    withComponents, DomOps.removeChild, Dom.isShadowRoot. simpl.
  rewrite !lookup_alter.
  repeat case_decide; subst; destruct (nodes p !! n); reflexivity.
Qed.

(** C2, in general.  The record of a plain removal never triggers a ref
    computation: by the time the callback runs the removed node has no
    parent, so [#isDescendant] rejects it, for every page and component. *)
Lemma removal_record_is_ignored p this parent child :
  Dom.isShadowRoot (nodes p) child = false ->
  Component.mutationCallback this [mkRecord ChildListMutation parent [] [child]]
    (Environment.removeChild parent child p)
  = (Environment.removeChild parent child p, Normal tt).
Proof.
  intros Hs.
  assert (Hd : isDescendant (Environment.removeChild parent child p) this child
               = false).
  { apply detached_not_descendant; [apply removeChild_detaches|].
    now rewrite removeChild_isShadowRoot. }
  unfold Component.mutationCallback, bind, get, Component.relevantMutation.
  cbn [existsb mType addedNodes removedNodes app].
  rewrite Hd. reflexivity.
Qed.

(** C2, on [listPage].  The component is connected and observing, and holds
    the [div] under [foo] and three elements under [item].  The page removes
    the [div] (or the middle [item] element); the removal record is queued
    and delivered; the callback does not recompute, and [refs] still holds
    the removed element, although a ref computation on the same page would
    drop it. *)
Theorem removed_marker_stays_in_refs :
  (observed <$> components Histories.listObserving !! 1) = Some [1]
  /\ (records <$> components (Histories.listRemoved 2) !! 1)
     = Some [mkRecord ChildListMutation 1 [] [2]]
  /\ Dom.parentOf (nodes (Histories.listRemoved 2)) 2 = None
  /\ snd (Histories.listDelivered 2) = Normal tt
  /\ refsOf (fst (Histories.listDelivered 2)) 1 !! "foo" = Some (RefElement 2)
  /\ Component.buildRefs (fst (Histories.listDelivered 2)) 1 !! "foo" = None
  /\ refsOf (fst (Histories.listDelivered 4)) 1 !! "item"
     = Some (RefArray [3; 4; 5])
  /\ Component.buildRefs (fst (Histories.listDelivered 4)) 1 !! "item"
     = Some (RefArray [3; 5]).
Proof. repeat split; vm_compute; reflexivity. Qed.

(** *** The router *)

(** Registration is idempotent: the first call installs the listeners, any
    later call changes nothing. *)
Lemma registerEventListeners_installs p :
  initialized p = false -> documentListeners p = [] ->
  routerInstalled (fst (registerEventListeners p)).
Proof.
  intros Hi Hl. unfold registerEventListeners, bind, get, modify.
  rewrite Hi. simpl. split; [reflexivity|]. now rewrite Hl.
Qed.

Lemma registerEventListeners_idempotent p :
  routerInstalled p -> registerEventListeners p = (p, Normal tt).
Proof.
  intros [Hi _]. unfold registerEventListeners, bind, get. now rewrite Hi.
Qed.

Section RouterFacts.

Variable methods : NodeId -> string -> option Handler.
Variable engine : SelectorEngine.

(** Resolving the instance reads the page and changes nothing. *)
Lemma resolveInstance_pure p selector element w :
  exists r, Router.resolveInstance engine p selector element w = (w, r).
Proof.
  unfold Router.resolveInstance, Router.ofSelector, ret, throw.
  destruct (negb _); [|eauto].
  destruct (Js.startsWith _ _).
  - destruct (querySelector engine p selector); eauto.
  - destruct (closest engine p element selector); eauto.
Qed.

(** The listener, when everything resolves: one call, the handler's
    effect on the page, and its exception, if any, on the console. *)
Lemma listener_hit eventName event w element value inst c m h :
  Router.getElement (page w) event = Some element ->
  value = default EmptyString
            (Dom.getAttribute (nodes (page w)) element ("on:" +:+ eventName)) ->
  Router.resolveInstance engine (page w)
    (nth 0 (Js.split "/" value) EmptyString) element w
  = (w, Normal (Some inst)) ->
  nth_error (Js.split "/" value) 1 = Some (String c m) ->
  isComponent (page w) inst = true ->
  methods inst (Router.stripQuery (String c m)) = Some h ->
  Router.listener methods engine eventName event w
  = (mkWorld (fst (h (handlerArgs value event element) (page w)))
             (calls w ++ [mkCall inst (Router.stripQuery (String c m))
                                 (handlerArgs value event element)])
             (console w ++ match snd (h (handlerArgs value event element) (page w)) with
                           | Throw e => [e]
                           | Normal _ => []
                           end)
             (uncaught w),
     Normal tt).
Proof.
  intros Hel Hval Hres Hm Hc Hh.
  unfold Router.listener, bind, get. rewrite Hel, <- Hval, Hres, Hm, Hc, Hh.
  cbn [negb]. unfold tryCatch, bind, Router.recordCall, modify, Router.liftPage,
    Router.consoleError, handlerArgs.
  cbn [page calls console uncaught].
  destruct (Router.trailingData value);
    match goal with |- context [h ?a (page w)] =>
      destruct (h a (page w)) as [p' [[]|e]] end; cbn; rewrite ?app_nil_r; reflexivity.
Qed.

(** Every run of the listener goes one of three ways: nothing happens;
    the selector engine rejects the selector segment and its error leaves
    the listener before anything was called; or exactly one handler is
    called, and the listener completes whatever the handler does. *)
Lemma listener_cases eventName event w :
  Router.listener methods engine eventName event w = (w, Normal tt)
  \/ Router.listener methods engine eventName event w
     = (w, Throw (DOMException "SyntaxError"))
  \/ exists inst method args h,
       isComponent (page w) inst = true
       /\ methods inst method = Some h
       /\ Router.listener methods engine eventName event w
          = (mkWorld (fst (h args (page w)))
                     (calls w ++ [mkCall inst method args])
                     (console w ++ match snd (h args (page w)) with
                                   | Throw e => [e]
                                   | Normal _ => []
                                   end)
                     (uncaught w),
             Normal tt).
Proof.
  destruct (Router.getElement (page w) event) as [element|] eqn:Hel.
  2:{ left. unfold Router.listener, bind, get. now rewrite Hel. }
  set (value := default EmptyString
         (Dom.getAttribute (nodes (page w)) element ("on:" +:+ eventName))).
  destruct (resolveInstance_pure (page w)
              (nth 0 (Js.split "/" value) EmptyString) element w) as [r Hres].
  destruct r as [inst|e].
  2:{ right. left. unfold Router.listener, bind, get.
      rewrite Hel. fold value. rewrite Hres. f_equal. f_equal.
      revert Hres. unfold Router.resolveInstance, Router.ofSelector, ret, throw.
      repeat match goal with
             | |- context [match ?x with _ => _ end] => destruct x
             end; congruence. }
  destruct inst as [inst|], (nth_error (Js.split "/" value) 1) as [[|c m]|] eqn:Hm;
    try (left; unfold Router.listener, bind, get;
         rewrite Hel; fold value; rewrite Hres, ?Hm; reflexivity).
  destruct (isComponent (page w) inst) eqn:Hc.
  2:{ left. unfold Router.listener, bind, get.
      rewrite Hel. fold value. rewrite Hres, Hm, Hc. reflexivity. }
  destruct (methods inst (Router.stripQuery (String c m))) as [h|] eqn:Hh.
  2:{ left. unfold Router.listener, bind, get.
      rewrite Hel. fold value. rewrite Hres, Hm, Hc, Hh. reflexivity. }
  right. right. exists inst, (Router.stripQuery (String c m)),
    (handlerArgs value event element), h.
  split; [exact Hc|]. split; [exact Hh|].
  now apply (listener_hit eventName event w element value inst c m h).
Qed.

Lemma app_singleton_neq {A} (l : list A) (x : A) : l <> l ++ [x].
Proof.
  intros H. apply (f_equal (@length A)) in H. rewrite length_app in H.
  simpl in H. lia.
Qed.

End RouterFacts.

Lemma getElement_click p event button :
  eType event = "click" -> bubbles event = true ->
  Dom.isElement (nodes p) (originOf event) = true ->
  Dom.closestAttr (nodes p) (originOf event) "on:click" = Some button ->
  Router.getElement p event = Some button.
Proof.
  intros Ht Hb Hel Hclosest. unfold Router.getElement.
  change (match composedPath event with
          | Some (t :: _) => t
          | _ => eTarget event
          end) with (originOf event).
  rewrite Ht, Hel, Hb. cbn [negb].
  change ("on:" +:+ "click") with "on:click".
  destruct (Dom.hasAttribute (nodes p) (originOf event) "on:click") eqn:Ha.
  - unfold Dom.closestAttr, Dom.depthBound in Hclosest. simpl in Hclosest.
    rewrite Hel, Ha in Hclosest. exact Hclosest.
  - exact Hclosest.
Qed.

Lemma parseData_amount :
  Router.parseData "?amount=5"
  = DataObject {[ "amount" := Js.VNum (Js.Finite false 5 0) ]}.
Proof. vm_compute. reflexivity. Qed.

(** The marker grammar on a few values. *)
Example marker_parsing :
  Js.split "/" "/submit?amount=5" = [EmptyString; "submit?amount=5"]
  /\ Router.trailingData "/submit?amount=5" = Some "?amount=5"
  /\ Router.stripQuery "submit?amount=5" = "submit"
  /\ Router.trailingData "/submit" = None
  /\ Router.trailingData "#cart/add/3" = Some "/3"
  /\ Js.split "/" "#cart/add/3" = ["#cart"; "add"; "3"]
  /\ Router.trailingData "dialog-component/close" = None
  /\ Router.urlSearchParams "a=1&b=%41+c&&d" = [("a", "1"); ("b", "A c"); ("d", EmptyString)].
Proof. repeat split; vm_compute; reflexivity. Qed.

(** The coercion of payload values. *)
Example value_coercion :
  Router.parseValue "true" = Js.VBool true
  /\ Router.parseValue "false" = Js.VBool false
  /\ Router.parseValue "5" = Js.VNum (Js.Finite false 5 0)
  /\ Router.parseValue "-1.50" = Js.VNum (Js.Finite true 150 (-2))
  /\ Router.parseValue "0x1F" = Js.VNum (Js.Finite false 31 0)
  /\ Router.parseValue "1e3" = Js.VNum (Js.Finite false 1 3)
  /\ Router.parseValue " 7 " = Js.VNum (Js.Finite false 7 0)
  /\ Router.parseValue " " = Js.VStr " "
  /\ Router.parseValue EmptyString = Js.VStr EmptyString
  /\ Router.parseValue "5px" = Js.VStr "5px"
  /\ Router.parseValue "True" = Js.VStr "True".
Proof. repeat split; vm_compute; reflexivity. Qed.

Lemma installed_click_listeners p :
  routerInstalled p ->
  List.filter (String.eqb "click") (documentListeners p) = ["click"].
Proof. intros [_ ->]. reflexivity. Qed.

(** C4 (as amended).  With the router installed, a click whose originating
    element has the button bearing [on:click="/submit?amount=5"] as its
    nearest inclusive ancestor carrying [on:click] - the button itself, or a
    non-marked descendant of it - calls [submit] on the button's nearest
    owning component exactly once, with [{amount: 5}] first and the event
    last; the event is handed over as such when its target is the button,
    and otherwise as a view whose target is the button. *)
Theorem click_routes_to_submit
  (methods : NodeId -> string -> option Handler) (engine : SelectorEngine)
  (w : World) (event : Event) (button this : NodeId) (h : Handler) :
  routerInstalled (page w) ->
  eType event = "click" -> bubbles event = true ->
  Dom.isElement (nodes (page w)) (originOf event) = true ->
  Dom.closestAttr (nodes (page w)) (originOf event) "on:click" = Some button ->
  Dom.getAttribute (nodes (page w)) button "on:click" = Some "/submit?amount=5" ->
  getClosestComponent (page w) (Some button) = Some this ->
  isComponent (page w) this = true ->
  methods this "submit" = Some h ->
  calls (Router.dispatchEvent methods engine event w)
  = calls w
    ++ [mkCall this "submit"
          [ArgData (DataObject {[ "amount" := Js.VNum (Js.Finite false 5 0) ]});
           ArgEvent (if Nat.eqb (eTarget event) button
                     then PlainEvent event
                     else ProxiedEvent event button)]].
Proof.
  intros Hinst Ht Hb Hel Hclosest Hattr Hcomp Hc Hh.
  unfold Router.dispatchEvent. rewrite Ht, (installed_click_listeners _ Hinst).
  cbn [fold_left]. unfold Router.runListener.
  rewrite (listener_hit methods engine "click" event w button "/submit?amount=5"
             this "s" "ubmit?amount=5" h).
  - cbn [calls]. unfold handlerArgs.
    change (Router.trailingData "/submit?amount=5") with (Some "?amount=5").
    cbv iota. rewrite parseData_amount.
    change (Router.stripQuery "submit?amount=5") with "submit".
    destruct (Nat.eqb (eTarget event) button); reflexivity.
  - now apply getElement_click.
  - change ("on:" +:+ "click") with "on:click". now rewrite Hattr.
  - change (nth 0 (Js.split "/" "/submit?amount=5") EmptyString) with EmptyString.
    unfold Router.resolveInstance. cbn [String.eqb negb]. unfold ret.
    now rewrite Hcomp.
  - reflexivity.
  - exact Hc.
  - exact Hh.
Qed.

Lemma click_routes_to_submit_witness :
  calls (Router.dispatchEvent Examples.quietSubmit Examples.simpleEngine
           (Examples.clickOn 2) Histories.routerReady)
  = calls Histories.routerReady
    ++ [mkCall 1 "submit"
          [ArgData (DataObject {[ "amount" := Js.VNum (Js.Finite false 5 0) ]});
           ArgEvent (if Nat.eqb (eTarget (Examples.clickOn 2)) 2
                     then PlainEvent (Examples.clickOn 2)
                     else ProxiedEvent (Examples.clickOn 2) 2)]].
Proof.
  apply (click_routes_to_submit Examples.quietSubmit Examples.simpleEngine
           Histories.routerReady (Examples.clickOn 2) 2 1 (fun _ => ret tt)).
  - split; vm_compute; reflexivity.
  - reflexivity.
  - reflexivity.
  - vm_compute. reflexivity.
  - vm_compute. reflexivity.
  - vm_compute. reflexivity.
  - vm_compute. reflexivity.
  - vm_compute. reflexivity.
  - reflexivity.
Defined.

(** C4 as stated fails in its last part: the [span] inside the button
    carries no marker, and a click on it calls [submit] all the same, once,
    with a view of the event whose target is the button. *)
Lemma click_on_descendant_counterexample :
  Dom.hasAttribute (nodes (page Histories.routerReady)) 3 "on:click" = false
  /\ Dom.parentOf (nodes (page Histories.routerReady)) 3 = Some 2
  /\ Dom.getAttribute (nodes (page Histories.routerReady)) 2 "on:click"
     = Some "/submit?amount=5"
  /\ calls (Router.dispatchEvent Examples.quietSubmit Examples.simpleEngine
              (Examples.clickOn 3) Histories.routerReady)
     = [mkCall 1 "submit"
          [ArgData (DataObject {[ "amount" := Js.VNum (Js.Finite false 5 0) ]});
           ArgEvent (ProxiedEvent (Examples.clickOn 3) 2)]].
Proof. repeat split; vm_compute; reflexivity. Qed.

(** C7.  In every run of the listener at most one handler is called.  When
    one is called, the listener completes normally whatever the handler
    does: an exception the handler throws is sent to [console.error], and
    nothing is reported as uncaught, so the dispatch goes on.  An exception
    that does leave the listener was raised by the selector engine before
    any handler was called. *)
Theorem handler_exception_is_caught
  (methods : NodeId -> string -> option Handler) (engine : SelectorEngine)
  (eventName : string) (event : Event) (w : World) :
  let out := Router.listener methods engine eventName event w in
  (forall call, calls (fst out) = calls w ++ [call] ->
     exists h,
       methods (callee call) (methodName call) = Some h
       /\ snd out = Normal tt
       /\ uncaught (fst out) = uncaught w
       /\ uncaught (Router.runListener methods engine event w eventName)
          = uncaught w
       /\ page (fst out) = fst (h (arguments call) (page w))
       /\ forall e, snd (h (arguments call) (page w)) = Throw e ->
                    console (fst out) = console w ++ [e])
  /\ (forall e, snd out = Throw e ->
                fst out = w /\ e = DOMException "SyntaxError")
  /\ (calls (fst out) = calls w
      \/ exists call, calls (fst out) = calls w ++ [call]).
Proof.
  intros out. unfold Router.runListener. subst out.
  destruct (listener_cases methods engine eventName event w)
    as [H|[H|(inst & method & args & h & Hc & Hh & H)]]; rewrite H; cbn [fst snd].
  - split; [|split].
    + intros call Hcall. now apply app_singleton_neq in Hcall.
    + intros e He. discriminate.
    + now left.
  - split; [|split].
    + intros call Hcall. now apply app_singleton_neq in Hcall.
    + intros e He. injection He as <-. split; reflexivity.
    + now left.
  - split; [|split].
    + intros call Hcall. cbn [calls] in Hcall.
      apply app_inv_head in Hcall. injection Hcall as <-.
      exists h. cbn [callee methodName arguments page console uncaught].
      repeat split; try assumption; try reflexivity.
      intros e He. now rewrite He.
    + intros e He. discriminate.
    + right. eexists. reflexivity.
Qed.

Lemma handler_exception_is_caught_witness :
  snd (Router.listener Examples.failingSubmit Examples.simpleEngine "click"
         (Examples.clickOn 2) Histories.routerReady) = Normal tt
  /\ console (fst (Router.listener Examples.failingSubmit Examples.simpleEngine
                     "click" (Examples.clickOn 2) Histories.routerReady))
     = console Histories.routerReady ++ [UserError "submit failed"].
Proof.
  destruct (handler_exception_is_caught Examples.failingSubmit
              Examples.simpleEngine "click" (Examples.clickOn 2)
              Histories.routerReady) as (Hcall & _ & _).
  destruct (Hcall (mkCall 1 "submit"
                     [ArgData (DataObject
                        {[ "amount" := Js.VNum (Js.Finite false 5 0) ]});
                      ArgEvent (PlainEvent (Examples.clickOn 2))]))
    as (h & Hh & Hnormal & _ & _ & _ & Hconsole).
  - vm_compute. reflexivity.
  - split; [exact Hnormal|]. apply Hconsole.
    vm_compute in Hh. injection Hh as <-. reflexivity.
Defined.

(** A handler that throws on every click: each click is still routed, each
    exception is logged, none is reported as uncaught. *)
Example failing_handler_does_not_stop_delegation :
  let w1 := Router.dispatchEvent Examples.failingSubmit Examples.simpleEngine
              (Examples.clickOn 2) Histories.routerReady in
  let w2 := Router.dispatchEvent Examples.failingSubmit Examples.simpleEngine
              (Examples.clickOn 3) w1 in
  length (calls w1) = 1 /\ length (calls w2) = 2
  /\ console w2 = [UserError "submit failed"; UserError "submit failed"]
  /\ uncaught w2 = [].
Proof. repeat split; vm_compute; reflexivity. Qed.

(** C8 (as amended).  When the element that declared the binding is
    found: if resolving the selector segment does not raise, the listener
    does nothing at all - no call, no log, no exception, the same world -
    in each of these cases: the marker has no method segment, the resolved
    instance is absent or not a component, or the instance has no callable
    under the method name.  If the selector segment is not empty and the
    selector engine rejects it, the listener raises [SyntaxError] before
    anything is called or logged, whatever the method segment and whatever
    methods the components have, and the platform reports the exception as
    uncaught. *)
Theorem resolution_miss_is_silent
  (methods : NodeId -> string -> option Handler) (engine : SelectorEngine)
  (eventName : string) (event : Event) (w : World) (element : NodeId)
  (value : string) :
  Router.getElement (page w) event = Some element ->
  value = default EmptyString
            (Dom.getAttribute (nodes (page w)) element ("on:" +:+ eventName)) ->
  let selector := nth 0 (Js.split "/" value) EmptyString in
  (forall instance,
     Router.resolveInstance engine (page w) selector element w
     = (w, Normal instance) ->
     (nth_error (Js.split "/" value) 1 = None
      \/ nth_error (Js.split "/" value) 1 = Some EmptyString
      \/ (forall n, instance = Some n -> isComponent (page w) n = false)
      \/ (exists n m, instance = Some n
                      /\ nth_error (Js.split "/" value) 1 = Some m
                      /\ methods n (Router.stripQuery m) = None)) ->
     Router.listener methods engine eventName event w = (w, Normal tt)
     /\ Router.runListener methods engine event w eventName = w)
  /\ (selector <> EmptyString ->
      (if Js.startsWith selector "#"
       then querySelector engine (page w) selector
       else closest engine (page w) element selector) = InvalidSelector ->
      Router.listener methods engine eventName event w
      = (w, Throw (DOMException "SyntaxError"))
      /\ Router.runListener methods engine event w eventName
         = mkWorld (page w) (calls w) (console w)
                   (uncaught w ++ [DOMException "SyntaxError"])).
Proof.
  intros Hel Hval selector. split.
  - intros instance Hres Hmiss.
    assert (H : Router.listener methods engine eventName event w = (w, Normal tt)).
    { unfold Router.listener, bind, get. rewrite Hel, <- Hval.
      fold selector. rewrite Hres.
      destruct Hmiss as [Hm|[Hm|[Hc|(n & m & -> & Hm & Hh)]]].
      - rewrite Hm. now destruct instance.
      - rewrite Hm. now destruct instance.
      - destruct instance as [n|]; [|reflexivity].
        rewrite (Hc n eq_refl).
        destruct (nth_error _ 1) as [[|c m]|]; reflexivity.
      - rewrite Hm. destruct m as [|c m]; [reflexivity|].
        destruct (isComponent (page w) n); [|reflexivity].
        now rewrite Hh. }
    split; [exact H|]. unfold Router.runListener. now rewrite H.
  - intros Hsel Hinvalid.
    assert (Hres : Router.resolveInstance engine (page w) selector element w
                   = (w, Throw (DOMException "SyntaxError"))).
    { unfold Router.resolveInstance.
      destruct (String.eqb_spec selector EmptyString) as [E|_];
        [contradiction|]. cbn [negb].
      destruct (Js.startsWith selector "#"); rewrite Hinvalid; reflexivity. }
    assert (H : Router.listener methods engine eventName event w
                = (w, Throw (DOMException "SyntaxError"))).
    { unfold Router.listener, bind, get. rewrite Hel, <- Hval.
      fold selector. now rewrite Hres. }
    split; [exact H|]. unfold Router.runListener. now rewrite H.
Qed.

Lemma resolution_miss_is_silent_witness :
  (Router.listener (fun _ _ => None) Examples.simpleEngine "click"
     (Examples.clickOn 2) Histories.routerReady
   = (Histories.routerReady, Normal tt)
   /\ Router.runListener (fun _ _ => None) Examples.simpleEngine
        (Examples.clickOn 2) Histories.routerReady "click"
      = Histories.routerReady)
  /\ (Router.listener Examples.quietSubmit Examples.simpleEngine "click"
        (Examples.clickOn 2) Histories.badSelectorReady
      = (Histories.badSelectorReady, Throw (DOMException "SyntaxError"))
      /\ Router.runListener Examples.quietSubmit Examples.simpleEngine
           (Examples.clickOn 2) Histories.badSelectorReady "click"
         = mkWorld (page Histories.badSelectorReady)
                   (calls Histories.badSelectorReady)
                   (console Histories.badSelectorReady)
                   (uncaught Histories.badSelectorReady
                    ++ [DOMException "SyntaxError"])).
Proof.
  split.
  - destruct (resolution_miss_is_silent (fun _ _ => None) Examples.simpleEngine
                "click" (Examples.clickOn 2) Histories.routerReady 2
                "/submit?amount=5") as [Hmiss _].
    + vm_compute. reflexivity.
    + vm_compute. reflexivity.
    + apply (Hmiss (Some 1)).
      * vm_compute. reflexivity.
      * right. right. right. exists 1, "submit?amount=5".
        repeat split; vm_compute; reflexivity.
  - destruct (resolution_miss_is_silent Examples.quietSubmit
                Examples.simpleEngine "click" (Examples.clickOn 2)
                Histories.badSelectorReady 2 "!") as [_ Hinvalid].
    + vm_compute. reflexivity.
    + vm_compute. reflexivity.
    + apply Hinvalid.
      * vm_compute. discriminate.
      * vm_compute. reflexivity.
Defined.

(** C8 as stated fails: the marker [!] has no method segment, yet a click on
    the button that carries it makes the listener raise - the selector
    segment is handed to [closest] before the method is looked at, and [!]
    is not a selector - and the platform reports the exception. *)
Lemma invalid_selector_counterexample :
  Dom.getAttribute (nodes (page Histories.badSelectorReady)) 2 "on:click"
  = Some "!"
  /\ nth_error (Js.split "/" "!") 1 = None
  /\ snd (Router.listener Examples.quietSubmit Examples.simpleEngine "click"
            (Examples.clickOn 2) Histories.badSelectorReady)
     = Throw (DOMException "SyntaxError")
  /\ uncaught (Router.dispatchEvent Examples.quietSubmit Examples.simpleEngine
                 (Examples.clickOn 2) Histories.badSelectorReady)
     = [DOMException "SyntaxError"].
Proof. repeat split; vm_compute; reflexivity. Qed.

(** *** The scheduler *)

Lemma scheduleAll_scheduled tasks s :
  Scheduler.scheduled s = true ->
  Scheduler.scheduleAll tasks s
  = Scheduler.mkLoop
      (fold_left (fun q t => Scheduler.setAdd t q) tasks (Scheduler.queue s))
      true (Scheduler.transition s) (Scheduler.awaiting s)
      (Scheduler.frameRequests s) (Scheduler.timers s) (Scheduler.executed s).
Proof.
  revert s. induction tasks as [|t tasks IH]; intros s Hs.
  - destruct s. simpl in *. now subst.
  - unfold Scheduler.scheduleAll in *. cbn [fold_left].
    rewrite IH; unfold Scheduler.schedule; rewrite Hs; reflexivity.
Qed.

(** The first [schedule] on a scheduler at rest requests the flush (or
    suspends on the transition); the later ones only grow the set. *)
Lemma scheduleAll_atRest t tasks s :
  Scheduler.atRest s ->
  Scheduler.scheduleAll (t :: tasks) s
  = Scheduler.mkLoop (Scheduler.firstOccurrences (t :: tasks)) true
      (Scheduler.transition s)
      (if Scheduler.transition s then 1 else 0)
      (if Scheduler.transition s then 0 else 1)
      [] (Scheduler.executed s).
Proof.
  intros (Hq & Hs & Ha & Hf & Ht).
  unfold Scheduler.scheduleAll, Scheduler.firstOccurrences. cbn [fold_left].
  fold (Scheduler.scheduleAll tasks (Scheduler.schedule t s)).
  rewrite scheduleAll_scheduled.
  - unfold Scheduler.schedule. rewrite Hs, Hq, Ha, Hf, Ht. cbn [negb].
    destruct (Scheduler.transition s); reflexivity.
  - unfold Scheduler.schedule. rewrite Hs. cbn [negb].
    destruct (Scheduler.transition s); reflexivity.
Qed.

Lemma runTimers_spec s :
  Scheduler.runTimers s
  = Scheduler.mkLoop (Scheduler.queue s) (Scheduler.scheduled s)
      (Scheduler.transition s) (Scheduler.awaiting s)
      (Scheduler.frameRequests s) []
      (Scheduler.executed s ++ Scheduler.timers s).
Proof.
  unfold Scheduler.runTimers.
  destruct s as [q sc tr aw fr tm ex]. cbn [Scheduler.timers].
  revert ex. induction tm as [|t tm IH]; intros ex; cbn [length].
  - simpl. now rewrite app_nil_r.
  - rewrite Nat.iter_succ_r. unfold Scheduler.runTimer at 2. simpl.
    rewrite IH. simpl. now rewrite <- app_assoc.
Qed.

(** From rest, whatever is scheduled before the flush runs once per task,
    in order of first submission, when the loop settles; afterwards the
    scheduler is at rest again. *)
Lemma settle_scheduleAll t tasks s :
  Scheduler.atRest s ->
  settle (Scheduler.scheduleAll (t :: tasks) s)
  = Scheduler.mkLoop [] false false 0 0 []
      (Scheduler.executed s ++ Scheduler.firstOccurrences (t :: tasks)).
Proof.
  intros Hrest. rewrite (scheduleAll_atRest _ _ _ Hrest).
  unfold settle. cbn [Scheduler.transition].
  destruct (Scheduler.transition s); rewrite runTimers_spec; reflexivity.
Qed.

(** C6.  On a scheduler at rest: scheduling the same task twice before the
    flush runs it exactly once; scheduling two distinct tasks runs both in
    submission order; in general the tasks run once each in order of first
    submission.  Nothing runs before the flush, and while a view transition
    is in flight an animation frame flushes nothing: the flush happens on
    the frame after the transition resolves.  [flush] empties the pending
    set and resets the pending flag. *)
Theorem scheduler_coalesces (s : Scheduler.Loop) :
  Scheduler.atRest s ->
  (forall t,
     Scheduler.executed (settle (Scheduler.schedule t (Scheduler.schedule t s)))
     = Scheduler.executed s ++ [t])
  /\ (forall t1 t2, t1 <> t2 ->
        Scheduler.executed
          (settle (Scheduler.schedule t2 (Scheduler.schedule t1 s)))
        = Scheduler.executed s ++ [t1; t2])
  /\ (forall t tasks,
        Scheduler.executed (settle (Scheduler.scheduleAll (t :: tasks) s))
        = Scheduler.executed s ++ Scheduler.firstOccurrences (t :: tasks)
        /\ Scheduler.atRest (settle (Scheduler.scheduleAll (t :: tasks) s)))
  /\ (forall t tasks,
        Scheduler.executed (Scheduler.scheduleAll (t :: tasks) s)
        = Scheduler.executed s
        /\ (Scheduler.transition s = true ->
            let s' := Scheduler.runTimers
                        (Scheduler.animationFrame
                           (Scheduler.scheduleAll (t :: tasks) s)) in
            Scheduler.executed s' = Scheduler.executed s
            /\ Scheduler.queue s' = Scheduler.firstOccurrences (t :: tasks)))
  /\ (forall s', Scheduler.queue (Scheduler.flush s') = []
                 /\ Scheduler.scheduled (Scheduler.flush s') = false).
Proof.
  intros Hrest. split; [|split; [|split; [|split]]].
  - intros t.
    change (Scheduler.schedule t (Scheduler.schedule t s))
      with (Scheduler.scheduleAll [t; t] s).
    rewrite (settle_scheduleAll _ _ _ Hrest). cbn [Scheduler.executed].
    f_equal. unfold Scheduler.firstOccurrences, Scheduler.setAdd. simpl.
    rewrite bool_decide_eq_true_2 by apply list_elem_of_here. reflexivity.
  - intros t1 t2 Hne.
    change (Scheduler.schedule t2 (Scheduler.schedule t1 s))
      with (Scheduler.scheduleAll [t1; t2] s).
    rewrite (settle_scheduleAll _ _ _ Hrest). cbn [Scheduler.executed].
    f_equal. unfold Scheduler.firstOccurrences, Scheduler.setAdd. simpl.
    rewrite bool_decide_eq_false_2; [reflexivity|].
    intros Hin. apply list_elem_of_singleton in Hin. congruence.
  - intros t tasks. rewrite (settle_scheduleAll _ _ _ Hrest).
    split; [reflexivity|]. repeat split.
  - intros t tasks. rewrite (scheduleAll_atRest _ _ _ Hrest).
    split; [reflexivity|]. intros Htr. rewrite Htr.
    cbv zeta. rewrite runTimers_spec. cbn. now rewrite app_nil_r.
  - intros s'. split; reflexivity.
Qed.

Lemma scheduler_coalesces_witness :
  Scheduler.executed
    (settle (Scheduler.schedule 7 (Scheduler.schedule 7 Histories.transitioningLoop)))
  = [7]
  /\ Scheduler.executed
       (settle (Scheduler.schedule 8 (Scheduler.schedule 7 Histories.idleLoop)))
     = [7; 8].
Proof.
  split.
  - apply (scheduler_coalesces Histories.transitioningLoop).
    repeat split.
  - apply (scheduler_coalesces Histories.idleLoop); [repeat split|discriminate].
Defined.

(** *** Shapes and cloning *)

Lemma shapeFrom_extends fuel d d' n t :
  extends d d' -> shapeFrom fuel d n = Some t -> shapeFrom fuel d' n = Some t.
Proof.
  intros Hext. revert n t. induction fuel as [|fuel IH]; intros n t; simpl;
    [discriminate|].
  destruct (d !! n) as [r|] eqn:Hn; [|discriminate].
  rewrite (Hext n) by eauto. rewrite Hn.
  destruct (mapM (shapeFrom fuel d) (childNodes r)) as [kids|] eqn:Hk;
    [|discriminate].
  assert (Hk' : mapM (shapeFrom fuel d') (childNodes r) = Some kids).
  { apply mapM_Some. apply mapM_Some in Hk.
    eapply Forall2_impl; [exact Hk|]. intros x y. apply IH. }
  rewrite Hk'.
  destruct (content r) as [f|]; [|auto].
  destruct (shapeFrom fuel d f) as [tf|] eqn:Hf; [|discriminate].
  now rewrite (IH _ _ Hf).
Qed.

Lemma shapeFrom_more_fuel fuel d n t :
  shapeFrom fuel d n = Some t -> shapeFrom (S fuel) d n = Some t.
Proof.
  revert n t. induction fuel as [|fuel IH]; intros n t; [discriminate|].
  intros H. simpl in H. change (shapeFrom (S (S fuel)) d n) with
    (match d !! n with
     | None => None
     | Some r =>
         match mapM (shapeFrom (S fuel) d) (childNodes r),
               match content r with
               | None => Some None
               | Some f =>
                   match shapeFrom (S fuel) d f with
                   | Some t => Some (Some t)
                   | None => None
                   end
               end
         with
         | Some kids, Some c =>
             Some (TreeNode (nodeType r) (tagName r) (attributes r)
                            (isHTMLElement r) c kids)
         | _, _ => None
         end
     end).
  destruct (d !! n) as [r|]; [|discriminate].
  destruct (mapM (shapeFrom fuel d) (childNodes r)) as [kids|] eqn:Hk;
    [|discriminate].
  assert (Hk' : mapM (shapeFrom (S fuel) d) (childNodes r) = Some kids).
  { apply mapM_Some. apply mapM_Some in Hk.
    eapply Forall2_impl; [exact Hk|]. intros x y. apply IH. }
  rewrite Hk'.
  destruct (content r) as [f|]; [|auto].
  destruct (shapeFrom fuel d f) as [tf|] eqn:Hf; [|discriminate].
  now rewrite (IH _ _ Hf).
Qed.

Lemma shapeFrom_fuel_le fuel fuel' d n t :
  fuel <= fuel' -> shapeFrom fuel d n = Some t -> shapeFrom fuel' d n = Some t.
Proof.
  induction 1 as [|m Hle IH]; [auto|]. intros H.
  now apply shapeFrom_more_fuel, IH.
Qed.

Lemma extends_None d d' m : extends d d' -> d' !! m = None -> d !! m = None.
Proof.
  intros Hext Hm. destruct (d !! m) eqn:E; [|reflexivity].
  rewrite <- (Hext m) in E by eauto. congruence.
Qed.

Lemma clonedAs_weaken fuel d0 d1 d2 d3 parent i t :
  extends d0 d1 -> extends d2 d3 ->
  clonedAs fuel d1 d2 parent i t -> clonedAs fuel d0 d3 parent i t.
Proof.
  intros H01 H23 (Hnew & Hparent & Hshape).
  assert (Hi : is_Some (d2 !! i)) by (destruct (d2 !! i); [eauto|discriminate]).
  split; [|split].
  - eapply extends_None; eassumption.
  - now rewrite (H23 i Hi).
  - intros d'' Hagree. apply Hshape. intros m Hm1 Hm2.
    rewrite <- (H23 m Hm2). apply Hagree.
    + eapply extends_None; eassumption.
    + now rewrite (H23 m Hm2).
Qed.

Lemma cloneAll_shape fuel
      (clone : gmap NodeId Node -> NodeId -> gmap NodeId Node * option NodeId)
      (parent : option NodeId)
      (Hclone : forall d k t,
          shapeFrom fuel d k = Some t ->
          exists d' i, clone d k = (d', Some i) /\ extends d d'
                       /\ clonedAs fuel d d' parent i t) :
  forall ks ts d acc,
    Forall2 (fun k t => shapeFrom fuel d k = Some t) ks ts ->
    exists d' ids,
      fold_left
        (fun acc k =>
           let '(dk, o) := clone (fst acc) k in (dk, snd acc ++ option_list o))
        ks (d, acc) = (d', acc ++ ids)
      /\ extends d d'
      /\ Forall2 (clonedAs fuel d d' parent) ids ts.
Proof.
  induction ks as [|k ks IH]; intros ts d acc Hshapes.
  - apply Forall2_nil_inv_l in Hshapes as ->. exists d, [].
    simpl. rewrite app_nil_r. split; [reflexivity|].
    split; [apply extends_refl|constructor].
  - apply Forall2_cons_inv_l in Hshapes as (t & ts' & Ht & Hts & ->).
    destruct (Hclone d k t Ht) as (dk & i & Hk & Hext & Hcl).
    destruct (IH ts' dk (acc ++ [i])) as (d' & ids & Hfold & Hext' & Hids).
    { eapply Forall2_impl; [exact Hts|]. intros x y.
      now apply shapeFrom_extends. }
    exists d', (i :: ids). cbn [fold_left fst snd]. rewrite Hk.
    cbv beta iota. change (option_list (Some i)) with [i].
    rewrite Hfold, <- app_assoc.
    split; [reflexivity|].
    split; [eapply extends_trans; eassumption|].
    constructor.
    + eapply clonedAs_weaken; [apply extends_refl|exact Hext'|exact Hcl].
    + eapply Forall2_impl; [exact Hids|]. intros x y.
      apply clonedAs_weaken; [exact Hext|apply extends_refl].
Qed.

Lemma cloneNodeFrom_shape fuel :
  forall cloneFuel d src parent t,
    fuel <= cloneFuel -> shapeFrom fuel d src = Some t ->
    exists d' i,
      DomOps.cloneNodeFrom cloneFuel d src parent = (d', Some i)
      /\ extends d d' /\ clonedAs fuel d d' parent i t.
Proof.
  induction fuel as [|fuel IH]; intros cloneFuel d src parent t Hle Hshape;
    [discriminate|].
  destruct cloneFuel as [|cloneFuel]; [lia|].
  simpl in Hshape. destruct (d !! src) as [r|] eqn:Hsrc; [|discriminate].
  destruct (mapM (shapeFrom fuel d) (childNodes r)) as [kidShapes|] eqn:Hkids;
    [|discriminate].
  set (id := DomOps.freshId d).
  set (d0 := <[id := DomOps.blankCopy parent r]> d).
  assert (Hid : d !! id = None) by apply freshId_fresh.
  assert (H0 : extends d d0) by apply extends_insert_fresh.
  assert (Hid0 : d0 !! id = Some (DomOps.blankCopy parent r))
    by apply lookup_insert_eq.
  destruct (cloneAll_shape fuel
              (fun dd k => DomOps.cloneNodeFrom cloneFuel dd k (Some id))
              (Some id)
              (fun dd k t' => IH cloneFuel dd k (Some id) t' ltac:(lia))
              (childNodes r) kidShapes d0 [])
    as (d1 & ids & Hfold & H1 & Hids).
  { apply mapM_Some in Hkids. eapply Forall2_impl; [exact Hkids|].
    intros x y. now apply shapeFrom_extends. }
  assert (Hcontent : exists d2 c ct,
    match content r with
    | Some f => DomOps.cloneNodeFrom cloneFuel d1 f None
    | None => (d1, None)
    end = (d2, c)
    /\ extends d1 d2
    /\ t = TreeNode (nodeType r) (tagName r) (attributes r) (isHTMLElement r)
                    ct kidShapes
    /\ match c, ct with
       | Some ci, Some cti => clonedAs fuel d1 d2 None ci cti
       | None, None => True
       | _, _ => False
       end).
  { destruct (content r) as [f|].
    - destruct (shapeFrom fuel d f) as [tf|] eqn:Hf; [|discriminate].
      injection Hshape as <-.
      destruct (IH cloneFuel d1 f None tf ltac:(lia)) as (d2 & ci & Hc & H2 & Hcl).
      { eapply shapeFrom_extends; [|exact Hf].
        eapply extends_trans; eassumption. }
      exists d2, (Some ci), (Some tf). auto.
    - injection Hshape as <-. exists d1, None, None.
      split; [reflexivity|]. split; [apply extends_refl|].
      split; [reflexivity|exact I]. }
  destruct Hcontent as (d2 & c & ct & Hc & H2 & -> & Hcl).
  assert (Hid2 : d2 !! id = Some (DomOps.blankCopy parent r)).
  { rewrite (H2 id), (H1 id); eauto. rewrite (H1 id); eauto. }
  eexists _, id. split; [|split].
  - simpl. rewrite Hsrc. fold id. fold d0. rewrite Hfold, Hc. reflexivity.
  - apply extends_alter_new; [exact Hid|].
    eapply extends_trans; [exact H0|]. eapply extends_trans; eassumption.
  - split; [exact Hid|]. split.
    + rewrite lookup_alter_eq, Hid2. reflexivity.
    + intros d'' Hagree.
      assert (Hnew : forall m, m <> id -> d !! m = None -> is_Some (d2 !! m) ->
                               d'' !! m = d2 !! m).
      { intros m Hm Hdm Hd2m.
        rewrite (Hagree m Hdm); rewrite lookup_alter_ne by congruence;
          [reflexivity|exact Hd2m]. }
      simpl. rewrite (Hagree id Hid); rewrite lookup_alter_eq, Hid2; [|eauto].
      cbn [fmap option_fmap option_map DomOps.setContent DomOps.setChildren
           DomOps.blankCopy childNodes content nodeType tagName attributes
           isHTMLElement].
      assert (Hk : mapM (shapeFrom fuel d'') ([] ++ ids) = Some kidShapes).
      { apply mapM_Some. simpl. eapply Forall2_impl; [exact Hids|].
        intros i ti (Hi0 & _ & Hsh). apply Hsh. intros m Hm0 Hm1.
        assert (m <> id) by (intros ->; congruence).
        rewrite <- (H2 m Hm1). apply Hnew; [assumption| |].
        - eapply extends_None; eassumption.
        - now rewrite (H2 m Hm1). }
      rewrite Hk.
      destruct c as [ci|], ct as [cti|]; try contradiction; [|reflexivity].
      destruct Hcl as (Hci & _ & Hsh). rewrite Hsh; [reflexivity|].
      intros m Hm1 Hm2.
      assert (m <> id).
      { intros ->. rewrite (H1 id) in Hm1 by eauto. congruence. }
      apply Hnew; [assumption| |exact Hm2].
      eapply extends_None; [|exact Hm1]. eapply extends_trans; eassumption.
Qed.

(** What a shape reads of a node is kept from [d] to [d']. *)
Lemma shapeFrom_kept fuel d d' n t :
  (forall m r, d !! m = Some r ->
     exists r', d' !! m = Some r'
                /\ nodeType r' = nodeType r /\ tagName r' = tagName r
                /\ attributes r' = attributes r
                /\ isHTMLElement r' = isHTMLElement r
                /\ childNodes r' = childNodes r /\ content r' = content r) ->
  shapeFrom fuel d n = Some t -> shapeFrom fuel d' n = Some t.
Proof.
  intros Hkept. revert n t. induction fuel as [|fuel IH]; intros n t; simpl;
    [discriminate|].
  destruct (d !! n) as [r|] eqn:Hn; [|discriminate].
  destruct (Hkept n r Hn) as (r' & -> & -> & -> & -> & -> & -> & ->).
  destruct (mapM (shapeFrom fuel d) (childNodes r)) as [kids|] eqn:Hk;
    [|discriminate].
  assert (Hk' : mapM (shapeFrom fuel d') (childNodes r) = Some kids).
  { apply mapM_Some. apply mapM_Some in Hk.
    eapply Forall2_impl; [exact Hk|]. intros x y. apply IH. }
  rewrite Hk'.
  destruct (content r) as [f|]; [|auto].
  destruct (shapeFrom fuel d f) as [tf|] eqn:Hf; [|discriminate].
  now rewrite (IH _ _ Hf).
Qed.

Lemma cloneNodeFrom_fresh fuel d src parent d' i :
  DomOps.cloneNodeFrom fuel d src parent = (d', Some i) ->
  d !! i = None /\ parentNode <$> d' !! i = Some parent.
Proof.
  destruct fuel as [|fuel]; simpl; [discriminate|].
  destruct (d !! src) as [r|]; [|discriminate].
  pose proof (cloneAll_extends
    (fun dd k => DomOps.cloneNodeFrom fuel dd k (Some (DomOps.freshId d)))
    (fun dd k => cloneNodeFrom_extends fuel dd k _)
    (childNodes r) (<[DomOps.freshId d := DomOps.blankCopy parent r]> d, []))
    as H1.
  destruct (fold_left _ (childNodes r) _) as [d1 kids]. cbn [fst] in H1.
  assert (H2 : forall d2 c,
            match content r with
            | Some f => DomOps.cloneNodeFrom fuel d1 f None
            | None => (d1, None)
            end = (d2, c) -> extends d1 d2).
  { intros d2 c. destruct (content r) as [f|].
    - intros E. pose proof (cloneNodeFrom_extends fuel d1 f None) as H.
      now rewrite E in H.
    - intros E. injection E as <- _. apply extends_refl. }
  destruct (match content r with Some _ => _ | None => _ end) as [d2 c].
  specialize (H2 d2 c eq_refl).
  intros E. injection E as <- <-. split; [apply freshId_fresh|].
  assert (Hid : d2 !! DomOps.freshId d = Some (DomOps.blankCopy parent r)).
  { assert (Hid0 : <[DomOps.freshId d := DomOps.blankCopy parent r]> d
                   !! DomOps.freshId d = Some (DomOps.blankCopy parent r))
      by apply lookup_insert_eq.
    assert (Hid1 : d1 !! DomOps.freshId d = Some (DomOps.blankCopy parent r))
      by (rewrite H1; eauto).
    rewrite H2; eauto. }
  rewrite lookup_alter_eq, Hid. reflexivity.
Qed.

Lemma cloneAll_fresh
      (clone : gmap NodeId Node -> NodeId -> gmap NodeId Node * option NodeId)
      (parent : option NodeId)
      (Hext : forall d k, extends d (fst (clone d k)))
      (Hfresh : forall d k d' i, clone d k = (d', Some i) ->
                  d !! i = None /\ parentNode <$> d' !! i = Some parent) :
  forall ks d acc d' out,
    fold_left
      (fun acc k =>
         let '(dk, o) := clone (fst acc) k in (dk, snd acc ++ option_list o))
      ks (d, acc) = (d', out) ->
    exists ids,
      out = acc ++ ids
      /\ Forall (fun k => d !! k = None /\ parentNode <$> d' !! k = Some parent) ids.
Proof.
  induction ks as [|k ks IH]; intros d acc d' out Hfold.
  - simpl in Hfold. injection Hfold as <- <-. exists []. now rewrite app_nil_r.
  - cbn [fold_left fst snd] in Hfold.
    pose proof (Hext d k) as Hk. pose proof (Hfresh d k) as Hf.
    destruct (clone d k) as [dk o]. cbn [fst] in Hk.
    pose proof (cloneAll_extends clone Hext ks (dk, acc ++ option_list o)) as Hrest.
    destruct (IH _ _ _ _ Hfold) as (ids & -> & Hids). rewrite Hfold in Hrest.
    cbn [fst] in Hrest.
    exists (option_list o ++ ids). rewrite app_assoc. split; [reflexivity|].
    apply Forall_app. split.
    + destruct o as [i|]; [|constructor].
      destruct (Hf dk i eq_refl) as [Hi Hp]. repeat constructor; [exact Hi|].
      rewrite (Hrest i); [exact Hp|]. destruct (dk !! i); [eauto|discriminate].
    + eapply Forall_impl; [exact Hids|]. intros x [Hx Hp]. split; [|exact Hp].
      eapply extends_None; eassumption.
Qed.

(** C9 (as amended).  Connection of a declarative-shadow host never
    raises.  It changes nothing when the host already has a shadow root, and
    nothing when the host has no child template with
    [shadowrootmode="open"].  When the host has no shadow root and its
    first such child is a template element, a shadow root is created for the
    host and receives fresh nodes that copy the children of the template's
    content, subtree by subtree and in order; every other node, the template
    and its content included, stays as it was. *)
Theorem hydration_copies_template (p : Page) (this : NodeId) :
  (exists p', DeclarativeShadowElement.connectedCallback this p = (p', Normal tt))
  /\ (is_Some (nodes p !! this ≫= shadowRoot) ->
      DeclarativeShadowElement.connectedCallback this p = (p, Normal tt))
  /\ (DomOps.queryOpenTemplate (nodes p) this = None ->
      DeclarativeShadowElement.connectedCallback this p = (p, Normal tt))
  /\ (forall r t fragment,
        nodes p !! this = Some r -> shadowRoot r = None ->
        DomOps.queryOpenTemplate (nodes p) this = Some t ->
        nodes p !! t ≫= content = Some fragment ->
        exists p' sr kids,
          DeclarativeShadowElement.connectedCallback this p = (p', Normal tt)
          /\ nodes p !! sr = None
          /\ nodes p' !! this = Some (DomOps.setShadowRoot (Some sr) r)
          /\ nodes p' !! sr
             = Some (DomOps.setChildren kids (DomOps.newShadowRoot this))
          /\ (forall n, n <> this -> is_Some (nodes p !! n) ->
                        nodes p' !! n = nodes p !! n)
          /\ Forall (fun k => nodes p !! k = None
                              /\ parentNode <$> nodes p' !! k = Some (Some sr))
                    kids
          /\ forall fuel shapes,
               fuel <= Dom.depthBound (nodes p) ->
               childShapes fuel (nodes p) fragment = Some shapes ->
               childShapes fuel (nodes p') sr = Some shapes).
Proof.
  split; [|split; [|split]].
  - destruct (hydrate_outcome p this) as (p1 & H & _). eauto.
  - intros Hsr. unfold DeclarativeShadowElement.connectedCallback, bind, get.
    destruct (nodes p !! this ≫= shadowRoot); [reflexivity|].
    now destruct Hsr.
  - intros Hq. unfold DeclarativeShadowElement.connectedCallback, bind, get.
    destruct (nodes p !! this ≫= shadowRoot); [reflexivity|].
    now rewrite Hq.
  - intros r t fragment Hthis Hsr Hq Hcontent.
    destruct (hydrate_cases p this)
      as [[_ [Hs|[Hn|(t' & Ht' & Hc')]]]|(r' & t' & f' & Hr' & _ & Ht' & Hf' & Hrun)].
    { rewrite Hthis in Hs. simpl in Hs. rewrite Hsr in Hs. now destruct Hs. }
    { congruence. }
    { congruence. }
    assert (r' = r) as -> by congruence.
    assert (t' = t) as -> by congruence.
    assert (f' = fragment) as -> by congruence.
    cbv zeta in Hrun.
    set (sr := DomOps.freshId (nodes p)) in *.
    set (d1 := <[this := DomOps.setShadowRoot (Some sr) r]>
                 (<[sr := DomOps.newShadowRoot this]> (nodes p))) in *.
    assert (Hfresh : nodes p !! sr = None) by apply freshId_fresh.
    assert (Hne : this <> sr) by (intros ->; congruence).
    assert (Hsr1 : d1 !! sr = Some (DomOps.newShadowRoot this)).
    { unfold d1. rewrite lookup_insert_ne by exact Hne. apply lookup_insert_eq. }
    assert (Hthis1 : d1 !! this = Some (DomOps.setShadowRoot (Some sr) r))
      by apply lookup_insert_eq.
    assert (Hold1 : forall n, n <> this -> is_Some (nodes p !! n) ->
                              d1 !! n = nodes p !! n).
    { intros n Hn Hin. unfold d1. rewrite lookup_insert_ne by congruence.
      apply lookup_insert_ne. intros <-. rewrite Hfresh in Hin. now destruct Hin. }
    assert (Hkids1 : Dom.childrenOf d1 fragment = Dom.childrenOf (nodes p) fragment).
    { unfold Dom.childrenOf. destruct (decide (fragment = this)) as [->|Hft].
      - now rewrite Hthis1, Hthis.
      - destruct (nodes p !! fragment) as [fr|] eqn:Hfr.
        + rewrite Hold1, Hfr; eauto.
        + destruct (decide (fragment = sr)) as [->|Hfs]; [now rewrite Hsr1|].
          unfold d1. now rewrite !lookup_insert_ne, Hfr by congruence. }
    assert (Hnone1 : forall m, d1 !! m = None -> nodes p !! m = None).
    { intros m Hm. destruct (nodes p !! m) eqn:E; [|reflexivity].
      destruct (decide (m = this)) as [->|Hmt]; [congruence|].
      rewrite Hold1 in Hm; eauto. congruence. }
    (* the copies *)
    unfold DomOps.appendClonedChildren in Hrun. rewrite Hkids1 in Hrun.
    pose proof (cloneAll_extends
      (fun dd k => DomOps.cloneNodeFrom (Dom.depthBound d1) dd k (Some sr))
      (fun dd k => cloneNodeFrom_extends _ dd k _)
      (Dom.childrenOf (nodes p) fragment) (d1, [])) as Hext.
    destruct (fold_left _ (Dom.childrenOf (nodes p) fragment) (d1, []))
      as [d2 kids] eqn:Hfold.
    cbn [fst] in Hext.
    set (d3 := alter (fun n => DomOps.setChildren (childNodes n ++ kids) n) sr d2)
      in *.
    assert (Hd3 : forall m, m <> sr -> d3 !! m = d2 !! m)
      by (intros m Hm; unfold d3; now rewrite lookup_alter_ne by congruence).
    assert (Hsr3 : d3 !! sr
                   = Some (DomOps.setChildren kids (DomOps.newShadowRoot this))).
    { unfold d3. rewrite lookup_alter_eq, (Hext sr), Hsr1; eauto. }
    exists (withNodes (fun _ => d3) p), sr, kids.
    split; [exact Hrun|]. split; [exact Hfresh|]. cbn [nodes withNodes].
    split; [|split; [|split]].
    + rewrite Hd3 by exact Hne. rewrite (Hext this); eauto.
    + exact Hsr3.
    + intros n Hn Hin.
      assert (n <> sr) by (intros ->; rewrite Hfresh in Hin; now destruct Hin).
      rewrite Hd3 by assumption. rewrite (Hext n); [now apply Hold1|].
      rewrite Hold1; assumption.
    + destruct (cloneAll_fresh
        (fun dd k => DomOps.cloneNodeFrom (Dom.depthBound d1) dd k (Some sr))
        (Some sr)
        (fun dd k => cloneNodeFrom_extends _ dd k _)
        (fun dd k dd' i => cloneNodeFrom_fresh _ dd k _ dd' i)
        _ _ _ _ _ Hfold) as (ids & Hkids & Hids).
      simpl in Hkids. subst ids. split.
      * eapply Forall_impl; [exact Hids|]. intros k [Hk Hp].
        split; [now apply Hnone1|].
        rewrite Hd3; [exact Hp|]. intros ->. congruence.
      * intros fuel shapes Hfuel Hshapes. unfold childShapes in *.
        assert (Hle : fuel <= Dom.depthBound d1).
        { unfold Dom.depthBound in *. unfold d1.
          rewrite map_size_insert_Some
            by (rewrite lookup_insert_ne by congruence; eauto).
          rewrite map_size_insert_None by exact Hfresh. lia. }
        destruct (cloneAll_shape fuel
          (fun dd k => DomOps.cloneNodeFrom (Dom.depthBound d1) dd k (Some sr))
          (Some sr)
          (fun dd k t' => cloneNodeFrom_shape fuel _ dd k (Some sr) t' Hle)
          (Dom.childrenOf (nodes p) fragment) shapes d1 [])
          as (d2' & ids & Hfold' & _ & Hcl).
        { apply mapM_Some in Hshapes. eapply Forall2_impl; [exact Hshapes|].
          intros x y. apply shapeFrom_kept. intros m rm Hm.
          destruct (decide (m = this)) as [->|Hmt].
          - rewrite Hthis1. assert (rm = r) as -> by congruence.
            eexists. split; [reflexivity|]. repeat split.
          - rewrite Hold1 by eauto. eexists. split; [exact Hm|]. repeat split. }
        rewrite Hfold in Hfold'. injection Hfold' as <- <-.
        unfold Dom.childrenOf. rewrite Hsr3.
        cbn [DomOps.setChildren childNodes].
        apply mapM_Some. eapply Forall2_impl; [exact Hcl|].
        intros i ti (Hi & _ & Hsh). apply Hsh. intros m Hm1 Hm2.
        apply Hd3. intros ->. congruence.
Qed.

Lemma hydration_copies_template_witness :
  exists p' sr kids,
    DeclarativeShadowElement.connectedCallback 1 Examples.hostPage
    = (p', Normal tt)
    /\ nodes Examples.hostPage !! sr = None
    /\ nodes p' !! 1
       = Some (DomOps.setShadowRoot (Some sr)
                 (Examples.element "X-HOST" 0 [2] []))
    /\ nodes p' !! sr = Some (DomOps.setChildren kids (DomOps.newShadowRoot 1))
    /\ (forall n, n <> 1 -> is_Some (nodes Examples.hostPage !! n) ->
                  nodes p' !! n = nodes Examples.hostPage !! n)
    /\ Forall (fun k => nodes Examples.hostPage !! k = None
                        /\ parentNode <$> nodes p' !! k = Some (Some sr))
              kids
    /\ forall fuel shapes,
         fuel <= Dom.depthBound (nodes Examples.hostPage) ->
         childShapes fuel (nodes Examples.hostPage) 3 = Some shapes ->
         childShapes fuel (nodes p') sr = Some shapes.
Proof.
  destruct (hydration_copies_template Examples.hostPage 1) as (_ & _ & _ & H).
  apply (H (Examples.element "X-HOST" 0 [2] []) 2 3); vm_compute; reflexivity.
Defined.

(** On [hostPage] the content of the template is a [div] holding a [span];
    after connection the shadow root holds a copy of it. *)
Example hostPage_shapes :
  childShapes 3 (nodes Examples.hostPage) 3
  = Some [TreeNode ElementNode "DIV" {[ "ref" := "foo" ]} true None
            [TreeNode ElementNode "SPAN" ∅ true None []]]
  /\ childShapes 3 (nodes Histories.hostHydrated) 6
     = childShapes 3 (nodes Examples.hostPage) 3.
Proof. split; vm_compute; reflexivity. Qed.

(** C9 as stated fails in "moved": after connection the template is still a
    child of the host and its content still holds the [div]; the shadow
    root holds a different node, one that did not exist before. *)
Lemma template_content_counterexample :
  (nodes Histories.hostHydrated !! 1 ≫= shadowRoot) = Some 6
  /\ Dom.childrenOf (nodes Histories.hostHydrated) 1 = [2]
  /\ (nodes Histories.hostHydrated !! 2 ≫= content) = Some 3
  /\ Dom.childrenOf (nodes Histories.hostHydrated) 3 = [4]
  /\ Dom.parentOf (nodes Histories.hostHydrated) 4 = Some 3
  /\ Dom.childrenOf (nodes Histories.hostHydrated) 6 = [7]
  /\ nodes Examples.hostPage !! 7 = None.
Proof. repeat split; vm_compute; reflexivity. Qed.

(** *** The ancestor walk needs no more fuel than it is given *)

Lemma getAncestor_in_store p n a :
  getAncestor p n = Some a -> is_Some (nodes p !! n).
Proof.
  unfold getAncestor, Dom.parentOf.
  destruct (nodes p !! n) as [r|] eqn:Hn; [eauto|]. simpl.
  rewrite (getRootNode_detached (nodes p) n)
    by (unfold Dom.parentOf; now rewrite Hn).
  unfold Dom.isShadowRoot. now rewrite Hn.
Qed.

Lemma ancestorChain_elem k p n x :
  x ∈ ancestorChain k p n -> exists i, i < k /\ ancestorAt i p n = Some x.
Proof.
  revert n. induction k as [|k IH]; intros n H; simpl in H.
  - now apply elem_of_nil in H.
  - apply elem_of_cons in H as [->|H]; [exists 0; split; [lia|reflexivity]|].
    destruct (getAncestor p n) as [a|] eqn:Ha; [|now apply elem_of_nil in H].
    destruct (IH a H) as (i & Hi & Hx). exists (S i). split; [lia|].
    simpl. now rewrite Ha.
Qed.

Lemma ancestorChain_full k p n m :
  ancestorAt k p n = Some m ->
  length (ancestorChain k p n) = k
  /\ (acyclic p -> NoDup (ancestorChain k p n))
  /\ forall x, x ∈ ancestorChain k p n -> is_Some (nodes p !! x).
Proof.
  revert n. induction k as [|k IH]; intros n H; simpl in *.
  - repeat split; [constructor|]. intros x Hx. now apply elem_of_nil in Hx.
  - destruct (getAncestor p n) as [a|] eqn:Ha; [|discriminate].
    destruct (IH a H) as (Hlen & Hnd & Hin). split; [now rewrite Hlen|]. split.
    + intros Hacyclic. constructor; [|now apply Hnd].
      intros Hn. apply ancestorChain_elem in Hn as (i & _ & Hi).
      apply (Hacyclic n i). simpl. now rewrite Ha.
    + intros x Hx. apply elem_of_cons in Hx as [->|Hx]; [|now apply Hin].
      eapply getAncestor_in_store; eassumption.
Qed.

(** In an acyclic store the walk ends within as many steps as there are
    nodes. *)
Lemma ancestorAt_bounded p n :
  acyclic p -> ancestorAt (Dom.depthBound (nodes p)) p n = None.
Proof.
  intros Hacyclic.
  destruct (ancestorAt (Dom.depthBound (nodes p)) p n) as [m|] eqn:Hm;
    [|reflexivity].
  destruct (ancestorChain_full _ _ _ _ Hm) as (Hlen & Hnd & Hin).
  assert (Hsub : ancestorChain (Dom.depthBound (nodes p)) p n
                 ⊆+ elements (dom (nodes p))).
  { apply NoDup_submseteq; [now apply Hnd|].
    intros x Hx. apply elem_of_elements, elem_of_dom. now apply Hin. }
  apply submseteq_length in Hsub.
  rewrite Hlen in Hsub.
  change (length (elements (dom (nodes p)))) with (size (dom (nodes p))) in Hsub.
  rewrite size_dom in Hsub. unfold Dom.depthBound in Hsub. lia.
Qed.

Lemma getClosestComponentFrom_stable fuel p n :
  ancestorAt fuel p n = None ->
  forall fuel', fuel <= fuel' ->
    getClosestComponentFrom fuel' p (Some n)
    = getClosestComponentFrom fuel p (Some n).
Proof.
  revert n. induction fuel as [|fuel IH]; intros n Hend fuel' Hle;
    [discriminate|].
  destruct fuel' as [|fuel']; [lia|]. simpl in *.
  destruct (isComponent p n); [reflexivity|].
  destruct (_ && _); [reflexivity|].
  destruct (getAncestor p n) as [a|]; [|reflexivity].
  apply IH; [exact Hend|lia].
Qed.

(** On an acyclic store [getClosestComponent] is the recursion of the
    source: more fuel never changes its answer. *)
Lemma getClosestComponent_enough p node fuel :
  acyclic p -> Dom.depthBound (nodes p) <= fuel ->
  getClosestComponentFrom fuel p node = getClosestComponent p node.
Proof.
  intros Hacyclic Hle. unfold getClosestComponent. destruct node as [n|].
  - apply getClosestComponentFrom_stable; [now apply ancestorAt_bounded|exact Hle].
  - destruct fuel; reflexivity.
Qed.

(** ** Part III: further properties of the code *)

(** *** Listener registration across connections *)

Lemma registerEventListeners_result p :
  routerAbsent p \/ routerInstalled p ->
  exists p2,
    registerEventListeners p = (p2, Normal tt)
    /\ routerInstalled p2
    /\ nodes p2 = nodes p /\ components p2 = components p
    /\ idleQueue p2 = idleQueue p.
Proof.
  intros [[Hi Hl]|[Hi Hl]]; unfold registerEventListeners, bind, get, modify;
    rewrite Hi; eexists; (split; [reflexivity|]).
  - repeat split. simpl. now rewrite Hl.
  - repeat split; assumption.
Qed.

Lemma connectedCallback_keeps_router p this :
  exists p1 p2,
    DeclarativeShadowElement.connectedCallback this p = (p1, Normal tt)
    /\ registerEventListeners p1 = (p2, Normal tt)
    /\ initialized (fst (Component.connectedCallback this p)) = initialized p2
    /\ documentListeners (fst (Component.connectedCallback this p))
       = documentListeners p2.
Proof.
  destruct (hydrate_outcome p this) as (p1 & H1 & _).
  destruct (registerEventListeners_outcome p1) as (p2 & H2 & _).
  exists p1, p2. split; [exact H1|]. split; [exact H2|].
  unfold Component.connectedCallback.
  rewrite (bind_normal _ _ _ _ _ H1), (bind_normal _ _ _ _ _ H2).
  unfold bind. rewrite updateRefs_outcome.
  destruct (List.find _ _); split; reflexivity.
Qed.

(** X1.  Connecting a component installs the router if it was absent and
    leaves it alone if it was installed, whether or not the connection
    throws: afterwards the document has one capturing listener for each of
    the twelve event names and no second one, so any later connection adds
    none. *)
Theorem connection_installs_router_once (p : Page) (this : NodeId) :
  routerAbsent p \/ routerInstalled p ->
  let p' := fst (Component.connectedCallback this p) in
  routerInstalled p'
  /\ NoDup (documentListeners p')
  /\ length (documentListeners p') = 12
  /\ forall that,
       documentListeners (fst (Component.connectedCallback that p'))
       = documentListeners p'.
Proof.
  intros Hp.
  assert (Hstep : forall q that,
            routerAbsent q \/ routerInstalled q ->
            routerInstalled (fst (Component.connectedCallback that q))).
  { intros q that Hq.
    destruct (connectedCallback_keeps_router q that)
      as (q1 & q2 & H1 & H2 & Hi & Hl).
    destruct (hydrate_outcome q that) as (q1' & H1' & _ & Hi1 & Hl1 & _).
    assert (q1' = q1) as -> by congruence.
    destruct (registerEventListeners_result q1) as (q2' & H2' & Hinst & _).
    { unfold routerAbsent, routerInstalled in *. rewrite Hi1, Hl1. exact Hq. }
    assert (q2' = q2) as -> by congruence.
    destruct Hinst as [Hi2 Hl2]. split; congruence. }
  intros p'. pose proof (Hstep p this Hp) as Hinst. fold p' in Hinst.
  split; [exact Hinst|]. destruct Hinst as [Hi Hl].
  split; [|split].
  - rewrite Hl. vm_compute. repeat constructor;
      rewrite ?elem_of_cons, ?elem_of_nil; intuition discriminate.
  - rewrite Hl. reflexivity.
  - intros that. destruct (Hstep p' that) as [_ Hl']; [right; split; assumption|].
    congruence.
Qed.

Lemma connection_installs_router_once_witness :
  let p' := fst (Component.connectedCallback 1 Examples.routerPage) in
  routerInstalled p'
  /\ NoDup (documentListeners p')
  /\ length (documentListeners p') = 12
  /\ forall that,
       documentListeners (fst (Component.connectedCallback that p'))
       = documentListeners p'.
Proof.
  apply (connection_installs_router_once Examples.routerPage 1).
  left. split; reflexivity.
Defined.

(** *** Hydration on reconnection *)

Lemma hydrate_sets_shadowRoot p this r t fragment :
  nodes p !! this = Some r ->
  DomOps.queryOpenTemplate (nodes p) this = Some t ->
  nodes p !! t ≫= content = Some fragment ->
  let sr := DomOps.freshId (nodes p) in
  let d1 := <[this := DomOps.setShadowRoot (Some sr) r]>
              (<[sr := DomOps.newShadowRoot this]> (nodes p)) in
  DomOps.appendClonedChildren (Dom.depthBound d1) d1 fragment sr !! this
  = Some (DomOps.setShadowRoot (Some sr) r).
Proof.
  intros Hr Ht Hf sr d1.
  rewrite appendClonedChildren_other.
  - apply lookup_insert_eq.
  - intros ->. pose proof (freshId_fresh (nodes p)) as Hfr. fold sr in Hfr.
    congruence.
  - unfold d1. rewrite lookup_insert_eq. eauto.
Qed.

(** X2.  Hydration is idempotent: connecting a host again after a first
    connection changes nothing and raises nothing, whatever the first
    connection did. *)
Theorem hydration_is_idempotent (p : Page) (this : NodeId) :
  DeclarativeShadowElement.connectedCallback this
    (fst (DeclarativeShadowElement.connectedCallback this p))
  = (fst (DeclarativeShadowElement.connectedCallback this p), Normal tt).
Proof.
  destruct (hydrate_cases p this)
    as [[H _]|(r & t & f & Hr & Hsr & Ht & Hf & H)].
  - rewrite H. cbn [fst]. exact H.
  - cbv zeta in H. rewrite H. cbn [fst].
    unfold DeclarativeShadowElement.connectedCallback at 1. unfold bind, get.
    cbn [nodes withNodes].
    rewrite (hydrate_sets_shadowRoot p this r t f Hr Ht Hf). reflexivity.
Qed.

(** *** The nearest owning component *)

Lemma getClosestComponentFrom_sound fuel p n c :
  getClosestComponentFrom fuel p (Some n) = Some c ->
  exists k,
    k < fuel /\ ancestorAt k p n = Some c /\ classified p c = true
    /\ forall j m, j < k -> ancestorAt j p n = Some m -> classified p m = false.
Proof.
  revert n. induction fuel as [|fuel IH]; intros n H; [discriminate|].
  simpl in H.
  destruct (classified p n) eqn:Hn.
  - assert (c = n) as ->.
    { unfold classified in Hn. destruct (isComponent p n); [congruence|].
      simpl in Hn. rewrite Hn in H. congruence. }
    exists 0. repeat split; [lia|exact Hn|]. intros j m Hj. lia.
  - unfold classified in Hn. apply orb_false_iff in Hn as [Hc Ht].
    rewrite Hc, Ht in H.
    destruct (getAncestor p n) as [a|] eqn:Ha; [|discriminate].
    destruct (IH a H) as (k & Hk & Hat & Hcl & Hnear).
    exists (S k). split; [lia|]. split; [simpl; now rewrite Ha|].
    split; [exact Hcl|]. intros j m Hj Hm. destruct j as [|j].
    + injection Hm as <-. unfold classified. now rewrite Hc, Ht.
    + simpl in Hm. rewrite Ha in Hm. apply (Hnear j m); [lia|exact Hm].
Qed.

Lemma getClosestComponentFrom_complete fuel p n c k :
  k < fuel -> ancestorAt k p n = Some c -> classified p c = true ->
  (forall j m, j < k -> ancestorAt j p n = Some m -> classified p m = false) ->
  getClosestComponentFrom fuel p (Some n) = Some c.
Proof.
  revert n k. induction fuel as [|fuel IH]; intros n k Hk Hat Hcl Hnear; [lia|].
  simpl. destruct k as [|k].
  - injection Hat as ->. unfold classified in Hcl.
    destruct (isComponent p c); [reflexivity|]. simpl in Hcl. now rewrite Hcl.
  - pose proof (Hnear 0 n ltac:(lia) eq_refl) as Hn.
    unfold classified in Hn. apply orb_false_iff in Hn as [Hc Ht].
    rewrite Hc, Ht. simpl in Hat.
    destruct (getAncestor p n) as [a|] eqn:Ha; [|discriminate].
    apply (IH a k); [lia|exact Hat|exact Hcl|].
    intros j m Hj Hm. apply (Hnear (S j) m); [lia|]. simpl. now rewrite Ha.
Qed.

Lemma ancestorAt_depth p n k m :
  acyclic p -> ancestorAt k p n = Some m -> k <= size (nodes p).
Proof.
  intros Hacyclic Hm.
  destruct (ancestorChain_full _ _ _ _ Hm) as (Hlen & Hnd & Hin).
  assert (Hsub : ancestorChain k p n ⊆+ elements (dom (nodes p))).
  { apply NoDup_submseteq; [now apply Hnd|].
    intros x Hx. apply elem_of_elements, elem_of_dom. now apply Hin. }
  apply submseteq_length in Hsub. rewrite Hlen in Hsub.
  change (length (elements (dom (nodes p)))) with (size (dom (nodes p))) in Hsub.
  now rewrite size_dom in Hsub.
Qed.

(** A store whose ancestor steps strictly lower some rank has no cycle. *)
Lemma acyclic_of_rank p (rank : NodeId -> nat) :
  (forall n a, getAncestor p n = Some a -> rank a < rank n) -> acyclic p.
Proof.
  intros Hrank.
  assert (H : forall k n m, ancestorAt (S k) p n = Some m -> rank m < rank n).
  { induction k as [|k IH]; intros n m Hm; simpl in Hm;
      destruct (getAncestor p n) as [a|] eqn:Ha; try discriminate.
    - injection Hm as <-. now apply Hrank.
    - specialize (IH a m Hm). specialize (Hrank n a Ha). lia. }
  intros n k Hn. specialize (H k n n Hn). lia.
Qed.

(** X6.  [getClosestComponent] returns the nearest node, counting from the
    starting node itself and following [getAncestor] (parents, and hosts
    across shadow boundaries), that is a [Component] instance or an HTML
    element whose tag ends with [-component]: what it returns is such a
    node and no node before it on the walk is; and in a DOM without cycles
    it finds that node whenever there is one. *)
Theorem closest_component_is_nearest (p : Page) (n c : NodeId) :
  (getClosestComponent p (Some n) = Some c ->
   exists k,
     ancestorAt k p n = Some c /\ classified p c = true
     /\ forall j m, j < k -> ancestorAt j p n = Some m -> classified p m = false)
  /\ (acyclic p ->
      forall k,
        ancestorAt k p n = Some c -> classified p c = true ->
        (forall j m, j < k -> ancestorAt j p n = Some m ->
                     classified p m = false) ->
        getClosestComponent p (Some n) = Some c).
Proof.
  split.
  - intros H. apply getClosestComponentFrom_sound in H as (k & _ & H). eauto.
  - intros Hacyclic k Hat Hcl Hnear.
    apply (getClosestComponentFrom_complete _ p n c k); try assumption.
    pose proof (ancestorAt_depth p n k c Hacyclic Hat).
    unfold Dom.depthBound. lia.
Qed.

Lemma forall_in_store p (P : NodeId -> Prop) :
  Forall P (elements (dom (nodes p))) ->
  forall n, is_Some (nodes p !! n) -> P n.
Proof.
  intros Hall n Hn. rewrite Forall_forall in Hall. apply Hall.
  now apply elem_of_elements, elem_of_dom.
Qed.

(** The hydrated host page has no cycle: every step towards an ancestor
    lowers the depth. *)
Lemma hostHydrated_acyclic : acyclic Histories.hostHydrated.
Proof.
  set (rank := fun n : NodeId =>
                 match n with
                 | 0 | 3 => 0 | 1 | 4 => 1 | 2 | 5 | 6 => 2 | 7 => 3
                 | _ => 4
                 end).
  apply (acyclic_of_rank _ rank).
  assert (Hall : forall n, is_Some (nodes Histories.hostHydrated !! n) ->
                 forall a, getAncestor Histories.hostHydrated n = Some a ->
                           rank a < rank n).
  { apply (forall_in_store Histories.hostHydrated
             (fun n => forall a, getAncestor Histories.hostHydrated n = Some a ->
                                 rank a < rank n)).
    let l := eval vm_compute in (elements (dom (nodes Histories.hostHydrated))) in
    replace (elements (dom (nodes Histories.hostHydrated))) with l
      by (vm_compute; reflexivity).
    repeat (constructor 2;
            [intros a Ha; vm_compute in Ha; try discriminate;
             injection Ha as <-; unfold rank; lia|]).
    constructor 1. }
  intros n a Ha. apply (Hall n); [eapply getAncestor_in_store|]; eassumption.
Qed.

Lemma closest_component_is_nearest_witness :
  getClosestComponent Histories.hostHydrated (Some 8) = Some 1.
Proof.
  apply (proj2 (closest_component_is_nearest Histories.hostHydrated 8 1)
               hostHydrated_acyclic 3).
  - vm_compute. reflexivity.
  - vm_compute. reflexivity.
  - intros j m Hj Hm.
    destruct j as [|[|[|j]]]; [| | |lia]; vm_compute in Hm; injection Hm as <-;
      vm_compute; reflexivity.
Defined.

(** *** What the built mapping holds *)

Lemma setAdd_NoDup e acc : NoDup acc -> NoDup (Component.setAdd e acc).
Proof.
  intros H. unfold Component.setAdd. case_bool_decide as Hin; [exact H|].
  apply NoDup_app. repeat split; [exact H| |apply NoDup_singleton].
  intros x Hx Hx'. apply list_elem_of_singleton in Hx' as ->. contradiction.
Qed.

Lemma ownedRefElements_inner_NoDup p this l acc :
  NoDup acc ->
  NoDup (fold_left
           (fun acc element =>
              if negb (isDescendant p this element) then acc
              else Component.setAdd element acc) l acc).
Proof.
  revert acc. induction l as [|e l IH]; intros acc H; simpl; [exact H|].
  apply IH. destruct (negb _); [exact H|now apply setAdd_NoDup].
Qed.

Lemma ownedRefElements_NoDup p this : NoDup (Component.ownedRefElements p this).
Proof.
  unfold Component.ownedRefElements.
  generalize (Component.roots p this). intros rs.
  assert (G : forall acc, NoDup acc ->
    NoDup (fold_left
             (fun acc root =>
                fold_left
                  (fun acc element =>
                     if negb (isDescendant p this element) then acc
                     else Component.setAdd element acc)
                  (Dom.querySelectorAllAttr (nodes p) root "ref") acc) rs acc)).
  { induction rs as [|r rs IH]; intros acc H; simpl; [exact H|].
    apply IH. now apply ownedRefElements_inner_NoDup. }
  apply G. constructor.
Qed.

Lemma ownedRefElements_inner_keeps p this l acc x :
  x ∈ acc ->
  x ∈ fold_left
        (fun acc element =>
           if negb (isDescendant p this element) then acc
           else Component.setAdd element acc) l acc.
Proof.
  revert acc. induction l as [|e l IH]; intros acc H; simpl; [exact H|].
  apply IH. destruct (negb _); [exact H|]. apply setAdd_elem. now left.
Qed.

Lemma ownedRefElements_inner_adds p this l acc x :
  x ∈ l -> isDescendant p this x = true ->
  x ∈ fold_left
        (fun acc element =>
           if negb (isDescendant p this element) then acc
           else Component.setAdd element acc) l acc.
Proof.
  revert acc. induction l as [|e l IH]; intros acc Hin Hd; simpl.
  - now apply elem_of_nil in Hin.
  - apply elem_of_cons in Hin as [->|Hin]; [|now apply IH].
    rewrite Hd. simpl. apply ownedRefElements_inner_keeps.
    apply setAdd_elem. now right.
Qed.

(** The owned marked elements are exactly the elements found under a root
    that pass [#isDescendant]. *)
Lemma ownedRefElements_iff p this x :
  x ∈ Component.ownedRefElements p this <-> ownedMarked p this x.
Proof.
  split; [apply ownedRefElements_spec|].
  intros (Hd & root & Hroot & Hx). unfold Component.ownedRefElements.
  revert Hroot. generalize (Component.roots p this). intros rs.
  generalize (@nil NodeId).
  induction rs as [|r rs IH]; intros acc Hroot; [now apply elem_of_nil in Hroot|].
  simpl. apply elem_of_cons in Hroot as [->|Hroot]; [|now apply IH].
  clear IH.
  assert (G : forall rs acc, x ∈ acc ->
    x ∈ fold_left
          (fun acc root =>
             fold_left
               (fun acc element =>
                  if negb (isDescendant p this element) then acc
                  else Component.setAdd element acc)
               (Dom.querySelectorAllAttr (nodes p) root "ref") acc) rs acc).
  { clear. induction rs as [|r rs IH]; intros acc H; simpl; [exact H|].
    apply IH. now apply ownedRefElements_inner_keeps. }
  apply G. now apply ownedRefElements_inner_adds.
Qed.

(** X4.  On a component none of whose owned markers names the slot
    [__proto__], after a ref computation that completes, [refs] describes
    exactly the owned marked elements: a slot exists if and only if some owned
    marked element names it, and whatever a slot holds is an element that
    carries a [ref] attribute naming that slot, lies under one of the
    component's roots, and has this component as nearest owner. *)
Theorem refs_hold_exactly_owned_elements
  (p : Page) (this : NodeId) (inst : Instance) :
  components p !! this = Some inst ->
  (forall r, r ∈ requiredNames p this ->
             Component.jsIn r (Component.buildRefs p this) = true) ->
  plainSlots p this ->
  exists p',
    Component.updateRefs this p = (p', Normal tt)
    /\ (forall name,
          is_Some (refsOf p' this !! name)
          <-> exists e, ownedMarked p this e /\ slotName p e = name)
    /\ (forall name v e,
          refsOf p' this !! name = Some v -> holds v e ->
          Dom.isElement (nodes p) e = true
          /\ Dom.hasAttribute (nodes p) e "ref" = true
          /\ nearestOwner p e = Some this
          /\ slotName p e = name
          /\ exists root, root ∈ Component.roots p this
                          /\ e ∈ Dom.descendants (nodes p) root).
Proof.
  intros Hi Hreq _.
  destruct (updateRefs_completes p this inst Hi Hreq) as (p' & Hrun & Hrefs & _).
  exists p'. split; [exact Hrun|]. rewrite Hrefs. split.
  - intros name. rewrite buildRefs_is_Some. unfold namingSlot. split.
    + intros Hne.
      destruct (List.filter _ _) as [|e l] eqn:Hf; [congruence|].
      assert (He : e ∈ List.filter
                     (fun e => String.eqb (slotName p e) name)
                     (Component.ownedRefElements p this))
        by (rewrite Hf; apply list_elem_of_here).
      apply filter_In_elem in He as [He Hname].
      exists e. split; [now apply ownedRefElements_iff|now apply String.eqb_eq].
    + intros (e & He & Hname) Hnil.
      assert (Hin : e ∈ List.filter
                      (fun e => String.eqb (slotName p e) name)
                      (Component.ownedRefElements p this)).
      { apply filter_In_elem. split; [now apply ownedRefElements_iff|].
        now apply String.eqb_eq. }
      rewrite Hnil in Hin. now apply elem_of_nil in Hin.
  - intros name v e Hv Hh.
    destruct (buildRefs_holds _ _ _ _ _ Hv Hh) as [Hin Hname].
    apply ownedRefElements_spec in Hin as (Hd & root & Hroot & Hq).
    unfold Dom.querySelectorAllAttr in Hq.
    apply filter_In_elem in Hq as [Hdesc Hel].
    apply andb_true_iff in Hel as [Hel Hattr].
    repeat split; try assumption.
    + unfold isDescendant in Hd. now apply bool_decide_eq_true in Hd.
    + eauto.
Qed.

Lemma refs_hold_exactly_owned_elements_witness :
  exists p',
    Component.updateRefs 1 Examples.listPage = (p', Normal tt)
    /\ (forall name,
          is_Some (refsOf p' 1 !! name)
          <-> exists e, ownedMarked Examples.listPage 1 e
                        /\ slotName Examples.listPage e = name)
    /\ (forall name v e,
          refsOf p' 1 !! name = Some v -> holds v e ->
          Dom.isElement (nodes Examples.listPage) e = true
          /\ Dom.hasAttribute (nodes Examples.listPage) e "ref" = true
          /\ nearestOwner Examples.listPage e = Some 1
          /\ slotName Examples.listPage e = name
          /\ exists root, root ∈ Component.roots Examples.listPage 1
                          /\ e ∈ Dom.descendants (nodes Examples.listPage) root).
Proof.
  apply (refs_hold_exactly_owned_elements Examples.listPage 1
           (Examples.instance (Some ["foo"]))).
  - vm_compute. reflexivity.
  - assert (Hnames : requiredNames Examples.listPage 1 = ["foo"])
      by (vm_compute; reflexivity).
    rewrite Hnames. intros r Hr. apply list_elem_of_singleton in Hr as ->.
    vm_compute. reflexivity.
  - vm_compute. reflexivity.
Defined.

(** *** Unique names, and names used twice *)

Lemma filter_unique_key {A} (f : A -> string) (l : list A) (e : A) :
  NoDup (List.map f l) -> e ∈ l ->
  List.filter (fun x => String.eqb (f x) (f e)) l = [e].
Proof.
  induction l as [|x l IH]; intros Hnd Hin; [now apply elem_of_nil in Hin|].
  simpl in Hnd. apply NoDup_cons in Hnd as [Hx Hnd]. simpl.
  apply elem_of_cons in Hin as [->|Hin].
  - rewrite String.eqb_refl. f_equal.
    clear IH Hnd. induction l as [|y l IH]; [reflexivity|]. simpl.
    destruct (String.eqb_spec (f y) (f x)) as [Heq|Hne].
    + exfalso. apply Hx. simpl. rewrite Heq. apply list_elem_of_here.
    + apply IH. intros H. apply Hx. simpl. now apply list_elem_of_further.
  - destruct (String.eqb_spec (f x) (f e)) as [Heq|Hne]; [|now apply IH].
    exfalso. apply Hx. rewrite Heq. apply list_elem_of_In, in_map.
    now apply list_elem_of_In.
Qed.

(** X3.  When the owned marked elements carry pairwise different markers,
    none with the repetition suffix and none naming the slot [__proto__],
    a completed ref computation leaves
    [refs] with exactly one entry per element: each marker maps to its
    element, and there are as many entries as elements. *)
Theorem unique_markers_give_one_entry_each
  (p : Page) (this : NodeId) (inst : Instance) :
  components p !! this = Some inst ->
  (forall r, r ∈ requiredNames p this ->
             Component.jsIn r (Component.buildRefs p this) = true) ->
  plainSlots p this ->
  NoDup (List.map (markerOf p) (Component.ownedRefElements p this)) ->
  Forall (fun e => isRepeated p e = false) (Component.ownedRefElements p this) ->
  exists p',
    Component.updateRefs this p = (p', Normal tt)
    /\ (forall e, e ∈ Component.ownedRefElements p this ->
                  refsOf p' this !! markerOf p e = Some (RefElement e))
    /\ size (refsOf p' this) = length (Component.ownedRefElements p this).
Proof.
  intros Hi Hreq _ Hnd Hplain.
  destruct (updateRefs_completes p this inst Hi Hreq) as (p' & Hrun & Hrefs & _).
  exists p'. split; [exact Hrun|]. rewrite Hrefs.
  set (owned := Component.ownedRefElements p this) in *.
  assert (Hslot : forall e, e ∈ owned -> slotName p e = markerOf p e).
  { intros e He. unfold slotName. rewrite Forall_forall in Hplain.
    now rewrite (Hplain e He). }
  assert (Hnaming : forall e, e ∈ owned -> namingSlot p this (markerOf p e) = [e]).
  { intros e He. unfold namingSlot. fold owned.
    rewrite <- (filter_unique_key (markerOf p) owned e Hnd He).
    apply filter_ext_in. intros x Hx.
    now rewrite (Hslot x) by now apply list_elem_of_In. }
  assert (Hlookup : forall e, e ∈ owned ->
            Component.buildRefs p this !! markerOf p e = Some (RefElement e)).
  { intros e He. rewrite buildRefs_lookup, (Hnaming e He). simpl.
    unfold slotStep. rewrite Forall_forall in Hplain. now rewrite (Hplain e He). }
  split; [exact Hlookup|].
  assert (Heq : Component.buildRefs p this
                = list_to_map (List.map (fun e => (markerOf p e, RefElement e)) owned)).
  { apply map_eq. intros name.
    destruct (Component.buildRefs p this !! name) as [v|] eqn:Hv.
    - symmetry. assert (Hs : is_Some (Component.buildRefs p this !! name)) by eauto.
      apply buildRefs_is_Some in Hs. unfold namingSlot in Hs. fold owned in Hs.
      destruct (List.filter _ owned) as [|e l] eqn:Hf; [congruence|].
      assert (He : e ∈ List.filter (fun e => String.eqb (slotName p e) name) owned)
        by (rewrite Hf; apply list_elem_of_here).
      apply filter_In_elem in He as [He Hname]. apply String.eqb_eq in Hname.
      rewrite (Hslot e He) in Hname. subst name. rewrite (Hlookup e He) in Hv.
      injection Hv as <-. apply elem_of_list_to_map_1.
      + rewrite <- list_fmap_compose. exact Hnd.
      + apply list_elem_of_In, (in_map (fun e => (markerOf p e, RefElement e))).
        now apply list_elem_of_In.
    - symmetry. apply not_elem_of_list_to_map_1. intros Hin.
      rewrite <- list_fmap_compose in Hin.
      apply list_elem_of_fmap in Hin as (e & -> & He).
      simpl in Hv. rewrite (Hlookup e He) in Hv. discriminate. }
  rewrite Heq, map_size_list_to_map.
  - apply length_map.
  - rewrite <- list_fmap_compose. exact Hnd.
Qed.

Lemma unique_markers_give_one_entry_each_witness :
  exists p',
    Component.updateRefs 1 MoreExamples.formPage = (p', Normal tt)
    /\ (forall e, e ∈ Component.ownedRefElements MoreExamples.formPage 1 ->
                  refsOf p' 1 !! markerOf MoreExamples.formPage e
                  = Some (RefElement e))
    /\ size (refsOf p' 1)
       = length (Component.ownedRefElements MoreExamples.formPage 1).
Proof.
  apply (unique_markers_give_one_entry_each MoreExamples.formPage 1
           (Examples.instance None)).
  - vm_compute. reflexivity.
  - assert (Hnames : requiredNames MoreExamples.formPage 1 = [])
      by (vm_compute; reflexivity).
    rewrite Hnames. intros r Hr. now apply elem_of_nil in Hr.
  - vm_compute. reflexivity.
  - vm_compute. repeat constructor;
      rewrite ?elem_of_cons, ?elem_of_nil; intuition discriminate.
  - vm_compute. repeat constructor.
Defined.

Lemma slotStep_fold_shape p l :
  match fold_left (slotStep p) l None with
  | None => l = []
  | Some (RefElement e) =>
      exists before, l = before ++ [e] /\ isRepeated p e = false
  | Some (RefArray a) =>
      exists before,
        l = before ++ a /\ a <> []
        /\ Forall (fun e => isRepeated p e = true) a
        /\ (before = []
            \/ exists earlier x, before = earlier ++ [x]
                                 /\ isRepeated p x = false)
  end.
Proof.
  induction l as [|e l IH] using rev_ind; [reflexivity|].
  rewrite slotStep_fold_snoc. unfold slotStep at 1.
  destruct (isRepeated p e) eqn:He.
  - destruct (fold_left (slotStep p) l None) as [[x|a]|].
    + destruct IH as (before & -> & Hx). exists (before ++ [x]).
      repeat split; [discriminate|repeat constructor; exact He|].
      right. eauto.
    + destruct IH as (before & -> & Hne & Hall & Hbefore). exists before.
      rewrite <- app_assoc. repeat split; [|
        apply Forall_app; split; [exact Hall|repeat constructor; exact He]|
        exact Hbefore].
      intros H. apply app_eq_nil in H as [_ H]. discriminate.
    + subst l. exists []. repeat split;
        [discriminate|repeat constructor; exact He|now left].
  - exists l. split; [reflexivity|exact He].
Qed.

(** X5.  A slot that holds a sequence holds the owned elements naming it
    that were discovered after the last plain marker of that name (all of
    them when there is none), in order of discovery and each once: a
    plain marker between repeated ones of the same name restarts the
    sequence. *)
Theorem repeated_slot_restarts_after_plain_marker
  (p : Page) (this : NodeId) (name : string) (a : list NodeId) :
  Component.buildRefs p this !! name = Some (RefArray a) ->
  exists before,
    namingSlot p this name = before ++ a
    /\ a <> []
    /\ NoDup a
    /\ Forall (fun e => isRepeated p e = true) a
    /\ (before = []
        \/ exists earlier x, before = earlier ++ [x] /\ isRepeated p x = false).
Proof.
  intros Hv. rewrite buildRefs_lookup in Hv.
  pose proof (slotStep_fold_shape p (namingSlot p this name)) as Hshape.
  rewrite Hv in Hshape. destruct Hshape as (before & Hl & Hne & Hall & Hbefore).
  exists before. repeat split; try assumption.
  assert (Hnd : NoDup (namingSlot p this name)).
  { unfold namingSlot. apply NoDup_ListNoDup, List.NoDup_filter, NoDup_ListNoDup.
    apply ownedRefElements_NoDup. }
  rewrite Hl in Hnd. now apply NoDup_app in Hnd as (_ & _ & Hnd).
Qed.

Lemma repeated_slot_restarts_after_plain_marker_witness :
  exists before,
    namingSlot MoreExamples.mixedPage 1 "item" = before ++ [4; 5]
    /\ [4; 5] <> []
    /\ NoDup [4; 5]
    /\ Forall (fun e => isRepeated MoreExamples.mixedPage e = true) [4; 5]
    /\ (before = []
        \/ exists earlier x, before = earlier ++ [x]
                             /\ isRepeated MoreExamples.mixedPage x = false).
Proof.
  apply (repeated_slot_restarts_after_plain_marker MoreExamples.mixedPage 1
           "item" [4; 5]).
  vm_compute. reflexivity.
Defined.

(** *** The observer's queue *)

Lemma getClosestComponentFrom_keys fuel p q node :
  nodes q = nodes p -> (forall n, isComponent q n = isComponent p n) ->
  getClosestComponentFrom fuel q node = getClosestComponentFrom fuel p node.
Proof.
  intros Hn Hc. revert node. induction fuel as [|fuel IH]; intros node; simpl;
    [reflexivity|].
  destruct node as [n|]; [|reflexivity].
  rewrite Hc. unfold isHTML, tagOf, getAncestor. rewrite Hn.
  destruct (isComponent p n); [reflexivity|].
  destruct (_ && _); [reflexivity|].
  destruct (Dom.parentOf (nodes p) n); [apply IH|].
  destruct (Dom.isShadowRoot _ _); [|reflexivity].
  destruct (_ ≫= _); [apply IH|reflexivity].
Qed.

Lemma isDescendant_keys p q this e :
  nodes q = nodes p -> (forall n, isComponent q n = isComponent p n) ->
  isDescendant q this e = isDescendant p this e.
Proof.
  intros Hn Hc. unfold isDescendant, getClosestComponent.
  rewrite (getClosestComponentFrom_keys _ p q) by assumption.
  unfold getAncestor. rewrite Hn. reflexivity.
Qed.

Lemma buildRefs_keys p q this :
  nodes q = nodes p -> (forall n, isComponent q n = isComponent p n) ->
  Component.buildRefs q this = Component.buildRefs p this.
Proof.
  intros Hn Hc.
  unfold Component.buildRefs, Component.ownedRefElements, Component.roots.
  rewrite Hn.
  erewrite (fold_left_ext (fun acc root => fold_left _ _ acc)).
  - apply fold_left_ext. intros refs e.
    unfold Component.assignRef. rewrite Hn. reflexivity.
  - intros acc root. apply fold_left_ext. intros acc' e.
    rewrite (isDescendant_keys p q) by assumption. reflexivity.
Qed.

Lemma isComponent_alter p this f n :
  isComponent (withComponents (alter f this) p) n = isComponent p n.
Proof.
  unfold isComponent, withComponents. simpl.
  destruct (decide (this = n)) as [->|Hne].
  - rewrite lookup_alter_eq. destruct (components p !! n); reflexivity.
  - now rewrite lookup_alter_ne.
Qed.

Lemma isComponent_fmap p f n :
  isComponent (withComponents (fmap f) p) n = isComponent p n.
Proof.
  unfold isComponent, withComponents. simpl. rewrite lookup_fmap.
  destruct (components p !! n); reflexivity.
Qed.

(** Emptying the queue and recomputing, the common tail of the re-render
    notification and of a delivery that finds a relevant record. *)
Lemma rescan_outcome (p : Page) (this : NodeId) (inst : Instance) :
  components p !! this = Some inst ->
  let r := Component.updateRefs this (Component.takeRecords this p) in
  records <$> components (fst r) !! this = Some []
  /\ Component.deliver this (fst r) = (fst r, Normal tt)
  /\ nodes (fst r) = nodes p
  /\ (snd r = Normal tt -> refsOf (fst r) this = Component.buildRefs p this)
  /\ (forall e, snd r = Throw e -> refsOf (fst r) this = refs inst).
Proof.
  intros Hi r. subst r.
  set (p1 := Component.takeRecords this p).
  assert (Hi1 : components p1 !! this
                = Some (mkInstance (refs inst) (requiredRefs inst) (observed inst) [])).
  { unfold p1, Component.takeRecords, withComponents. simpl.
    rewrite lookup_alter_eq, Hi. reflexivity. }
  assert (Hb : Component.buildRefs p1 this = Component.buildRefs p this).
  { apply buildRefs_keys; [reflexivity|]. intros n. apply isComponent_alter. }
  rewrite updateRefs_outcome.
  destruct (List.find _ _) as [r|]; cbn [fst snd].
  - split; [now rewrite Hi1|]. split.
    { unfold Component.deliver, bind, get. now rewrite Hi1. }
    split; [reflexivity|]. split; [discriminate|].
    intros e _. unfold refsOf. now rewrite Hi1.
  - assert (Hi2 : components (Component.setRefs this (Component.buildRefs p1 this) p1)
                  !! this
                  = Some (mkInstance (Component.buildRefs p1 this)
                            (requiredRefs inst) (observed inst) [])).
    { unfold Component.setRefs, withComponents. cbn [components].
      rewrite lookup_alter_eq, Hi1. reflexivity. }
    split; [now rewrite Hi2|]. split.
    { unfold Component.deliver, bind, get. now rewrite Hi2. }
    split; [reflexivity|]. split; [|discriminate].
    intros _. unfold refsOf. now rewrite Hi2, Hb.
Qed.

(** X9.  The re-render notification discards the pending mutation records
    and recomputes at once: afterwards the observer's queue is empty, so
    the next delivery does nothing, whether the computation completed - and
    then [refs] is the mapping built from the current DOM - or threw - and
    then [refs] is the previous mapping. *)
Theorem updated_discards_records_and_recomputes
  (p : Page) (this : NodeId) (inst : Instance) :
  components p !! this = Some inst ->
  let p' := fst (Component.updatedCallback this p) in
  let outcome := snd (Component.updatedCallback this p) in
  records <$> components p' !! this = Some []
  /\ Component.deliver this p' = (p', Normal tt)
  /\ nodes p' = nodes p
  /\ (outcome = Normal tt -> refsOf p' this = Component.buildRefs p this)
  /\ (forall e, outcome = Throw e -> refsOf p' this = refsOf p this).
Proof.
  intros Hi p' outcome. subst p' outcome.
  change (Component.updatedCallback this p)
    with (Component.updateRefs this (Component.takeRecords this p)).
  replace (refsOf p this) with (refs inst) by (unfold refsOf; now rewrite Hi).
  exact (rescan_outcome p this inst Hi).
Qed.

Lemma updated_discards_records_and_recomputes_witness :
  let p := Histories.listRemoved 4 in
  let p' := fst (Component.updatedCallback 1 p) in
  let outcome := snd (Component.updatedCallback 1 p) in
  records <$> components p' !! 1 = Some []
  /\ Component.deliver 1 p' = (p', Normal tt)
  /\ nodes p' = nodes p
  /\ (outcome = Normal tt -> refsOf p' 1 = Component.buildRefs p 1)
  /\ (forall e, outcome = Throw e -> refsOf p' 1 = refsOf p 1).
Proof.
  intros p.
  eapply (updated_discards_records_and_recomputes p 1).
  vm_compute. reflexivity.
Defined.

(** X8.  An element appended under an observed node is picked up: when the
    observer's queue was empty and the appended node passes
    [#isDescendant] once in place, the next delivery empties the queue and
    recomputes, so that on completion [refs] is the mapping built from the
    DOM that contains the new element, and on a throw [refs] is the
    previous mapping. *)
Theorem appended_element_is_rescanned
  (p : Page) (this parent child : NodeId) (inst : Instance) :
  components p !! this = Some inst ->
  records inst = [] ->
  Environment.interested p parent inst = true ->
  isDescendant (Environment.appendChild parent child p) this child = true ->
  let p1 := Environment.appendChild parent child p in
  let p' := fst (Component.deliver this p1) in
  let outcome := snd (Component.deliver this p1) in
  records <$> components p' !! this = Some []
  /\ nodes p' = nodes p1
  /\ (outcome = Normal tt -> refsOf p' this = Component.buildRefs p1 this)
  /\ (forall e, outcome = Throw e -> refsOf p' this = refsOf p this).
Proof.
  intros Hi Hrec Hint Hdesc p1. fold p1 in Hdesc.
  set (m := mkRecord ChildListMutation parent [child] []).
  set (inst1 := mkInstance (refs inst) (requiredRefs inst) (observed inst) [m]).
  assert (Hi1 : components p1 !! this = Some inst1).
  { unfold p1, Environment.appendChild, withNodes, Environment.queueRecord,
      withComponents. cbn [components mTarget].
    rewrite lookup_fmap, Hi. cbn [fmap option_fmap option_map].
    fold m. cbn [mTarget m]. rewrite Hint, Hrec. reflexivity. }
  assert (Hdeliver : Component.deliver this p1
                     = Component.updateRefs this (Component.takeRecords this p1)).
  { unfold Component.deliver, bind, get, modify. rewrite Hi1.
    cbn [fmap option_fmap option_map records inst1 fst snd].
    unfold Component.mutationCallback, bind, get.
    cbn [existsb Component.relevantMutation mType m addedNodes removedNodes app].
    rewrite (isDescendant_keys p1 (Component.takeRecords this p1))
      by (try reflexivity; intros n; apply isComponent_alter).
    rewrite Hdesc. reflexivity. }
  intros p' outcome. subst p' outcome. rewrite Hdeliver.
  destruct (rescan_outcome p1 this inst1 Hi1) as (H1 & _ & H3 & H4 & H5).
  replace (refsOf p this) with (refs inst1)
    by (unfold refsOf; now rewrite Hi).
  repeat split; assumption.
Qed.

Lemma appended_element_is_rescanned_witness :
  let p := MoreHistories.growObserving in
  let p1 := Environment.appendChild 1 6 p in
  let p' := fst (Component.deliver 1 p1) in
  let outcome := snd (Component.deliver 1 p1) in
  records <$> components p' !! 1 = Some []
  /\ nodes p' = nodes p1
  /\ (outcome = Normal tt -> refsOf p' 1 = Component.buildRefs p1 1)
  /\ (forall e, outcome = Throw e -> refsOf p' 1 = refsOf p 1).
Proof.
  intros p.
  eapply (appended_element_is_rescanned p 1 1 6).
  - vm_compute. reflexivity.
  - reflexivity.
  - vm_compute. reflexivity.
  - vm_compute. reflexivity.
Defined.

Lemma existsb_never {A} (f : A -> bool) (l : list A) :
  (forall a, f a = false) -> existsb f l = false.
Proof. intros H. induction l; simpl; [reflexivity|]. now rewrite H. Qed.

(** *** The router *)

Lemma existsb_eqb_elem (s : string) (l : list string) :
  existsb (String.eqb s) l = true <-> s ∈ l.
Proof.
  induction l as [|x l IH]; simpl.
  - split; [discriminate|]. intros H. now apply elem_of_nil in H.
  - rewrite orb_true_iff, IH, elem_of_cons, String.eqb_eq. reflexivity.
Qed.

Lemma closestAttrFrom_nearest fuel d n attr el :
  Dom.closestAttrFrom fuel d n attr = Some el ->
  Dom.isElement d el = true
  /\ Dom.hasAttribute d el attr = true
  /\ exists before after,
       DomOps.inclusiveAncestorsFrom fuel d n = before ++ el :: after
       /\ Forall (fun a => Dom.isElement d a = true
                           /\ Dom.hasAttribute d a attr = false) before.
Proof.
  revert n. induction fuel as [|fuel IH]; intros n; simpl; [discriminate|].
  destruct (Dom.isElement d n) eqn:He; [|discriminate].
  destruct (Dom.hasAttribute d n attr) eqn:Ha.
  - intros [= <-]. split; [exact He|]. split; [exact Ha|].
    exists [], (match Dom.parentOf d n with
                | Some p => DomOps.inclusiveAncestorsFrom fuel d p
                | None => []
                end).
    split; [reflexivity|constructor 1].
  - destruct (Dom.parentOf d n) as [p|]; [|discriminate].
    intros H. destruct (IH p H) as (H1 & H2 & before & after & Hl & Hf).
    split; [exact H1|]. split; [exact H2|].
    exists (n :: before), after. split; [now rewrite Hl|].
    constructor 2; [now split|exact Hf].
Qed.

(** X11.  The element [getElement] answers with is the binding element of
    the event: an element that carries [on:<type>], found on the parent
    chain of the originating node with only unmarked elements before it.
    It is another node than the origin only for an event that bubbles or
    is a [focus] or [blur], and never for [pointerenter] or
    [pointerleave]. *)
Theorem getElement_is_nearest_binding (p : Page) (event : Event) (el : NodeId) :
  Router.getElement p event = Some el ->
  Dom.isElement (nodes p) el = true
  /\ Dom.hasAttribute (nodes p) el ("on:" +:+ eType event) = true
  /\ (exists before after,
        DomOps.inclusiveAncestors (nodes p) (originOf event)
        = before ++ el :: after
        /\ Forall (fun a => Dom.isElement (nodes p) a = true
                            /\ Dom.hasAttribute (nodes p) a
                                 ("on:" +:+ eType event) = false) before)
  /\ (el <> originOf event ->
      (eType event ∉ expensiveEvents)
      /\ (bubbles event = true \/ eType event ∈ shouldBubble)).
Proof.
  unfold Router.getElement.
  change (match composedPath event with
          | Some (t :: _) => t
          | _ => eTarget event
          end) with (originOf event).
  destruct (Dom.isElement (nodes p) (originOf event)) eqn:He;
    cbn [negb]; [|discriminate].
  destruct (Dom.hasAttribute (nodes p) (originOf event) _) eqn:Ha.
  - intros [= <-]. split; [exact He|]. split; [exact Ha|]. split.
    + unfold DomOps.inclusiveAncestors, Dom.depthBound.
      cbn [DomOps.inclusiveAncestorsFrom].
      eexists [], _. split; [reflexivity|constructor 1].
    + intros Hne. now contradiction Hne.
  - destruct (existsb (String.eqb (eType event)) expensiveEvents) eqn:Hx;
      [discriminate|].
    destruct (bubbles event || existsb (String.eqb (eType event)) shouldBubble)
      eqn:Hb; [|discriminate].
    intros H. apply closestAttrFrom_nearest in H as (H1 & H2 & H3).
    split; [exact H1|]. split; [exact H2|]. split; [exact H3|].
    intros _. split.
    + intros Hin. apply existsb_eqb_elem in Hin. congruence.
    + apply orb_true_iff in Hb as [Hb|Hb]; [now left|right].
      now apply existsb_eqb_elem.
Qed.

Lemma getElement_is_nearest_binding_witness :
  Dom.isElement (nodes Examples.routerPage) 2 = true
  /\ Dom.hasAttribute (nodes Examples.routerPage) 2 "on:click" = true
  /\ (exists before after,
        DomOps.inclusiveAncestors (nodes Examples.routerPage) 3
        = before ++ 2 :: after
        /\ Forall (fun a => Dom.isElement (nodes Examples.routerPage) a = true
                            /\ Dom.hasAttribute (nodes Examples.routerPage) a
                                 "on:click" = false) before)
  /\ (2 <> 3 ->
      ("click" ∉ expensiveEvents)
      /\ (true = true \/ "click" ∈ shouldBubble)).
Proof.
  apply (getElement_is_nearest_binding Examples.routerPage (Examples.clickOn 3) 2).
  vm_compute. reflexivity.
Defined.

Lemma filter_eqb_NoDup (t : string) (l : list string) :
  NoDup l ->
  List.filter (String.eqb t) l = if bool_decide (t ∈ l) then [t] else [].
Proof.
  induction 1 as [|x l Hx Hnd IH]; [reflexivity|].
  cbn [List.filter]. rewrite IH.
  destruct (String.eqb t x) eqn:E.
  - apply String.eqb_eq in E as ->.
    rewrite (bool_decide_eq_false_2 _ Hx).
    rewrite bool_decide_eq_true_2 by apply list_elem_of_here. reflexivity.
  - apply String.eqb_neq in E.
    destruct (bool_decide (t ∈ l)) eqn:Hin.
    + apply bool_decide_eq_true_1 in Hin.
      rewrite bool_decide_eq_true_2 by now apply list_elem_of_further.
      reflexivity.
    + apply bool_decide_eq_false_1 in Hin.
      rewrite bool_decide_eq_false_2; [reflexivity|].
      intros [->|H']%elem_of_cons; contradiction.
Qed.

Lemma installed_names_NoDup : NoDup (events ++ expensiveEvents).
Proof.
  apply (bool_decide_unpack _). vm_compute. exact I.
Qed.

Section RouterRuns.

Variable methods : NodeId -> string -> option Handler.
Variable engine : SelectorEngine.

(** One run of a listener, with what it read on the way to the call. *)
Lemma listener_detail eventName event w :
  Router.listener methods engine eventName event w = (w, Normal tt)
  \/ Router.listener methods engine eventName event w
     = (w, Throw (DOMException "SyntaxError"))
  \/ exists el inst c m h,
       let value := default EmptyString
                      (Dom.getAttribute (nodes (page w)) el ("on:" +:+ eventName)) in
       let args := handlerArgs value event el in
       Router.getElement (page w) event = Some el
       /\ Router.resolveInstance engine (page w)
            (nth 0 (Js.split "/" value) EmptyString) el w
          = (w, Normal (Some inst))
       /\ nth_error (Js.split "/" value) 1 = Some (String c m)
       /\ isComponent (page w) inst = true
       /\ methods inst (Router.stripQuery (String c m)) = Some h
       /\ Router.listener methods engine eventName event w
          = (mkWorld (fst (h args (page w)))
                     (calls w ++ [mkCall inst (Router.stripQuery (String c m)) args])
                     (console w ++ match snd (h args (page w)) with
                                   | Throw e => [e]
                                   | Normal _ => []
                                   end)
                     (uncaught w),
             Normal tt).
Proof.
  destruct (Router.getElement (page w) event) as [element|] eqn:Hel.
  2:{ left. unfold Router.listener, bind, get. now rewrite Hel. }
  set (value := default EmptyString
         (Dom.getAttribute (nodes (page w)) element ("on:" +:+ eventName))).
  destruct (resolveInstance_pure engine (page w)
              (nth 0 (Js.split "/" value) EmptyString) element w) as [r Hres].
  destruct r as [inst|e].
  2:{ right. left. unfold Router.listener, bind, get.
      rewrite Hel. fold value. rewrite Hres. f_equal. f_equal.
      revert Hres. unfold Router.resolveInstance, Router.ofSelector, ret, throw.
      repeat match goal with
             | |- context [match ?x with _ => _ end] => destruct x
             end; congruence. }
  destruct inst as [inst|], (nth_error (Js.split "/" value) 1) as [[|c m]|] eqn:Hm;
    try (left; unfold Router.listener, bind, get;
         rewrite Hel; fold value; rewrite Hres, ?Hm; reflexivity).
  destruct (isComponent (page w) inst) eqn:Hc.
  2:{ left. unfold Router.listener, bind, get.
      rewrite Hel. fold value. rewrite Hres, Hm, Hc. reflexivity. }
  destruct (methods inst (Router.stripQuery (String c m))) as [h|] eqn:Hh.
  2:{ left. unfold Router.listener, bind, get.
      rewrite Hel. fold value. rewrite Hres, Hm, Hc, Hh. reflexivity. }
  right. right. exists element, inst, c, m, h. cbv zeta. fold value.
  split; [reflexivity|]. split; [exact Hres|]. split; [exact Hm|].
  split; [exact Hc|]. split; [exact Hh|].
  now apply (listener_hit methods engine eventName event w element value inst c m h).
Qed.

End RouterRuns.

(** X12.  With the router installed, one dispatched event runs at most one
    listener and that listener makes at most one call.  An event whose
    type is not among the twelve installed names changes nothing.
    Otherwise either nothing changes; or the selector engine rejects the
    selector segment and the error is reported as uncaught, nothing else
    changing; or one method is called: on a node that is a [Component],
    resolved from the binding element [getElement] found, named by the
    second [/]-segment of the marker up to its first [?], with the
    arguments built from the marker and the event, whose exception, if
    any, goes to the console. *)
Theorem dispatch_routes_at_most_once
  (methods : NodeId -> string -> option Handler) (engine : SelectorEngine)
  (w : World) (event : Event) :
  routerInstalled (page w) ->
  let w' := Router.dispatchEvent methods engine event w in
  (eType event ∉ events ++ expensiveEvents -> w' = w)
  /\ (w' = w
      \/ w' = mkWorld (page w) (calls w) (console w)
                      (uncaught w ++ [DOMException "SyntaxError"])
      \/ exists el inst c m h,
           let value := default EmptyString
                          (Dom.getAttribute (nodes (page w)) el
                             ("on:" +:+ eType event)) in
           let args := handlerArgs value event el in
           Router.getElement (page w) event = Some el
           /\ Router.resolveInstance engine (page w)
                (nth 0 (Js.split "/" value) EmptyString) el w
              = (w, Normal (Some inst))
           /\ nth_error (Js.split "/" value) 1 = Some (String c m)
           /\ isComponent (page w) inst = true
           /\ methods inst (Router.stripQuery (String c m)) = Some h
           /\ w' = mkWorld (fst (h args (page w)))
                     (calls w ++ [mkCall inst (Router.stripQuery (String c m)) args])
                     (console w ++ match snd (h args (page w)) with
                                   | Throw e => [e]
                                   | Normal _ => []
                                   end)
                     (uncaught w)).
Proof.
  intros [_ Hl] w'. subst w'. unfold Router.dispatchEvent.
  rewrite Hl, (filter_eqb_NoDup _ _ installed_names_NoDup).
  case_bool_decide as Hin.
  2:{ split; [reflexivity|]. left. reflexivity. }
  split; [intros Hn; contradiction|].
  cbn [fold_left]. unfold Router.runListener.
  destruct (listener_detail methods engine (eType event) event w)
    as [H|[H|(el & inst & c & m & h & H)]].
  - rewrite H. now left.
  - rewrite H. right. now left.
  - cbv zeta in H. destruct H as (H1 & H2 & H3 & H4 & H5 & H6).
    rewrite H6. right. right. exists el, inst, c, m, h. cbv zeta.
    repeat (split; [assumption|]). reflexivity.
Qed.

Lemma dispatch_routes_at_most_once_witness :
  routerInstalled (page Histories.routerReady)
  /\ Router.dispatchEvent Examples.quietSubmit Examples.simpleEngine
       (mkEvent "mouseover" 2 (Some [2]) true) Histories.routerReady
     = Histories.routerReady.
Proof.
  assert (H : routerInstalled (page Histories.routerReady))
    by (split; vm_compute; reflexivity).
  split; [exact H|].
  apply (dispatch_routes_at_most_once Examples.quietSubmit Examples.simpleEngine
           Histories.routerReady (mkEvent "mouseover" 2 (Some [2]) true) H).
  intros Hin. apply existsb_eqb_elem in Hin. vm_compute in Hin. discriminate.
Defined.

(** *** The marker grammar *)

Lemma span_spec {A} (f : A -> bool) (l a b : list A) :
  Js.span f l = (a, b) ->
  l = a ++ b /\ forallb f a = true
  /\ match b with [] => True | x :: _ => f x = false end.
Proof.
  revert a b. induction l as [|x l IH]; intros a b; simpl.
  - intros [= <- <-]. auto.
  - destruct (f x) eqn:Hx.
    + destruct (Js.span f l) as [a' b'] eqn:Hs. intros [= <- <-].
      destruct (IH a' b' eq_refl) as (-> & Hall & Hb).
      simpl. rewrite Hx, Hall. auto.
    + intros [= <- <-]. simpl. auto.
Qed.

Lemma span_app {A} (f : A -> bool) (a : list A) (x : A) (b : list A) :
  forallb f a = true -> f x = false -> Js.span f (a ++ x :: b) = (a, x :: b).
Proof.
  intros Ha Hx. induction a as [|y a IH]; simpl.
  - now rewrite Hx.
  - simpl in Ha. apply andb_true_iff in Ha as [Hy Ha].
    now rewrite Hy, (IH Ha).
Qed.

Lemma forallb_rev {A} (f : A -> bool) (l : list A) :
  forallb f (rev l) = forallb f l.
Proof.
  induction l as [|x l IH]; [reflexivity|].
  simpl. rewrite forallb_app, IH. simpl. rewrite andb_true_r. apply andb_comm.
Qed.

Lemma chars_str (l : list ascii) : Js.chars (Js.str l) = l.
Proof. apply list_ascii_of_string_of_list_ascii. Qed.

Lemma str_chars (s : string) : Js.str (Js.chars s) = s.
Proof. apply string_of_list_ascii_of_string. Qed.

(** X13.  The data segment of a marker value is what the pattern
    [([/?][^/?]+)([/?][^/?]+)$] captures second: it is present exactly
    when the value ends with a delimiter, a non-empty run free of
    delimiters, a delimiter and another such run, and it is then the last
    delimiter with the last run. *)
Theorem trailingData_is_last_of_two_segments (value d : string) :
  Router.trailingData value = Some d
  <-> exists pre d1 run1 d2 run2,
        Js.chars value = pre ++ d1 :: run1 ++ d2 :: run2
        /\ Router.isDelimiter d1 = true /\ Router.isDelimiter d2 = true
        /\ run1 <> [] /\ run2 <> []
        /\ forallb Router.notDelimiter run1 = true
        /\ forallb Router.notDelimiter run2 = true
        /\ d = Js.str (d2 :: run2).
Proof.
  unfold Router.trailingData. split.
  - destruct (Js.span Router.notDelimiter (rev (Js.chars value)))
      as [run2 before2] eqn:H2.
    apply span_spec in H2 as (Hrev & Hall2 & Hd2).
    destruct run2 as [|c2 run2]; [discriminate|].
    destruct before2 as [|d2 before1]; [discriminate|].
    destruct (Js.span Router.notDelimiter before1) as [run1 before0] eqn:H1.
    apply span_spec in H1 as (-> & Hall1 & Hd1).
    destruct run1 as [|c1 run1]; [discriminate|].
    destruct before0 as [|d1 pre]; [discriminate|].
    intros [= <-].
    exists (rev pre), d1, (rev (c1 :: run1)), d2, (rev (c2 :: run2)).
    split.
    { rewrite <- (rev_involutive (Js.chars value)), Hrev.
      rewrite rev_app_distr. cbn [rev]. rewrite rev_app_distr. cbn [rev].
      rewrite <- !app_assoc. reflexivity. }
    unfold Router.notDelimiter in Hd1, Hd2.
    apply negb_false_iff in Hd1, Hd2.
    split; [exact Hd1|]. split; [exact Hd2|].
    split; [cbn [rev]; intros H; now apply app_eq_nil in H as [_ [=]]|].
    split; [cbn [rev]; intros H; now apply app_eq_nil in H as [_ [=]]|].
    rewrite !forallb_rev. auto.
  - intros (pre & d1 & run1 & d2 & run2 & Hv & Hd1 & Hd2 & Hn1 & Hn2 & Ha1 & Ha2 & ->).
    rewrite Hv. rewrite rev_app_distr. cbn [rev].
    rewrite rev_app_distr. cbn [rev]. rewrite <- !app_assoc. cbn [app].
    rewrite span_app;
      [|now rewrite forallb_rev
       |unfold Router.notDelimiter; now rewrite Hd2].
    destruct (rev run2) as [|c2 r2] eqn:Hr2.
    { apply (f_equal (@rev ascii)) in Hr2. rewrite rev_involutive in Hr2.
      now contradiction Hn2. }
    rewrite span_app;
      [|now rewrite forallb_rev
       |unfold Router.notDelimiter; now rewrite Hd1].
    destruct (rev run1) as [|c1 r1] eqn:Hr1.
    { apply (f_equal (@rev ascii)) in Hr1. rewrite rev_involutive in Hr1.
      now contradiction Hn1. }
    rewrite <- Hr2, rev_involutive. reflexivity.
Qed.

(** *** Marker data *)

Lemma fromEntries_lookup (entries : list (string * Js.Value)) (k : string) :
  Router.fromEntries entries !! k
  = snd <$> last (List.filter (fun kv => String.eqb (fst kv) k) entries).
Proof.
  unfold Router.fromEntries.
  induction entries as [|[k' v] entries IH] using rev_ind; [reflexivity|].
  rewrite fold_left_app, List.filter_app. cbn [fold_left List.filter fst snd].
  destruct (String.eqb k' k) eqn:E.
  - apply String.eqb_eq in E as ->.
    rewrite lookup_insert_eq, last_snoc. reflexivity.
  - apply String.eqb_neq in E.
    rewrite lookup_insert_ne by exact E. rewrite app_nil_r. exact IH.
Qed.

(** X15.  [parseData] dispatches on the first character of its argument.
    After any character but [?] the rest is coerced as one value.  After
    [?] the rest is read as a query string into an object with one
    property per name, holding the coerced value of the last pair with
    that name; a name that occurs in no pair is absent. *)
Theorem parseData_keeps_last_duplicate (c : ascii) (rest : string) :
  (c <> "?"%char ->
   Router.parseData (String c rest) = DataValue (Router.parseValue rest))
  /\ exists o,
       Router.parseData (String "?" rest) = DataObject o
       /\ forall k,
            o !! k
            = Router.parseValue
                <$> (snd <$> last (List.filter
                                     (fun kv => String.eqb (fst kv) k)
                                     (Router.urlSearchParams rest))).
Proof.
  split.
  - intros Hc. unfold Router.parseData. cbn [Js.slice_1].
    rewrite bool_decide_eq_false_2 by congruence. reflexivity.
  - eexists. split; [reflexivity|]. intros k.
    rewrite fromEntries_lookup.
    change (Js.slice_1 (String "?" rest)) with rest.
    induction (Router.urlSearchParams rest) as [|[k' v] l IH] using rev_ind;
      [reflexivity|].
    rewrite map_app, !List.filter_app. cbn [List.map List.filter fst snd].
    destruct (String.eqb k' k).
    + rewrite !last_snoc. reflexivity.
    + rewrite !app_nil_r. exact IH.
Qed.

Lemma parseData_keeps_last_duplicate_witness :
  Router.parseData "/3" = DataValue (Router.parseValue "3").
Proof.
  apply (parseData_keeps_last_duplicate "/" "3"). discriminate.
Defined.

(** *** Value coercion *)

Ltac each_ascii c :=
  destruct c as [[] [] [] [] [] [] [] []].

Lemma digit_is_plain (c : ascii) :
  Js.isDigit c = true ->
  Js.isSpace c = false
  /\ Ascii.eqb c "t" = false /\ Ascii.eqb c "f" = false
  /\ Ascii.eqb c "I" = false
  /\ (Ascii.eqb c "x" || Ascii.eqb c "X") = false
  /\ (Ascii.eqb c "o" || Ascii.eqb c "O") = false
  /\ (Ascii.eqb c "b" || Ascii.eqb c "B") = false.
Proof.
  each_ascii c; intros H; vm_compute in H; try discriminate H;
    vm_compute; repeat split.
Qed.

Lemma signOf_digit (c : ascii) (rest : list ascii) :
  Js.isDigit c = true -> Js.signOf (c :: rest) = (false, c :: rest).
Proof.
  each_ascii c; intros H; vm_compute in H; try discriminate H; reflexivity.
Qed.

Lemma nonDecimal_digits (l : list ascii) :
  forallb Js.isDigit l = true -> Js.nonDecimal l = None.
Proof.
  destruct l as [|c [|p ds]]; [reflexivity| |].
  - intros _. each_ascii c; reflexivity.
  - cbn [forallb]. intros H.
    apply andb_true_iff in H as [_ H]. apply andb_true_iff in H as [Hp _].
    destruct (digit_is_plain p Hp) as (_ & _ & _ & _ & Hx & Ho & Hb).
    each_ascii c; try reflexivity.
    cbn [Js.nonDecimal]. now rewrite Hx, Ho, Hb.
Qed.

Lemma dropSpaces_digits (l : list ascii) :
  forallb Js.isDigit l = true -> Js.dropSpaces l = l.
Proof.
  destruct l as [|c l]; [reflexivity|]. cbn [forallb Js.dropSpaces].
  intros H. apply andb_true_iff in H as [Hc _].
  destruct (digit_is_plain c Hc) as (-> & _). reflexivity.
Qed.

Lemma dropSpaces_spaces (l : list ascii) :
  forallb Js.isSpace l = true -> Js.dropSpaces l = [].
Proof.
  induction l as [|c l IH]; [reflexivity|]. cbn [forallb Js.dropSpaces].
  intros H. apply andb_true_iff in H as [-> H]. auto.
Qed.

Lemma span_all {A} (f : A -> bool) (l : list A) :
  forallb f l = true -> Js.span f l = (l, []).
Proof.
  induction l as [|x l IH]; [reflexivity|]. cbn [forallb Js.span].
  intros H. apply andb_true_iff in H as [-> H]. now rewrite IH.
Qed.

Lemma digitsVal_digits (l : list ascii) (acc : N) :
  forallb Js.isDigit l = true -> is_Some (Js.digitsVal 10 acc l).
Proof.
  revert acc. induction l as [|c l IH]; intros acc; [now eexists|].
  cbn [forallb Js.digitsVal]. intros H. apply andb_true_iff in H as [Hc H].
  unfold Js.isDigit in Hc.
  destruct (Js.digitVal 10 c); [now apply IH|discriminate].
Qed.

Lemma trim_digits (s : string) :
  forallb Js.isDigit (Js.chars s) = true -> Js.trim s = s.
Proof.
  intros H. unfold Js.trim. rewrite (dropSpaces_digits _ H).
  rewrite dropSpaces_digits by now rewrite forallb_rev.
  rewrite rev_involutive. apply str_chars.
Qed.

Lemma Number_digits (s : string) (m : N) :
  Js.chars s <> [] -> forallb Js.isDigit (Js.chars s) = true ->
  Js.digitsVal 10 0 (Js.chars s) = Some m ->
  Js.Number s = Js.Finite false m 0.
Proof.
  intros Hne Hall Hm. unfold Js.Number. rewrite (trim_digits s Hall).
  destruct (Js.chars s) as [|c rest] eqn:Hs; [contradiction|].
  rewrite (nonDecimal_digits _ Hall).
  assert (Hc : Js.isDigit c = true)
    by (cbn [forallb] in Hall; now apply andb_true_iff in Hall as [? _]).
  rewrite (signOf_digit c rest Hc).
  destruct (digit_is_plain c Hc) as (_ & _ & _ & HI & _).
  change (Js.str (c :: rest)) with (String c (Js.str rest)).
  cbn [String.eqb]. rewrite HI.
  unfold Js.unsignedDecimal. rewrite (span_all _ _ Hall).
  cbn [negb andb Js.exponentPart length]. rewrite app_nil_r, Hm. reflexivity.
Qed.

(** X14.  What [parseValue] makes of a string.  One made only of ASCII
    white space - the empty string included - is returned as it is,
    although [Number] reads it as zero; a non-empty run of decimal digits
    becomes a number, and when the digits denote at most [2 ^ 53], where
    every integer is a double, it is the number they denote; a number
    result is never [NaN]; and a string result is always the argument
    itself. *)
Theorem parseValue_coercions (s : string) :
  (forallb Js.isSpace (Js.chars s) = true -> Router.parseValue s = Js.VStr s)
  /\ (Js.chars s <> [] -> forallb Js.isDigit (Js.chars s) = true ->
      exists m, Js.digitsVal 10 0 (Js.chars s) = Some m
                /\ (exists n, Router.parseValue s = Js.VNum n)
                /\ ((m <= 2 ^ 53)%N ->
                    Router.parseValue s = Js.VNum (Js.Finite false m 0)))
  /\ (forall n, Router.parseValue s = Js.VNum n -> n <> Js.NaN)
  /\ (forall t, Router.parseValue s = Js.VStr t -> t = s).
Proof.
  split; [|split; [|split]].
  - intros H. unfold Router.parseValue.
    assert (Ht : Js.trim s = EmptyString).
    { unfold Js.trim. now rewrite (dropSpaces_spaces _ H). }
    destruct (String.eqb s "true") eqn:E1.
    { apply String.eqb_eq in E1. subst s. discriminate H. }
    destruct (String.eqb s "false") eqn:E2.
    { apply String.eqb_eq in E2. subst s. discriminate H. }
    rewrite Ht. cbn [String.eqb negb]. now rewrite andb_false_r.
  - intros Hne Hall.
    destruct (digitsVal_digits _ 0%N Hall) as [m Hm]. exists m.
    split; [exact Hm|].
    assert (Hv : Router.parseValue s = Js.VNum (Js.Finite false m 0)).
    { unfold Router.parseValue.
      rewrite (Number_digits s m Hne Hall Hm), (trim_digits s Hall).
      destruct s as [|c rest]; [now contradiction Hne|].
      assert (Hc : Js.isDigit c = true)
        by (cbn [forallb Js.chars list_ascii_of_string] in Hall;
            now apply andb_true_iff in Hall as [? _]).
      destruct (digit_is_plain c Hc) as (_ & Ht & Hf & _).
      cbn [String.eqb]. rewrite Ht, Hf. reflexivity. }
    split; [eexists; exact Hv|]. intros _. exact Hv.
  - intros n. unfold Router.parseValue.
    destruct (String.eqb s "true"); [discriminate|].
    destruct (String.eqb s "false"); [discriminate|].
    destruct (Js.isNaN (Js.Number s)) eqn:E; cbn [negb andb]; [discriminate|].
    destruct (negb _); [|discriminate].
    intros [= <-] Hn. now rewrite Hn in E.
  - intros t. unfold Router.parseValue.
    destruct (String.eqb s "true"); [discriminate|].
    destruct (String.eqb s "false"); [discriminate|].
    destruct (_ && _); [discriminate|]. now intros [= <-].
Qed.

Lemma parseValue_coercions_witness :
  Router.parseValue "42" = Js.VNum (Js.Finite false 42 0)
  /\ Router.parseValue "  " = Js.VStr "  ".
Proof.
  split.
  - destruct (parseValue_coercions "42") as (_ & Hdigits & _).
    destruct Hdigits as (m & Hm & _ & Hv); [discriminate|reflexivity|].
    injection Hm as <-. apply Hv. vm_compute. discriminate.
  - now apply (parseValue_coercions "  ").
Defined.

(** *** The scheduler under interleaving *)

Lemma scheduler_setAdd_NoDup t q : NoDup q -> NoDup (Scheduler.setAdd t q).
Proof.
  intros H. unfold Scheduler.setAdd. case_bool_decide as Hin; [exact H|].
  apply NoDup_app. split; [exact H|]. split; [|apply NoDup_singleton].
  intros x Hx Hx'. apply list_elem_of_singleton in Hx' as ->. contradiction.
Qed.

Lemma scheduler_setAdd_nonempty t q : Scheduler.setAdd t q <> [].
Proof.
  unfold Scheduler.setAdd. case_bool_decide as Hin.
  - intros ->. now apply elem_of_nil in Hin.
  - intros H. now apply app_eq_nil in H as [_ [=]].
Qed.

Lemma atRest_flushPending s : Scheduler.atRest s -> flushPending s.
Proof.
  intros (Hq & Hs & Ha & Hf & _). unfold flushPending.
  rewrite Hq, Hs, Ha, Hf. split; [constructor 1|]. split; [reflexivity|].
  split; intros H; now contradiction H.
Qed.

Lemma loopStep_flushPending s e : flushPending s -> flushPending (loopStep s e).
Proof.
  destruct s as [q sc tr aw fr tm ex]. unfold flushPending.
  cbn [Scheduler.queue Scheduler.scheduled Scheduler.transition
       Scheduler.awaiting Scheduler.frameRequests].
  intros (Hnd & Hsum & Hq & Ha).
  destruct e as [t| | | |]; cbn [loopStep].
  - unfold Scheduler.schedule.
    cbn [Scheduler.queue Scheduler.scheduled Scheduler.transition
         Scheduler.awaiting Scheduler.frameRequests].
    destruct sc; cbn [negb].
    + cbn. split; [now apply scheduler_setAdd_NoDup|]. auto.
    + destruct tr; cbn;
        (split; [now apply scheduler_setAdd_NoDup|]);
        (split; [lia|]); split; auto; intros; lia.
  - cbn. split; [exact Hnd|]. split; [exact Hsum|]. split; auto.
  - cbn. split; [exact Hnd|]. split; [lia|]. split; [exact Hq|].
    intros H. now contradiction H.
  - unfold Scheduler.animationFrame.
    cbn [Scheduler.queue Scheduler.scheduled Scheduler.transition
         Scheduler.awaiting Scheduler.frameRequests Scheduler.timers
         Scheduler.executed].
    destruct fr as [|[|fr]].
    + cbn. split; [exact Hnd|]. split; [lia|]. split; assumption.
    + cbn. split; [constructor 1|]. split; [destruct sc; lia|].
      split; [intros H; now contradiction H|exact Ha].
    + destruct sc; lia.
  - unfold Scheduler.runTimer. cbn [Scheduler.timers].
    destruct tm; cbn; (split; [exact Hnd|]); (split; [exact Hsum|]);
      split; assumption.
Qed.

Lemma runLoop_flushPending steps s :
  flushPending s -> flushPending (runLoop steps s).
Proof.
  revert s. unfold runLoop.
  induction steps as [|e steps IH]; intros s H; [exact H|].
  cbn [fold_left]. apply IH. now apply loopStep_flushPending.
Qed.

(** From a state where the flush is on the way, the loop drains. *)
Lemma settle_flushPending s :
  flushPending s ->
  settle s
  = Scheduler.mkLoop [] false false 0 0 []
      (Scheduler.executed s ++ Scheduler.timers s ++ Scheduler.queue s).
Proof.
  intros Hinv.
  destruct s as [q sc tr aw fr tm ex]. unfold flushPending in Hinv.
  cbn [Scheduler.queue Scheduler.scheduled Scheduler.transition
       Scheduler.awaiting Scheduler.frameRequests] in Hinv.
  destruct Hinv as (_ & Hsum & Hq & Ha).
  unfold settle. cbn [Scheduler.transition Scheduler.executed Scheduler.timers
                      Scheduler.queue].
  assert (Hcases : (sc = true /\ aw + fr = 1)
                   \/ (sc = false /\ q = [] /\ aw = 0 /\ fr = 0)).
  { destruct sc; [left; split; [reflexivity|lia]|right].
    split; [reflexivity|]. split; [|lia].
    destruct q; [reflexivity|]. now discriminate Hq. }
  destruct tr.
  - unfold Scheduler.finishTransition, Scheduler.animationFrame.
    cbn [Scheduler.queue Scheduler.scheduled Scheduler.transition
         Scheduler.awaiting Scheduler.frameRequests Scheduler.timers
         Scheduler.executed].
    destruct Hcases as [[-> Hs]|(-> & -> & -> & ->)].
    + replace (fr + aw) with 1 by lia. cbn [Nat.iter nat_rect].
      rewrite runTimers_spec. reflexivity.
    + cbn [Nat.add Nat.iter nat_rect]. rewrite runTimers_spec. cbn.
      now rewrite app_nil_r.
  - assert (aw = 0) as ->.
    { destruct aw; [reflexivity|]. now discriminate Ha. }
    unfold Scheduler.animationFrame.
    cbn [Scheduler.queue Scheduler.scheduled Scheduler.transition
         Scheduler.awaiting Scheduler.frameRequests Scheduler.timers
         Scheduler.executed].
    destruct Hcases as [[-> Hs]|(-> & -> & _ & ->)].
    + replace fr with 1 by lia. cbn [Nat.iter nat_rect].
      rewrite runTimers_spec. reflexivity.
    + cbn [Nat.iter nat_rect]. rewrite runTimers_spec. cbn.
      now rewrite app_nil_r.
Qed.

(** X16.  However calls of [schedule], view transitions, animation frames
    and timers interleave from a scheduler at rest, a queued task always
    has exactly one flush on the way: the set holds no task twice, the
    pending flag is set exactly when one flush is requested or suspended
    on a transition, and it is set whenever the set is non-empty.  So no
    task is stranded: once the loop settles, every queued task has run
    after the timers already pending, and the scheduler is at rest. *)
Theorem scheduler_strands_no_task (steps : list LoopStep) (s : Scheduler.Loop) :
  Scheduler.atRest s ->
  let s' := runLoop steps s in
  flushPending s'
  /\ Scheduler.executed (settle s')
     = Scheduler.executed s' ++ Scheduler.timers s' ++ Scheduler.queue s'
  /\ Scheduler.atRest (settle s').
Proof.
  intros Hrest s'.
  assert (Hinv : flushPending s')
    by (apply runLoop_flushPending, atRest_flushPending, Hrest).
  split; [exact Hinv|]. rewrite (settle_flushPending s' Hinv).
  split; [reflexivity|]. repeat split.
Qed.

Lemma scheduler_strands_no_task_witness :
  let s' := runLoop [StartTransition; Schedule 1; Schedule 2; Schedule 1;
                     AnimationFrame; Schedule 3] Histories.idleLoop in
  flushPending s'
  /\ Scheduler.executed (settle s')
     = Scheduler.executed s' ++ Scheduler.timers s' ++ Scheduler.queue s'
  /\ Scheduler.atRest (settle s').
Proof.
  apply (scheduler_strands_no_task
           [StartTransition; Schedule 1; Schedule 2; Schedule 1;
            AnimationFrame; Schedule 3] Histories.idleLoop).
  repeat split.
Defined.

Ltac task_lia := unfold Scheduler.Task in *; lia.

Lemma count_setAdd t' q t :
  count_occ Nat.eq_dec (Scheduler.setAdd t' q) t
  = count_occ Nat.eq_dec q t
    + (if bool_decide (t' ∈ q) then 0
       else if Nat.eq_dec t' t then 1 else 0).
Proof.
  unfold Scheduler.setAdd. case_bool_decide as Hin; [task_lia|].
  rewrite count_occ_app. cbn [count_occ].
  destruct (Nat.eq_dec t' t); reflexivity.
Qed.

Lemma occurrences_flush s t : occurrences (Scheduler.flush s) t = occurrences s t.
Proof.
  destruct s as [q sc tr aw fr tm ex]. unfold occurrences, Scheduler.flush.
  cbn [Scheduler.queue Scheduler.timers Scheduler.executed].
  rewrite count_occ_app. cbn [count_occ]. task_lia.
Qed.

Lemma occurrences_flushes n s t :
  occurrences (Nat.iter n Scheduler.flush s) t = occurrences s t.
Proof.
  induction n as [|n IH]; [reflexivity|].
  cbn [Nat.iter nat_rect]. now rewrite occurrences_flush.
Qed.

Lemma occurrences_loopStep s e t :
  occurrences s t <= occurrences (loopStep s e) t
  /\ occurrences (loopStep s e) t
     <= occurrences s t + count_occ Nat.eq_dec (scheduledIn [e]) t
  /\ (e = Schedule t -> 1 <= occurrences (loopStep s e) t).
Proof.
  destruct e as [t'| | | |]; cbn [loopStep scheduledIn flat_map app count_occ].
  - assert (Hq : Scheduler.queue (Scheduler.schedule t' s)
                 = Scheduler.setAdd t' (Scheduler.queue s)
                 /\ Scheduler.timers (Scheduler.schedule t' s) = Scheduler.timers s
                 /\ Scheduler.executed (Scheduler.schedule t' s)
                    = Scheduler.executed s).
    { unfold Scheduler.schedule.
      destruct (negb _), (Scheduler.transition s); repeat split. }
    destruct Hq as (Hq & Ht & He). unfold occurrences.
    rewrite Hq, Ht, He, count_setAdd.
    case_bool_decide as Hin.
    + split; [task_lia|]. split; [task_lia|]. intros [= ->].
      apply list_elem_of_In in Hin.
      apply (count_occ_In Nat.eq_dec) in Hin. task_lia.
    + destruct (Nat.eq_dec t' t) as [->|Hne].
      * split; [task_lia|]. split; [task_lia|]. intros _. task_lia.
      * split; [task_lia|]. split; [task_lia|]. intros [= ->]. now contradiction Hne.
  - split; [reflexivity|]. split; [unfold occurrences; cbn; task_lia|discriminate].
  - split; [reflexivity|]. split; [unfold occurrences; cbn; task_lia|discriminate].
  - unfold Scheduler.animationFrame. rewrite occurrences_flushes.
    split; [reflexivity|]. split; [unfold occurrences; cbn; task_lia|discriminate].
  - assert (H : occurrences (Scheduler.runTimer s) t = occurrences s t).
    { destruct s as [q sc tr aw fr tm ex]. unfold occurrences, Scheduler.runTimer.
      cbn [Scheduler.timers]. destruct tm as [|t0 tm]; [reflexivity|].
      cbn [Scheduler.queue Scheduler.timers Scheduler.executed].
      rewrite count_occ_app. cbn [count_occ].
      destruct (Nat.eq_dec t0 t); task_lia. }
    rewrite H. split; [reflexivity|]. split; [task_lia|discriminate].
Qed.

Lemma occurrences_runLoop steps s t :
  occurrences s t <= occurrences (runLoop steps s) t
  /\ occurrences (runLoop steps s) t
     <= occurrences s t + count_occ Nat.eq_dec (scheduledIn steps) t
  /\ (t ∈ scheduledIn steps -> 1 <= occurrences (runLoop steps s) t).
Proof.
  revert s. unfold runLoop.
  induction steps as [|e steps IH]; intros s; cbn [fold_left].
  - split; [reflexivity|]. split; [cbn; task_lia|].
    intros H. now apply elem_of_nil in H.
  - destruct (IH (loopStep s e)) as (IH1 & IH2 & IH3).
    destruct (occurrences_loopStep s e t) as (H1 & H2 & H3).
    assert (Hcons : scheduledIn (e :: steps)
                    = scheduledIn [e] ++ scheduledIn steps).
    { unfold scheduledIn. cbn [flat_map]. now rewrite app_nil_r. }
    rewrite Hcons, count_occ_app. split; [task_lia|]. split; [task_lia|].
    intros [Hin|Hin]%elem_of_app; [|now apply IH3].
    destruct e as [t'| | | |]; cbn in Hin;
      try (now apply elem_of_nil in Hin).
    apply list_elem_of_singleton in Hin as <-.
    specialize (H3 eq_refl). task_lia.
Qed.

(** X17.  Along any interleaving from a scheduler at rest, once the loop
    settles every task that was handed to [schedule] has run, and no task
    has run more often than it was handed over. *)
Theorem scheduled_task_runs_and_not_more_often
  (steps : list LoopStep) (s : Scheduler.Loop) (t : Scheduler.Task) :
  Scheduler.atRest s ->
  let final := settle (runLoop steps s) in
  (t ∈ scheduledIn steps -> t ∈ Scheduler.executed final)
  /\ count_occ Nat.eq_dec (Scheduler.executed final) t
     <= count_occ Nat.eq_dec (Scheduler.executed s) t
        + count_occ Nat.eq_dec (scheduledIn steps) t.
Proof.
  intros Hrest final. subst final.
  rewrite (settle_flushPending _
             (runLoop_flushPending steps s (atRest_flushPending s Hrest))).
  cbn [Scheduler.executed].
  destruct (occurrences_runLoop steps s t) as (_ & H2 & H3).
  assert (Hs : occurrences s t = count_occ Nat.eq_dec (Scheduler.executed s) t).
  { destruct Hrest as (Hq & _ & _ & _ & Ht). unfold occurrences.
    rewrite Hq, Ht. cbn. task_lia. }
  assert (Hc : count_occ Nat.eq_dec
                 (Scheduler.executed (runLoop steps s)
                  ++ Scheduler.timers (runLoop steps s)
                  ++ Scheduler.queue (runLoop steps s)) t
               = occurrences (runLoop steps s) t).
  { unfold occurrences. rewrite !count_occ_app. task_lia. }
  split.
  - intros Hin. specialize (H3 Hin).
    apply list_elem_of_In, (count_occ_In Nat.eq_dec). task_lia.
  - task_lia.
Qed.

Lemma scheduled_task_runs_and_not_more_often_witness :
  let steps := [Schedule 1; AnimationFrame; Schedule 1; StartTransition;
                Schedule 2; Schedule 1] in
  let final := settle (runLoop steps Histories.idleLoop) in
  (1 ∈ scheduledIn steps -> 1 ∈ Scheduler.executed final)
  /\ count_occ Nat.eq_dec (Scheduler.executed final) 1
     <= count_occ Nat.eq_dec (Scheduler.executed Histories.idleLoop) 1
        + count_occ Nat.eq_dec (scheduledIn steps) 1.
Proof.
  intros steps.
  apply (scheduled_task_runs_and_not_more_often steps Histories.idleLoop 1).
  repeat split.
Defined.

(** *** [formatMoney] *)

Lemma indexOfFrom_range c s i :
  Utilities.indexOfFrom c s i = (-1)%Z \/ (i <= Utilities.indexOfFrom c s i)%Z.
Proof.
  revert i. induction s as [|x s IH]; intros i; simpl; [now left|].
  destruct (Ascii.eqb x c); [right; lia|].
  destruct (IH (i + 1)%Z) as [H|H]; [now left|right; lia].
Qed.

Lemma indexOfFrom_shift c s i :
  Utilities.indexOfFrom c s i
  = if (Utilities.indexOf c s =? -1)%Z then (-1)%Z
    else (i + Utilities.indexOf c s)%Z.
Proof.
  unfold Utilities.indexOf. revert i.
  induction s as [|x s IH]; intros i; simpl; [reflexivity|].
  destruct (Ascii.eqb x c); [simpl; lia|].
  rewrite (IH (i + 1)%Z), (IH (0 + 1)%Z).
  destruct (Z.eqb_spec (Utilities.indexOfFrom c s 0) (-1)) as [E|E].
  - reflexivity.
  - destruct (indexOfFrom_range c s 0) as [H|H]; [contradiction|].
    destruct (Z.eqb_spec (0 + 1 + Utilities.indexOfFrom c s 0) (-1)); lia.
Qed.

Lemma indexOf_distinct c c' s i :
  c <> c' -> Utilities.indexOfFrom c s i <> (-1)%Z ->
  (0 <= i)%Z -> Utilities.indexOfFrom c s i <> Utilities.indexOfFrom c' s i.
Proof.
  intros Hne. revert i. induction s as [|x s IH]; intros i Hc Hi; simpl in *;
    [contradiction|].
  destruct (Ascii.eqb_spec x c) as [->|Hx].
  - destruct (Ascii.eqb_spec c c') as [E|_]; [contradiction|].
    destruct (indexOfFrom_range c' s (i + 1)) as [H|H]; lia.
  - destruct (Ascii.eqb_spec x c') as [->|Hx'].
    + destruct (indexOfFrom_range c s (i + 1)) as [H|H]; lia.
    + apply IH; [exact Hc|lia].
Qed.

Lemma replace_free c r s :
  Utilities.indexOf c s = (-1)%Z -> Utilities.replace c r s = s.
Proof.
  unfold Utilities.indexOf.
  assert (H : forall i, (0 <= i)%Z -> Utilities.indexOfFrom c s i = (-1)%Z ->
                        Utilities.replace c r s = s); [|now apply H].
  induction s as [|x s IH]; intros i Hi; simpl; [reflexivity|].
  destruct (Ascii.eqb x c); [lia|].
  intros H. rewrite (IH (i + 1)%Z); [reflexivity|lia|exact H].
Qed.

Lemma indexOf_cons c x s :
  Utilities.indexOf c (String x s)
  = if Ascii.eqb x c then 0%Z
    else if (Utilities.indexOf c s =? -1)%Z then (-1)%Z
         else (1 + Utilities.indexOf c s)%Z.
Proof.
  unfold Utilities.indexOf at 1. cbn [Utilities.indexOfFrom].
  destruct (Ascii.eqb x c); [reflexivity|].
  rewrite indexOfFrom_shift. reflexivity.
Qed.

Lemma indexOf_range c s :
  Utilities.indexOf c s = (-1)%Z
  \/ (0 <= Utilities.indexOf c s < Z.of_nat (String.length s))%Z.
Proof.
  induction s as [|x s IH]; [now left|].
  rewrite indexOf_cons. cbn [String.length].
  destruct (Ascii.eqb x c); [right; lia|].
  destruct (Z.eqb_spec (Utilities.indexOf c s) (-1)); [now left|right; lia].
Qed.

Lemma indexOf_app_free c a s :
  Utilities.indexOf c a = (-1)%Z ->
  Utilities.indexOf c (a +:+ s)
  = if (Utilities.indexOf c s =? -1)%Z then (-1)%Z
    else (Z.of_nat (String.length a) + Utilities.indexOf c s)%Z.
Proof.
  induction a as [|x a IH].
  - intros _. rewrite append_nil_l. cbn [String.length].
    destruct (Z.eqb_spec (Utilities.indexOf c s) (-1)); lia.
  - rewrite append_cons, !indexOf_cons. cbn [String.length].
    destruct (Ascii.eqb x c); [lia|].
    destruct (indexOf_range c a) as [Ha|Ha];
      destruct (Z.eqb_spec (Utilities.indexOf c a) (-1)); try lia.
    intros _. rewrite (IH Ha).
    destruct (Z.eqb_spec (Utilities.indexOf c s) (-1)); [reflexivity|].
    destruct (indexOf_range c s) as [Hs|Hs]; [contradiction|].
    destruct (Z.eqb_spec (Z.of_nat (String.length a) + Utilities.indexOf c s) (-1));
      lia.
Qed.

Lemma indexOf_app_found c a s :
  Utilities.indexOf c a <> (-1)%Z ->
  Utilities.indexOf c (a +:+ s) = Utilities.indexOf c a.
Proof.
  induction a as [|x a IH]; [intros H; now contradiction H|].
  rewrite append_cons, !indexOf_cons.
  destruct (Ascii.eqb x c); [reflexivity|].
  destruct (Z.eqb_spec (Utilities.indexOf c a) (-1)) as [E|E];
    [intros H; now contradiction H|].
  intros _. rewrite (IH E).
  destruct (Z.eqb_spec (Utilities.indexOf c a) (-1)); [contradiction|reflexivity].
Qed.

Lemma replace_app_free c r a s :
  Utilities.indexOf c a = (-1)%Z ->
  Utilities.replace c r (a +:+ s) = a +:+ Utilities.replace c r s.
Proof.
  induction a as [|x a IH]; [reflexivity|].
  rewrite indexOf_cons, !append_cons. cbn [Utilities.replace].
  destruct (Ascii.eqb x c); [lia|].
  destruct (Z.eqb_spec (Utilities.indexOf c a) (-1)) as [E|E].
  - intros _. now rewrite (IH E).
  - destruct (indexOf_range c a); lia.
Qed.

Lemma replace_app_found c r a s :
  Utilities.indexOf c a <> (-1)%Z ->
  Utilities.replace c r (a +:+ s) = Utilities.replace c r a +:+ s.
Proof.
  induction a as [|x a IH]; [intros H; now contradiction H|].
  rewrite indexOf_cons, append_cons. cbn [Utilities.replace].
  destruct (Ascii.eqb x c); [intros _; now rewrite append_assoc|].
  destruct (Z.eqb_spec (Utilities.indexOf c a) (-1)) as [E|E];
    [intros H; now contradiction H|].
  intros _. now rewrite (IH E), append_cons.
Qed.

Lemma replace_keeps_free c c' a :
  Utilities.indexOf c' a = (-1)%Z ->
  Utilities.indexOf c' (Utilities.replace c EmptyString a) = (-1)%Z.
Proof.
  induction a as [|x a IH]; [reflexivity|].
  rewrite indexOf_cons. cbn [Utilities.replace].
  destruct (Ascii.eqb x c') eqn:Ex; [lia|].
  destruct (Z.eqb_spec (Utilities.indexOf c' a) (-1)) as [E|E].
  2:{ destruct (indexOf_range c' a); lia. }
  intros _. destruct (Ascii.eqb x c); [now rewrite append_nil_l|].
  rewrite indexOf_cons, Ex, (IH E). reflexivity.
Qed.

(** X18.  [formatMoney] only ever returns through its first three
    [return]s: a value without a comma comes back with its first space
    removed; otherwise, when a full stop follows the first comma, the
    first comma is dropped; otherwise the first full stop, if any, is
    dropped and the first comma becomes a full stop.  So [1,234.56] and
    [1.234,56] both read [1234.56]. *)
Theorem formatMoney_reads_both_conventions (value : string) :
  let v := Utilities.replace " " EmptyString value in
  Utilities.formatMoney value
  = (if (Utilities.indexOf "," v =? -1)%Z then v
     else if (Utilities.indexOf "," v <? Utilities.indexOf "." v)%Z
          then Utilities.replace "," EmptyString v
          else Utilities.replace "," "." (Utilities.replace "." EmptyString v))
  /\ (forall a b,
        v = a +:+ String "," b ->
        Utilities.indexOf "," a = (-1)%Z ->
        Utilities.indexOf "." a = (-1)%Z ->
        Utilities.indexOf "." b <> (-1)%Z ->
        Utilities.formatMoney value = a +:+ b)
  /\ (forall a b,
        v = a +:+ String "," b ->
        Utilities.indexOf "," a = (-1)%Z ->
        Utilities.indexOf "." b = (-1)%Z ->
        Utilities.formatMoney value
        = Utilities.replace "." EmptyString a +:+ String "." b).
Proof.
  intros v.
  assert (Hdead : Utilities.formatMoney value
    = (if (Utilities.indexOf "," v =? -1)%Z then v
       else if (Utilities.indexOf "," v <? Utilities.indexOf "." v)%Z
            then Utilities.replace "," EmptyString v
            else Utilities.replace "," "." (Utilities.replace "." EmptyString v))).
  { unfold Utilities.formatMoney. fold v.
    destruct (Z.eqb_spec (Utilities.indexOf "," v) (-1)) as [E|E]; [reflexivity|].
    destruct (Z.ltb_spec (Utilities.indexOf "," v) (Utilities.indexOf "." v));
      [reflexivity|].
    destruct (Z.ltb_spec (Utilities.indexOf "." v) (Utilities.indexOf "," v));
      [reflexivity|].
    exfalso.
    apply (indexOf_distinct ","%char "."%char v 0); [discriminate|exact E|lia|].
    change (Utilities.indexOf "," v = Utilities.indexOf "." v). lia. }
  split; [exact Hdead|].
  assert (Hcomma : forall a b, Utilities.indexOf "," a = (-1)%Z ->
            Utilities.indexOf "," (a +:+ String "," b)
            = Z.of_nat (String.length a)).
  { intros a b Ha. rewrite (indexOf_app_free _ _ _ Ha), indexOf_cons.
    cbn [Ascii.eqb Bool.eqb]. cbn. lia. }
  split.
  - intros a b Hv Ha Hda Hdb. rewrite Hdead, Hv, (Hcomma a b Ha).
    rewrite (indexOf_app_free "." a _ Hda), indexOf_cons.
    change (Ascii.eqb "," ".") with false. cbv iota.
    destruct (Z.eqb_spec (Utilities.indexOf "." b) (-1)) as [E|E]; [contradiction|].
    destruct (indexOf_range "." b) as [H|H]; [contradiction|].
    destruct (Z.eqb_spec (Z.of_nat (String.length a)) (-1)); [lia|].
    destruct (Z.eqb_spec (1 + Utilities.indexOf "." b) (-1)); [lia|].
    destruct (Z.ltb_spec (Z.of_nat (String.length a))
                (Z.of_nat (String.length a) + (1 + Utilities.indexOf "." b)));
      [|lia].
    rewrite (replace_app_free _ _ _ _ Ha). cbn [Utilities.replace].
    change (Ascii.eqb "," ",") with true. cbv iota.
    now rewrite append_nil_l.
  - intros a b Hv Ha Hdb. rewrite Hdead, Hv, (Hcomma a b Ha).
    destruct (Z.eqb_spec (Z.of_nat (String.length a)) (-1)); [lia|].
    assert (Hlt : (Utilities.indexOf "." (a +:+ String "," b)
                   < Z.of_nat (String.length a))%Z).
    { destruct (Z.eq_dec (Utilities.indexOf "." a) (-1)%Z) as [E|E].
      - rewrite (indexOf_app_free _ _ _ E), indexOf_cons.
        change (Ascii.eqb "," ".") with false. cbv iota.
        rewrite Hdb. cbn. lia.
      - rewrite (indexOf_app_found _ _ _ E).
        destruct (indexOf_range "." a); lia. }
    destruct (Z.ltb_spec (Z.of_nat (String.length a))
                (Utilities.indexOf "." (a +:+ String "," b))); [lia|].
    assert (Hrep : Utilities.replace "." EmptyString (a +:+ String "," b)
                   = Utilities.replace "." EmptyString a +:+ String "," b).
    { destruct (Z.eq_dec (Utilities.indexOf "." a) (-1)%Z) as [E|E].
      - rewrite (replace_app_free _ _ _ _ E), (replace_free _ _ a E).
        cbn [Utilities.replace]. change (Ascii.eqb "," ".") with false.
        cbv iota. now rewrite (replace_free _ _ b Hdb).
      - apply replace_app_found, E. }
    rewrite Hrep, replace_app_free by now apply replace_keeps_free.
    cbn [Utilities.replace]. change (Ascii.eqb "," ",") with true. cbv iota.
    reflexivity.
Qed.

(** *** [fetchConfig] *)

(** X19.  Whatever the caller passes, [fetchConfig] answers with method
    [POST] and the caller's body.  For type [javascript] the headers never
    hold [Content-Type] and always hold [X-Requested-With:
    XMLHttpRequest], even when the caller supplied these names.  For any
    other type a header of the caller wins over the default of the same
    name, [Content-Type] and [Accept] are always present, and
    [X-Requested-With] is present only if the caller supplied it.  Every
    other header of the caller is passed on unchanged, and nothing else is
    added. *)
Theorem fetchConfig_headers {Body : Type} (type : option string)
  (config : option (Utilities.Config Body)) :
  let request := Utilities.fetchConfig type config in
  let given := default ∅ (config ≫= Utilities.cHeaders) in
  let kind := default "json" type in
  Utilities.rMethod request = "POST"
  /\ Utilities.rBody request = config ≫= Utilities.cBody
  /\ (kind = "javascript" ->
      Utilities.rHeaders request !! "Content-Type" = None
      /\ Utilities.rHeaders request !! "X-Requested-With" = Some "XMLHttpRequest")
  /\ (kind <> "javascript" ->
      Utilities.rHeaders request !! "Content-Type"
      = Some (default "application/json" (given !! "Content-Type"))
      /\ Utilities.rHeaders request !! "X-Requested-With"
         = given !! "X-Requested-With")
  /\ Utilities.rHeaders request !! "Accept"
     = Some (default ("application/" +:+ kind) (given !! "Accept"))
  /\ (forall name,
        name <> "Content-Type" -> name <> "X-Requested-With" ->
        name <> "Accept" ->
        Utilities.rHeaders request !! name = given !! name).
Proof.
  intros request given kind. subst request.
  unfold Utilities.fetchConfig. fold kind.
  assert (Hg : default ∅ (Utilities.cHeaders
                             (default (Utilities.mkConfig None None) config))
               = given).
  { unfold given. destruct config as [[h b]|]; reflexivity. }
  rewrite Hg. cbn [Utilities.rMethod Utilities.rBody Utilities.rHeaders].
  split; [reflexivity|].
  split; [destruct config as [[h b]|]; reflexivity|].
  set (defaults := <["Content-Type" := "application/json"]>
                     (<["Accept" := "application/" +:+ kind]> ∅)
                   : gmap string string).
  assert (Hu : forall name, (given ∪ defaults) !! name
                            = match given !! name with
                              | Some v => Some v
                              | None => defaults !! name
                              end).
  { intros name. rewrite lookup_union.
    destruct (given !! name), (defaults !! name); reflexivity. }
  assert (Hct : defaults !! "Content-Type" = Some "application/json")
    by (unfold defaults; now rewrite lookup_insert_eq).
  assert (Hac : defaults !! "Accept" = Some ("application/" +:+ kind)).
  { unfold defaults. rewrite lookup_insert_ne by discriminate.
    now rewrite lookup_insert_eq. }
  assert (Hother : forall name, name <> "Content-Type" -> name <> "Accept" ->
                                defaults !! name = None).
  { intros name H1 H2. unfold defaults.
    rewrite !lookup_insert_ne by congruence. apply lookup_empty. }
  split; [|split; [|split]].
  - intros Hk. rewrite Hk. cbn [String.eqb Ascii.eqb Bool.eqb andb].
    change (String.eqb "javascript" "javascript") with true. cbv iota.
    split; [apply lookup_delete_eq|].
    rewrite lookup_delete_ne by discriminate. apply lookup_insert_eq.
  - intros Hk. apply String.eqb_neq in Hk. rewrite Hk.
    rewrite !Hu, Hct, Hother by discriminate.
    split; destruct (given !! _); reflexivity.
  - destruct (String.eqb kind "javascript").
    + rewrite lookup_delete_ne, lookup_insert_ne by discriminate.
      rewrite Hu, Hac. destruct (given !! _); reflexivity.
    + rewrite Hu, Hac. destruct (given !! _); reflexivity.
  - intros name H1 H2 H3. destruct (String.eqb kind "javascript").
    + rewrite lookup_delete_ne, lookup_insert_ne by congruence.
      rewrite Hu, Hother by assumption. destruct (given !! _); reflexivity.
    + rewrite Hu, Hother by assumption. destruct (given !! _); reflexivity.
Qed.

(** *** [clamp] and [closest] *)

(** X21.  [clamp] returns a value between the bounds, which is the input
    itself when the input lies between them, provided the bounds are in
    order; when they are not, it returns the lower bound whatever the
    input. *)
Theorem clamp_between_ordered_bounds (value min max : Z) :
  ((min <= max)%Z ->
   (min <= Utilities.clamp value min max <= max)%Z
   /\ ((min <= value <= max)%Z -> Utilities.clamp value min max = value)
   /\ ((value < min)%Z -> Utilities.clamp value min max = min)
   /\ ((max < value)%Z -> Utilities.clamp value min max = max))
  /\ ((max < min)%Z -> Utilities.clamp value min max = min).
Proof. unfold Utilities.clamp. lia. Qed.

Lemma closest_fold (target : Z) (rest : list Z) (first : Z) :
  let pick := fun prev curr =>
                if (Z.abs (curr - target) <? Z.abs (prev - target))%Z
                then curr else prev in
  let r := fold_left pick rest first in
  exists before after,
    first :: rest = before ++ r :: after
    /\ Forall (fun v => (Z.abs (r - target) < Z.abs (v - target))%Z) before
    /\ Forall (fun v => (Z.abs (r - target) <= Z.abs (v - target))%Z) after.
Proof.
  intros pick. revert first.
  induction rest as [|x rest IH] using rev_ind; intros first r.
  - exists [], []. repeat split; constructor 1.
  - subst r. rewrite fold_left_app. cbn [fold_left].
    destruct (IH first) as (before & after & Hl & Hb & Ha).
    set (r := fold_left pick rest first) in *.
    assert (Hpick : pick r x
                    = if (Z.abs (x - target) <? Z.abs (r - target))%Z
                      then x else r) by reflexivity.
    rewrite Hpick. clear Hpick.
    destruct (Z.ltb_spec (Z.abs (x - target)) (Z.abs (r - target))) as [Hlt|Hge].
    + exists (before ++ r :: after), []. split.
      { rewrite app_comm_cons, Hl. now rewrite <- app_assoc. }
      split; [|constructor 1].
      apply Forall_app. split.
      * eapply Forall_impl; [exact Hb|]. cbn beta. intros v Hv. lia.
      * constructor 2; [exact Hlt|].
        eapply Forall_impl; [exact Ha|]. cbn beta. intros v Hv. lia.
    + exists before, (after ++ [x]). split.
      { rewrite app_comm_cons, Hl. now rewrite <- app_assoc. }
      split; [exact Hb|].
      apply Forall_app. split; [exact Ha|].
      constructor 2; [exact Hge|constructor 1].
Qed.

(** X20.  For integer values and an integer target of magnitude at most
    [2 ^ 52], so that every difference is an exact double: [closest]
    throws on an empty array and otherwise returns a member of the array
    at least as near to the target as every other member; on a tie it is
    the earliest: every member before the one returned is strictly farther
    from the target. *)
Theorem closest_is_first_nearest (values : list Z) (target : Z) :
  Forall (fun v => (Z.abs v <= 2 ^ 52)%Z) values ->
  (Z.abs target <= 2 ^ 52)%Z ->
  (Utilities.closest values target = None <-> values = [])
  /\ forall r, Utilities.closest values target = Some r ->
       exists before after,
         values = before ++ r :: after
         /\ Forall (fun v => (Z.abs (r - target) < Z.abs (v - target))%Z) before
         /\ Forall (fun v => (Z.abs (r - target) <= Z.abs (v - target))%Z) after.
Proof.
  intros _ _. split.
  - destruct values; split; intros H; try discriminate; reflexivity.
  - intros r. destruct values as [|first rest]; [discriminate|].
    cbn [Utilities.closest]. intros [= <-]. apply closest_fold.
Qed.

Lemma closest_is_first_nearest_witness :
  (Utilities.closest [3; 7; 5]%Z 6%Z = None <-> [3; 7; 5]%Z = [])
  /\ forall r, Utilities.closest [3; 7; 5]%Z 6%Z = Some r ->
       exists before after,
         [3; 7; 5]%Z = before ++ r :: after
         /\ Forall (fun v => (Z.abs (r - 6) < Z.abs (v - 6))%Z) before
         /\ Forall (fun v => (Z.abs (r - 6) <= Z.abs (v - 6))%Z) after.
Proof.
  apply (closest_is_first_nearest [3; 7; 5]%Z 6%Z).
  - repeat (constructor 2; [cbn; lia|]). constructor 1.
  - cbn. lia.
Defined.

(** *** [parseIntOrDefault] *)

Lemma radixAndDigits_decimal (c : ascii) (tl : list ascii) :
  (forall p r, tl = p :: r -> (Ascii.eqb p "x" || Ascii.eqb p "X") = false) ->
  Utilities.radixAndDigits (c :: tl) = (10%N, c :: tl).
Proof.
  intros H. each_ascii c; try reflexivity.
  destruct tl as [|p r]; [reflexivity|].
  cbn [Utilities.radixAndDigits]. now rewrite (H p r eq_refl).
Qed.

Lemma plain_head (c : ascii) (tl : list ascii) :
  Js.isDigit c = false -> Js.isSpace c = false ->
  c <> "+"%char -> c <> "-"%char ->
  Js.signOf (c :: tl) = (false, c :: tl)
  /\ Utilities.radixAndDigits (c :: tl) = (10%N, c :: tl).
Proof.
  intros Hd Hs Hp Hm.
  each_ascii c; vm_compute in Hd; try discriminate Hd;
    try (now contradiction Hp); try (now contradiction Hm);
    split; reflexivity.
Qed.

Lemma parseInt_leading_digits (ds rest : list ascii) (m : N) :
  ds <> [] -> forallb Js.isDigit ds = true ->
  match rest with
  | [] => True
  | x :: _ => Js.isDigit x = false
              /\ (Ascii.eqb x "x" || Ascii.eqb x "X") = false
  end ->
  Js.digitsVal 10 0 ds = Some m ->
  Utilities.parseInt (Js.str (ds ++ rest)) = Js.Finite false m 0.
Proof.
  intros Hne Hall Hrest Hm. unfold Utilities.parseInt. rewrite chars_str.
  destruct ds as [|c ds]; [contradiction|].
  cbn [forallb] in Hall. apply andb_true_iff in Hall as [Hc Hall].
  destruct (digit_is_plain c Hc) as (Hsp & _).
  cbn [app Js.dropSpaces]. rewrite Hsp, (signOf_digit c _ Hc).
  rewrite radixAndDigits_decimal.
  2:{ intros p r Htl. destruct ds as [|p' ds'].
      - cbn [app] in Htl. subst rest. now destruct Hrest.
      - cbn [app] in Htl. injection Htl as <- _.
        cbn [forallb] in Hall. apply andb_true_iff in Hall as [Hp _].
        now destruct (digit_is_plain p' Hp) as (_ & _ & _ & _ & Hx & _). }
  assert (Hspan : Js.span (Utilities.isRadixDigit 10) ((c :: ds) ++ rest)
                  = (c :: ds, rest)).
  { destruct rest as [|x rest].
    - rewrite app_nil_r. apply span_all. cbn [forallb].
      change (Utilities.isRadixDigit 10 c) with (Js.isDigit c).
      now rewrite Hc.
    - apply span_app.
      + cbn [forallb]. change (Utilities.isRadixDigit 10 c) with (Js.isDigit c).
        now rewrite Hc.
      + now destruct Hrest. }
  change (c :: ds ++ rest) with ((c :: ds) ++ rest). rewrite Hspan.
  cbn [Js.natural]. now rewrite Hm.
Qed.

(** X22.  [parseIntOrDefault] on a string.  A string that starts with
    decimal digits denoting at most [2 ^ 53] - followed by nothing, or by
    a character that is neither a digit nor an [x] - yields the number
    those digits denote, so [0] yields zero and not the default.  A
    non-empty string whose first character is an ASCII character other
    than a digit, a sign or white space yields the default.  The result is
    never [NaN] unless the default is. *)
Theorem parseIntOrDefault_reads_leading_digits
  (s : string) (defaultValue : option Js.JsNumber) :
  (forall ds rest m,
     Js.chars s = ds ++ rest ->
     ds <> [] -> forallb Js.isDigit ds = true ->
     match rest with
     | [] => True
     | x :: _ => Js.isDigit x = false
                 /\ (Ascii.eqb x "x" || Ascii.eqb x "X") = false
     end ->
     Js.digitsVal 10 0 ds = Some m ->
     (m <= 2 ^ 53)%N ->
     Utilities.parseIntOrDefault (Some s) defaultValue
     = Some (Js.Finite false m 0))
  /\ (forall c tl,
        Js.chars s = c :: tl ->
        (nat_of_ascii c < 128)%nat ->
        Js.isDigit c = false -> Js.isSpace c = false ->
        c <> "+"%char -> c <> "-"%char ->
        Utilities.parseIntOrDefault (Some s) defaultValue = defaultValue)
  /\ (Utilities.parseIntOrDefault (Some s) defaultValue = Some Js.NaN ->
      defaultValue = Some Js.NaN).
Proof.
  split; [|split].
  - intros ds rest m Hs Hne Hall Hrest Hm _.
    unfold Utilities.parseIntOrDefault.
    destruct (String.eqb_spec s EmptyString) as [->|_].
    { destruct ds; [contradiction|discriminate Hs]. }
    rewrite <- (str_chars s), Hs.
    now rewrite (parseInt_leading_digits ds rest m Hne Hall Hrest Hm).
  - intros c tl Hs _ Hd Hsp Hp Hm. unfold Utilities.parseIntOrDefault.
    destruct (String.eqb s EmptyString); [reflexivity|].
    unfold Utilities.parseInt. rewrite Hs. cbn [Js.dropSpaces]. rewrite Hsp.
    destruct (plain_head c tl Hd Hsp Hp Hm) as [-> ->].
    cbn [Js.span]. change (Utilities.isRadixDigit 10 c) with (Js.isDigit c).
    rewrite Hd. reflexivity.
  - unfold Utilities.parseIntOrDefault.
    destruct (String.eqb s EmptyString); [auto|].
    destruct (Js.isNaN (Utilities.parseInt s)) eqn:E; [auto|].
    intros [= H]. now rewrite H in E.
Qed.

Lemma parseIntOrDefault_reads_leading_digits_witness :
  Utilities.parseIntOrDefault (Some "12px") None = Some (Js.Finite false 12 0)
  /\ Utilities.parseIntOrDefault (Some "0") None = Some (Js.Finite false 0 0)
  /\ Utilities.parseIntOrDefault (Some "px")
       (Some (Js.Finite false 7 0)) = Some (Js.Finite false 7 0).
Proof.
  split; [|split].
  - apply (proj1 (parseIntOrDefault_reads_leading_digits "12px" None)
             ["1"; "2"]%char ["p"; "x"]%char 12%N);
      first [reflexivity | discriminate | split; reflexivity
            | vm_compute; discriminate].
  - apply (proj1 (parseIntOrDefault_reads_leading_digits "0" None)
             ["0"]%char [] 0%N);
      first [reflexivity | discriminate | exact I | vm_compute; discriminate].
  - apply (proj1 (proj2 (parseIntOrDefault_reads_leading_digits "px"
                           (Some (Js.Finite false 7 0))))
             "p"%char ["x"]%char);
      first [reflexivity | discriminate | vm_compute; lia].
Defined.

(** *** [debounce] *)

Section DebounceFacts.

Context {Args : Type}.

Lemma debounce_run_snoc (steps : list (Debounce.Step Args)) (e : Debounce.Step Args) :
  Debounce.run (steps ++ [e]) = Debounce.step (Debounce.run steps) e.
Proof. unfold Debounce.run. now rewrite fold_left_app. Qed.

Lemma debounce_calledWith_snoc (steps : list (Debounce.Step Args)) e :
  Debounce.calledWith (steps ++ [e])
  = Debounce.calledWith steps
    ++ match e with Debounce.Call a => [a] | _ => [] end.
Proof.
  unfold Debounce.calledWith. rewrite flat_map_app. cbn [flat_map].
  now rewrite app_nil_r.
Qed.

(** At most the timer named by [timeout] is pending, and it carries the
    arguments of the latest call. *)
Lemma debounce_invariant (steps : list (Debounce.Step Args)) :
  let s := Debounce.run steps in
  (Debounce.pendingTimers s = ∅
   /\ Debounce.invoked s `sublist_of` Debounce.calledWith steps)
  \/ exists id a before,
       Debounce.pendingTimers s = {[ id := a ]}
       /\ Debounce.timeout s = Some id
       /\ Debounce.calledWith steps = before ++ [a]
       /\ Debounce.invoked s `sublist_of` before.
Proof.
  induction steps as [|e steps IH] using rev_ind.
  - left. split; [reflexivity|]. cbn. constructor.
  - cbv zeta in *. rewrite debounce_run_snoc, debounce_calledWith_snoc.
    set (s := Debounce.run steps) in *.
    assert (Hclear : Debounce.pendingTimers (Debounce.clearTimeout s) = ∅
                     /\ Debounce.invoked (Debounce.clearTimeout s)
                        = Debounce.invoked s
                     /\ Debounce.invoked s
                          `sublist_of` Debounce.calledWith steps).
    { unfold Debounce.clearTimeout.
      destruct IH as [[Hp Hs]|(id & a & before & Hp & Ht & Hc & Hs)].
      - destruct (Debounce.timeout s); cbn; rewrite ?Hp, ?delete_empty; auto.
      - rewrite Ht, Hp, Hc. cbn. rewrite delete_singleton_eq.
        split; [reflexivity|]. split; [reflexivity|].
        now apply sublist_inserts_r. }
    destruct Hclear as (Hp0 & Hi0 & Hs0).
    destruct e as [a| |id]; cbn [Debounce.step].
    + right. unfold Debounce.debounced.
      cbn [Debounce.pendingTimers Debounce.timeout Debounce.invoked].
      exists (Debounce.nextTimer (Debounce.clearTimeout s)), a,
        (Debounce.calledWith steps).
      rewrite Hp0, Hi0. repeat split. exact Hs0.
    + left. unfold Debounce.cancel. rewrite Hp0, Hi0, app_nil_r. now split.
    + unfold Debounce.fire. rewrite app_nil_r.
      destruct IH as [[Hp Hs]|(id' & a & before & Hp & Ht & Hc & Hs)].
      * rewrite Hp, lookup_empty. left. now split.
      * rewrite Hp. destruct (decide (id' = id)) as [->|Hne].
        -- rewrite lookup_singleton_eq. cbn. left.
           rewrite delete_singleton_eq, Hc. split; [reflexivity|].
           now apply sublist_app.
        -- rewrite lookup_singleton_ne by exact Hne. right.
           exists id', a, before. now repeat split.
Qed.

End DebounceFacts.

(** What a call of the debounced function leaves behind. *)
Lemma debounce_after_call {Args : Type}
  (steps : list (Debounce.Step Args)) (a : Args) :
  let s := Debounce.run steps in
  let s' := Debounce.run (steps ++ [Debounce.Call a]) in
  Debounce.timeout s' = Some (Debounce.nextTimer s)
  /\ Debounce.pendingTimers s' = {[ Debounce.nextTimer s := a ]}
  /\ Debounce.invoked s' = Debounce.invoked s.
Proof.
  intros s s'. subst s'. rewrite debounce_run_snoc. fold s.
  assert (Hclear : Debounce.pendingTimers (Debounce.clearTimeout s) = ∅
                   /\ Debounce.invoked (Debounce.clearTimeout s)
                      = Debounce.invoked s
                   /\ Debounce.nextTimer (Debounce.clearTimeout s)
                      = Debounce.nextTimer s).
  { unfold Debounce.clearTimeout.
    destruct (debounce_invariant steps)
      as [[Hp Hs]|(id & a' & before & Hp & Ht & Hc & Hs)]; fold s in Hp.
    - destruct (Debounce.timeout s); cbn; rewrite ?Hp, ?delete_empty; auto.
    - fold s in Ht. rewrite Ht, Hp. cbn. now rewrite delete_singleton_eq. }
  destruct Hclear as (Hp0 & Hi0 & Hn0).
  cbn [Debounce.step]. unfold Debounce.debounced.
  cbn [Debounce.pendingTimers Debounce.timeout Debounce.invoked].
  rewrite Hp0, Hi0, Hn0. repeat split.
Qed.

Lemma debounce_burst_invokes_nothing {Args : Type}
  (steps : list (Debounce.Step Args)) (burst : list Args) :
  Debounce.invoked (Debounce.run (steps ++ List.map Debounce.Call burst))
  = Debounce.invoked (Debounce.run steps).
Proof.
  induction burst as [|a burst IH] using rev_ind.
  - cbn. now rewrite app_nil_r.
  - rewrite map_app, app_assoc. cbn [List.map].
    destruct (debounce_after_call (steps ++ List.map Debounce.Call burst) a)
      as (_ & _ & Hi).
    cbv zeta in Hi. now rewrite Hi.
Qed.

(** X23.  Whatever the order of calls, cancellations and timers firing:
    at most one timer is pending; [fn] is only ever invoked with the
    arguments of calls of the debounced function, in their order and at
    most once per call.  A burst of calls invokes nothing while it lasts
    and leaves exactly one timer pending, the one [timeout] names, which
    carries the arguments of the last call: when it fires, [fn] is invoked
    once, with those arguments, and nothing is pending any more.  After a
    call no other timer can fire, and after [cancel] none at all. *)
Theorem debounce_runs_last_call_of_a_burst
  {Args : Type} (steps : list (Debounce.Step Args)) :
  let s := Debounce.run steps in
  (forall i j a b,
     Debounce.pendingTimers s !! i = Some a ->
     Debounce.pendingTimers s !! j = Some b -> i = j)
  /\ Debounce.invoked s `sublist_of` Debounce.calledWith steps
  /\ (forall burst a,
        let s' := Debounce.run
                    (steps ++ List.map Debounce.Call (burst ++ [a])) in
        exists id,
          Debounce.timeout s' = Some id
          /\ Debounce.pendingTimers s' = {[ id := a ]}
          /\ Debounce.invoked s' = Debounce.invoked s
          /\ Debounce.invoked (Debounce.fire id s') = Debounce.invoked s ++ [a]
          /\ Debounce.pendingTimers (Debounce.fire id s') = ∅
          /\ forall other, other <> id -> Debounce.fire other s' = s')
  /\ (forall id,
        Debounce.fire id (Debounce.run (steps ++ [Debounce.Cancel]))
        = Debounce.run (steps ++ [Debounce.Cancel])
        /\ Debounce.invoked (Debounce.run (steps ++ [Debounce.Cancel]))
           = Debounce.invoked s).
Proof.
  intros s.
  assert (Hclear : Debounce.pendingTimers (Debounce.clearTimeout s) = ∅
                   /\ Debounce.invoked (Debounce.clearTimeout s)
                      = Debounce.invoked s).
  { unfold Debounce.clearTimeout.
    destruct (debounce_invariant steps)
      as [[Hp Hs]|(id & a & before & Hp & Ht & Hc & Hs)]; fold s in Hp.
    - destruct (Debounce.timeout s); cbn; rewrite ?Hp, ?delete_empty; auto.
    - fold s in Ht. rewrite Ht, Hp. cbn. now rewrite delete_singleton_eq. }
  destruct Hclear as [Hp0 Hi0].
  split; [|split; [|split]].
  - intros i j a b Hi Hj.
    destruct (debounce_invariant steps)
      as [[Hp Hs]|(id & a' & before & Hp & Ht & Hc & Hs)]; fold s in Hp.
    + rewrite Hp, lookup_empty in Hi. discriminate.
    + rewrite Hp in Hi, Hj.
      apply lookup_singleton_Some in Hi as [<- _].
      now apply lookup_singleton_Some in Hj as [<- _].
  - destruct (debounce_invariant steps)
      as [[Hp Hs]|(id & a' & before & Hp & Ht & Hc & Hs)]; [exact Hs|].
    fold s in Hs. rewrite Hc. now apply sublist_inserts_r.
  - intros burst a s'. subst s'. rewrite map_app, app_assoc. cbn [List.map].
    set (steps' := steps ++ List.map Debounce.Call burst).
    destruct (debounce_after_call steps' a) as (Ht & Hp & Hi).
    cbv zeta in Ht, Hp, Hi.
    assert (Hb : Debounce.invoked (Debounce.run steps') = Debounce.invoked s)
      by apply debounce_burst_invokes_nothing.
    exists (Debounce.nextTimer (Debounce.run steps')).
    split; [exact Ht|]. split; [exact Hp|]. split; [congruence|].
    unfold Debounce.fire. rewrite Hp, lookup_singleton_eq.
    cbn [Debounce.invoked Debounce.pendingTimers].
    split; [congruence|]. split; [apply delete_singleton_eq|].
    intros other Hne. now rewrite lookup_singleton_ne by congruence.
  - intros id. rewrite debounce_run_snoc. fold s. cbn [Debounce.step].
    unfold Debounce.cancel, Debounce.fire. rewrite Hp0, lookup_empty.
    split; [reflexivity|exact Hi0].
Qed.

Lemma debounce_runs_last_call_of_a_burst_witness :
  let s' := Debounce.run
              ([] ++ List.map Debounce.Call (["a"; "b"] ++ ["c"])) in
  exists id,
    Debounce.timeout s' = Some id
    /\ Debounce.pendingTimers s' = {[ id := "c" ]}
    /\ Debounce.invoked s' = []
    /\ Debounce.invoked (Debounce.fire id s') = [] ++ ["c"]
    /\ Debounce.pendingTimers (Debounce.fire id s') = ∅
    /\ forall other, other <> id -> Debounce.fire other s' = s'.
Proof.
  exact (proj1 (proj2 (proj2 (debounce_runs_last_call_of_a_burst
                                (@nil (Debounce.Step string)))))
           ["a"; "b"] "c").
Defined.

(** *** [ResizeNotifier] *)

Lemma notifier_run_initialized {Entries : Type} (es : list Entries)
  (s : ResizeNotifier.State Entries) :
  ResizeNotifier.initialized s = true ->
  ResizeNotifier.run (List.map ResizeNotifier.Notify es) s
  = ResizeNotifier.mkState true (ResizeNotifier.received s ++ es).
Proof.
  revert s. induction es as [|e es IH]; intros s Hs.
  - destruct s as [i r]. cbn in *. subst i. now rewrite app_nil_r.
  - unfold ResizeNotifier.run in *. cbn [List.map fold_left ResizeNotifier.step].
    rewrite IH; unfold ResizeNotifier.notify; rewrite Hs; cbn;
      [|reflexivity]. now rewrite <- app_assoc.
Qed.

(** X24.  A [ResizeNotifier] swallows the first notification after its
    construction and after every [disconnect], and hands every other one
    to the callback, in order. *)
Theorem resize_notifier_skips_first_notification
  {Entries : Type} (e : Entries) (es : list Entries)
  (steps : list (ResizeNotifier.Step Entries)) :
  ResizeNotifier.received
    (ResizeNotifier.run (List.map ResizeNotifier.Notify (e :: es))
                        ResizeNotifier.fresh) = es
  /\ ResizeNotifier.received
       (ResizeNotifier.run
          (steps ++ ResizeNotifier.Disconnect
                    :: List.map ResizeNotifier.Notify (e :: es))
          ResizeNotifier.fresh)
     = ResizeNotifier.received (ResizeNotifier.run steps ResizeNotifier.fresh)
       ++ es.
Proof.
  split.
  - unfold ResizeNotifier.run. cbn [List.map fold_left ResizeNotifier.step].
    fold (ResizeNotifier.run (List.map ResizeNotifier.Notify es)
            (ResizeNotifier.notify e ResizeNotifier.fresh)).
    now rewrite notifier_run_initialized.
  - unfold ResizeNotifier.run. rewrite fold_left_app.
    cbn [List.map fold_left ResizeNotifier.step].
    set (s := fold_left ResizeNotifier.step steps ResizeNotifier.fresh).
    fold (ResizeNotifier.run (List.map ResizeNotifier.Notify es)
            (ResizeNotifier.notify e (ResizeNotifier.disconnect s))).
    now rewrite notifier_run_initialized.
Qed.

(** *** The scroll script *)

(** X25.  For a rectangle whose top is not below its bottom and a view
    height that is not negative, [isElementInViewport] holds exactly when
    the vertical extent of the element meets that of the viewport: its
    top is not below the viewport's lower edge and its bottom not above
    the upper edge. *)
Theorem isElementInViewport_is_overlap (top bottom innerHeight clientHeight : Z) :
  let viewHeight := if (innerHeight =? 0)%Z then clientHeight else innerHeight in
  (top <= bottom)%Z -> (0 <= viewHeight)%Z ->
  PageScript.isElementInViewport top bottom innerHeight clientHeight = true
  <-> (top <= viewHeight)%Z /\ (0 <= bottom)%Z.
Proof.
  intros viewHeight Hrect Hview. unfold PageScript.isElementInViewport.
  fold viewHeight.
  rewrite !orb_true_iff, !andb_true_iff, !Z.leb_le, !Z.geb_le. lia.
Qed.

Lemma isElementInViewport_is_overlap_witness :
  PageScript.isElementInViewport 700 900 800 0 = true
  <-> (700 <= 800)%Z /\ (0 <= 900)%Z.
Proof.
  apply (isElementInViewport_is_overlap 700 900 800 0); cbn; lia.
Defined.

(** *** When the observer starts *)

Lemma observe_fold this l p inst :
  components p !! this = Some inst ->
  let p' := fold_left (fun p root => Component.observe this root p) l p in
  nodes p' = nodes p /\ idleQueue p' = idleQueue p
  /\ exists inst',
       components p' !! this = Some inst'
       /\ refs inst' = refs inst /\ records inst' = records inst
       /\ forall x, x ∈ observed inst' <-> x ∈ observed inst \/ x ∈ l.
Proof.
  revert p inst. induction l as [|root l IH]; intros p inst Hi; cbn [fold_left].
  - split; [reflexivity|]. split; [reflexivity|].
    exists inst. repeat split; auto.
    intros [H|H]; [exact H|now apply elem_of_nil in H].
  - set (inst1 := mkInstance (refs inst) (requiredRefs inst)
                    (if bool_decide (root ∈ observed inst) then observed inst
                     else observed inst ++ [root])
                    (records inst)).
    assert (Hi1 : components (Component.observe this root p) !! this = Some inst1).
    { unfold Component.observe, withComponents. cbn [components].
      rewrite lookup_alter_eq, Hi. reflexivity. }
    destruct (IH _ _ Hi1) as (Hn & Hq & inst' & Hi' & Hr & Hrec & Hobs).
    split; [exact Hn|]. split; [exact Hq|].
    exists inst'. split; [exact Hi'|]. split; [exact Hr|]. split; [exact Hrec|].
    intros x. rewrite Hobs, elem_of_cons. unfold inst1. cbn [observed].
    case_bool_decide as Hin.
    + split; [tauto|]. intros [H|[->|H]]; tauto.
    + rewrite elem_of_app, list_elem_of_singleton. tauto.
Qed.

(** X7.  The observer starts only after a connection that completed.
    When [connectedCallback] throws, no idle callback has been requested
    and the instance is as it was, although the router is installed by
    then; so the observer never starts.  When it completes, the idle
    callback it requested makes the observer watch the roots the component
    has when that callback runs, keeping [refs] and the tree as they
    are. *)
Theorem connection_observes_only_on_success
  (p : Page) (this : NodeId) (inst : Instance) :
  components p !! this = Some inst ->
  idleQueue p = [] ->
  let r := Component.connectedCallback this p in
  (forall e, snd r = Throw e ->
     idleQueue (fst r) = []
     /\ components (fst r) = components p
     /\ initialized (fst r) = true
     /\ Component.idle (fst r) = fst r)
  /\ (snd r = Normal tt ->
      let p' := Component.idle (fst r) in
      nodes p' = nodes (fst r) /\ idleQueue p' = []
      /\ exists inst',
           components p' !! this = Some inst'
           /\ refs inst' = refsOf (fst r) this
           /\ forall x, x ∈ observed inst'
                        <-> x ∈ observed inst
                            \/ x ∈ Component.roots (fst r) this).
Proof.
  intros Hi Hq r.
  destruct (connectedCallback_outcome p this)
    as (p1 & p2 & H1 & Hn2 & Hc2 & Hq2 & _ & Heq).
  destruct (connectedCallback_keeps_router p this)
    as (q1 & q2 & G1 & G2 & Ginit & _).
  destruct (registerEventListeners_outcome q1) as (q2' & G2' & _ & _ & _ & Gi).
  assert (q2' = q2) as -> by congruence.
  fold r in Ginit. subst r. rewrite Heq in *.
  destruct (List.find _ _) as [name|]; cbn [fst snd] in *.
  - split; [|discriminate]. intros e _.
    split; [congruence|]. split; [exact Hc2|]. split; [congruence|].
    unfold Component.idle. now rewrite Hq2, Hq.
  - split; [discriminate|]. intros _.
    set (p3 := Component.setRefs this (Component.buildRefs p1 this) p2).
    assert (Hi3 : components p3 !! this
                  = Some (mkInstance (Component.buildRefs p1 this)
                            (requiredRefs inst) (observed inst) (records inst))).
    { unfold p3, Component.setRefs, withComponents. cbn [components].
      rewrite lookup_alter_eq, Hc2, Hi. reflexivity. }
    unfold Component.idle, Component.requestIdleCallback.
    cbn [idleQueue nodes components initialized documentListeners].
    change (idleQueue p3) with (idleQueue p2). rewrite Hq2, Hq.
    cbn [app Component.runIdleTask].
    match goal with
    | |- context [fold_left _ (Component.roots ?q this) ?q] =>
        destruct (observe_fold this (Component.roots q this) q _ Hi3)
          as (Hn & Hqq & inst' & Hi' & Hr & _ & Hobs)
    end.
    cbv zeta in Hn, Hqq, Hi', Hobs.
    split; [exact Hn|]. split; [exact Hqq|].
    exists inst'. split; [exact Hi'|]. split.
    { rewrite Hr. unfold refsOf. cbn [components]. now rewrite Hi3. }
    exact Hobs.
Qed.

Lemma connection_observes_only_on_success_witness :
  let r := Component.connectedCallback 1 Examples.listPage in
  (forall e, snd r = Throw e ->
     idleQueue (fst r) = []
     /\ components (fst r) = components Examples.listPage
     /\ initialized (fst r) = true
     /\ Component.idle (fst r) = fst r)
  /\ (snd r = Normal tt ->
      let p' := Component.idle (fst r) in
      nodes p' = nodes (fst r) /\ idleQueue p' = []
      /\ exists inst',
           components p' !! 1 = Some inst'
           /\ refs inst' = refsOf (fst r) 1
           /\ forall x, x ∈ observed inst'
                        <-> x ∈ observed (Examples.instance (Some ["foo"]))
                            \/ x ∈ Component.roots (fst r) 1).
Proof.
  apply (connection_observes_only_on_success Examples.listPage 1
           (Examples.instance (Some ["foo"]))).
  - vm_compute. reflexivity.
  - reflexivity.
Defined.

(** *** After disconnection *)

Lemma observe_fold_other this that l p :
  that <> this ->
  let p' := fold_left (fun p root => Component.observe that root p) l p in
  components p' !! this = components p !! this
  /\ idleQueue p' = idleQueue p.
Proof.
  intros Hne. revert p. induction l as [|root l IH]; intros p; cbn [fold_left].
  - split; reflexivity.
  - destruct (IH (Component.observe that root p)) as [Hc Hq].
    cbv zeta in Hc, Hq. rewrite Hc, Hq.
    unfold Component.observe, withComponents. cbn [components idleQueue].
    split; [now apply lookup_alter_ne|reflexivity].
Qed.

Lemma deaf_pageStep this c q e :
  (forall i, c = Some i -> observed i = [] /\ records i = []) ->
  ~ observationPending q this ->
  components q !! this = c ->
  ~ observationPending (pageStep q e) this
  /\ components (pageStep q e) !! this = c.
Proof.
  intros Hdeaf Hpend Hc.
  assert (Hqueue : forall m,
            components (Environment.queueRecord m q) !! this = c).
  { intros m. unfold Environment.queueRecord, withComponents.
    cbn [components]. rewrite lookup_fmap, Hc.
    destruct c as [i|]; [|reflexivity].
    destruct (Hdeaf i eq_refl) as [Ho _].
    cbn [fmap option_fmap option_map].
    unfold Environment.interested. rewrite Ho.
    rewrite existsb_never; [reflexivity|].
    intros a. case_bool_decide as Ha; [|reflexivity].
    now apply elem_of_nil in Ha. }
  destruct e as [m|parent child|parent child|]; cbn [pageStep].
  - split; [exact Hpend|apply Hqueue].
  - split; [exact Hpend|apply Hqueue].
  - split; [exact Hpend|apply Hqueue].
  - unfold observationPending in *. unfold Component.idle.
    destruct (idleQueue q) as [|[that] rest] eqn:Hq.
    { split; [rewrite Hq; exact Hpend|exact Hc]. }
    assert (Hne : that <> this).
    { intros ->. apply Hpend, list_elem_of_here. }
    cbn [Component.runIdleTask].
    match goal with
    | |- context [fold_left _ ?l ?q0] =>
        destruct (observe_fold_other this that l q0 Hne) as [Hc' Hq']
    end.
    cbv zeta in Hc', Hq'. rewrite Hc', Hq'. cbn [components idleQueue].
    split; [|exact Hc].
    intros Hin. apply Hpend. now apply list_elem_of_further.
Qed.

(** X10.  When the idle callback of its connection is no longer pending,
    [disconnectedCallback] makes the observer deaf for good: the callback
    completes and leaves the tree and [refs] as they are, and however
    records are queued, children removed or appended and idle callbacks
    run afterwards, the component observes nothing, has no record queued,
    a delivery does nothing, and [refs] stays what it was. *)
Theorem disconnected_observer_hears_nothing
  (p : Page) (this : NodeId) (steps : list PageStep) :
  ~ observationPending p this ->
  let p1 := fst (Component.disconnectedCallback this p) in
  let q := runPage steps p1 in
  snd (Component.disconnectedCallback this p) = Normal tt
  /\ nodes p1 = nodes p
  /\ refsOf p1 this = refsOf p this
  /\ components q !! this
     = (fun i => mkInstance (refs i) (requiredRefs i) [] [])
         <$> components p !! this
  /\ Component.deliver this q = (q, Normal tt)
  /\ refsOf q this = refsOf p this.
Proof.
  intros Hpend p1 q.
  set (c := (fun i => mkInstance (refs i) (requiredRefs i) [] [])
              <$> components p !! this).
  assert (Hc1 : components p1 !! this = c).
  { unfold p1, c, Component.disconnectedCallback, modify, Component.disconnect,
      withComponents. cbn [fst components]. rewrite lookup_alter_eq.
    reflexivity. }
  assert (Hdeaf : forall i, c = Some i -> observed i = [] /\ records i = []).
  { intros i. unfold c. destruct (components p !! this); [|discriminate].
    cbn. intros [= <-]. split; reflexivity. }
  assert (Hrun : forall steps q0,
            ~ observationPending q0 this -> components q0 !! this = c ->
            components (runPage steps q0) !! this = c).
  { clear steps q. unfold runPage.
    induction steps as [|e steps IH]; intros q0 Hp Hq0; [exact Hq0|].
    cbn [fold_left].
    destruct (deaf_pageStep this c q0 e Hdeaf Hp Hq0) as [Hp' Hc'].
    now apply IH. }
  assert (Hq : components q !! this = c) by (apply Hrun; assumption).
  split; [reflexivity|]. split; [reflexivity|].
  assert (Hrefs : forall q0, components q0 !! this = c ->
                             refsOf q0 this = refsOf p this).
  { intros q0 H0. unfold refsOf. rewrite H0. unfold c.
    destruct (components p !! this); reflexivity. }
  split; [now apply Hrefs|]. split; [exact Hq|].
  split; [|now apply Hrefs].
  unfold Component.deliver, bind, get. rewrite Hq. unfold c.
  destruct (components p !! this); reflexivity.
Qed.

Lemma disconnected_observer_hears_nothing_witness :
  let p := Histories.listObserving in
  let p1 := fst (Component.disconnectedCallback 1 p) in
  let q := runPage [ChildRemoved 1 3; IdleCallbackRun;
                    RecordQueued (mkRecord AttributesMutation 4 [] []);
                    ChildAppended 1 3] p1 in
  snd (Component.disconnectedCallback 1 p) = Normal tt
  /\ nodes p1 = nodes p
  /\ refsOf p1 1 = refsOf p 1
  /\ components q !! 1
     = (fun i => mkInstance (refs i) (requiredRefs i) [] [])
         <$> components p !! 1
  /\ Component.deliver 1 q = (q, Normal tt)
  /\ refsOf q 1 = refsOf p 1.
Proof.
  apply (disconnected_observer_hears_nothing Histories.listObserving 1).
  unfold observationPending. vm_compute. intros H. now apply elem_of_nil in H.
Defined.



(** *** A rejected view transition *)

(** X26.  When the view transition a suspended [schedule] awaits rejects,
    the scheduler is wedged: the pending flag stays set with no flush on
    the way, and from then on, however calls of [schedule], transitions,
    frames and timers follow, only the timers already set run; every task
    queued before or scheduled after stays in the queue, even once the
    loop settles. *)
Theorem rejected_transition_wedges_scheduler
  (before after : list LoopStep) (s0 : Scheduler.Loop) :
  Scheduler.atRest s0 ->
  let s := runLoop before s0 in
  Scheduler.awaiting s <> 0 ->
  let s' := runLoop after (rejectTransition s) in
  Scheduler.scheduled s' = true
  /\ Scheduler.awaiting s' = 0 /\ Scheduler.frameRequests s' = 0
  /\ Scheduler.executed s' ++ Scheduler.timers s'
     = Scheduler.executed s ++ Scheduler.timers s
  /\ (forall t, t ∈ Scheduler.queue s \/ t ∈ scheduledIn after ->
                t ∈ Scheduler.queue s')
  /\ Scheduler.executed (settle s')
     = Scheduler.executed s ++ Scheduler.timers s
  /\ Scheduler.queue (settle s') = Scheduler.queue s'.
Proof.
  intros Hrest s Haw.
  destruct (runLoop_flushPending before s0 (atRest_flushPending s0 Hrest))
    as (_ & Hsum & _ & _).
  fold s in Hsum.
  assert (Hsc : Scheduler.scheduled s = true).
  { destruct (Scheduler.scheduled s); [reflexivity|lia]. }
  assert (Hfr : Scheduler.frameRequests s = 0) by (rewrite Hsc in Hsum; lia).
  assert (Hgen : forall w,
            Scheduler.scheduled w = true -> Scheduler.awaiting w = 0 ->
            Scheduler.frameRequests w = 0 ->
            let w' := runLoop after w in
            Scheduler.scheduled w' = true
            /\ Scheduler.awaiting w' = 0 /\ Scheduler.frameRequests w' = 0
            /\ Scheduler.executed w' ++ Scheduler.timers w'
               = Scheduler.executed w ++ Scheduler.timers w
            /\ (forall t, t ∈ Scheduler.queue w \/ t ∈ scheduledIn after ->
                          t ∈ Scheduler.queue w')).
  { unfold runLoop. clear. induction after as [|e steps IH]; intros w H1 H2 H3.
    - cbn. repeat split; try assumption.
      intros t [H|H]; [exact H|now apply elem_of_nil in H].
    - cbn [fold_left].
      assert (Hstep : Scheduler.scheduled (loopStep w e) = true
                      /\ Scheduler.awaiting (loopStep w e) = 0
                      /\ Scheduler.frameRequests (loopStep w e) = 0
                      /\ Scheduler.executed (loopStep w e)
                           ++ Scheduler.timers (loopStep w e)
                         = Scheduler.executed w ++ Scheduler.timers w
                      /\ (forall t, t ∈ Scheduler.queue w
                                    \/ t ∈ scheduledIn [e] ->
                                    t ∈ Scheduler.queue (loopStep w e))).
      { destruct w as [q sc tr aw fr tm ex]. cbn in H1, H2, H3. subst.
        destruct e as [t'| | | |]; cbn.
        - repeat split. intros t [H|H].
          + unfold Scheduler.setAdd. case_bool_decide; [exact H|].
            apply elem_of_app. now left.
          + apply list_elem_of_singleton in H as ->.
            unfold Scheduler.setAdd. case_bool_decide as Hin; [exact Hin|].
            apply elem_of_app. right. now apply list_elem_of_singleton.
        - repeat split. intros t [H|H]; [exact H|now apply elem_of_nil in H].
        - repeat split. intros t [H|H]; [exact H|now apply elem_of_nil in H].
        - repeat split. intros t [H|H]; [exact H|now apply elem_of_nil in H].
        - unfold Scheduler.runTimer. cbn. destruct tm as [|t0 tm]; cbn.
          + repeat split.
            intros t [H|H]; [exact H|now apply elem_of_nil in H].
          + rewrite <- app_assoc. repeat split.
            intros t [H|H]; [exact H|now apply elem_of_nil in H]. }
      destruct Hstep as (G1 & G2 & G3 & G4 & G5).
      destruct (IH (loopStep w e) G1 G2 G3) as (I1 & I2 & I3 & I4 & I5).
      split; [exact I1|]. split; [exact I2|]. split; [exact I3|].
      split; [congruence|].
      intros t Ht. apply I5.
      assert (Hcons : scheduledIn (e :: steps)
                      = scheduledIn [e] ++ scheduledIn steps).
      { unfold scheduledIn. cbn [flat_map]. now rewrite app_nil_r. }
      rewrite Hcons, elem_of_app in Ht.
      destruct Ht as [Ht|[Ht|Ht]]; [left; apply G5; now left
                                    |left; apply G5; now right
                                    |now right]. }
  intros s'.
  destruct (Hgen (rejectTransition s) Hsc eq_refl Hfr)
    as (I1 & I2 & I3 & I4 & I5).
  fold s' in I1, I2, I3, I4, I5.
  split; [exact I1|]. split; [exact I2|]. split; [exact I3|].
  split; [exact I4|]. split; [exact I5|].
  assert (Hsettle : settle s'
                    = Scheduler.mkLoop (Scheduler.queue s') true false 0 0 []
                        (Scheduler.executed s' ++ Scheduler.timers s')).
  { destruct s' as [q sc tr aw fr tm ex]. cbn in I1, I2, I3. subst.
    unfold settle. cbn [Scheduler.transition].
    destruct tr; rewrite runTimers_spec; reflexivity. }
  rewrite Hsettle. cbn [Scheduler.executed Scheduler.queue].
  split; [exact I4|reflexivity].
Qed.

Lemma rejected_transition_wedges_scheduler_witness :
  let s := runLoop [StartTransition; Schedule 1] Histories.idleLoop in
  let s' := runLoop [FinishTransition; Schedule 2; AnimationFrame; RunTimer]
                    (rejectTransition s) in
  Scheduler.scheduled s' = true
  /\ Scheduler.awaiting s' = 0 /\ Scheduler.frameRequests s' = 0
  /\ Scheduler.executed s' ++ Scheduler.timers s'
     = Scheduler.executed s ++ Scheduler.timers s
  /\ (forall t, t ∈ Scheduler.queue s
                \/ t ∈ scheduledIn [FinishTransition; Schedule 2;
                                    AnimationFrame; RunTimer] ->
                t ∈ Scheduler.queue s')
  /\ Scheduler.executed (settle s')
     = Scheduler.executed s ++ Scheduler.timers s
  /\ Scheduler.queue (settle s') = Scheduler.queue s'.
Proof.
  apply (rejected_transition_wedges_scheduler
           [StartTransition; Schedule 1]
           [FinishTransition; Schedule 2; AnimationFrame; RunTimer]
           Histories.idleLoop).
  - repeat split.
  - cbn. discriminate.
Defined.

(** *** [throttle] *)

Lemma spacedFrom_weaken gap a b times :
  (a <= b)%Z -> Throttle.spacedFrom gap b times -> Throttle.spacedFrom gap a times.
Proof.
  destruct times as [|t rest]; [auto|]. cbn. intros Hab [H1 H2].
  split; [lia|exact H2].
Qed.

Lemma spacedFrom_suffix gap a l1 t l2 :
  Throttle.spacedFrom gap a (l1 ++ t :: l2) -> Throttle.spacedFrom gap t l2.
Proof.
  revert a. induction l1 as [|x l1 IH]; intros a; cbn.
  - now intros [_ H].
  - intros [_ H]. exact (IH x H).
Qed.

Lemma throttle_fold {Args : Type} (delay : Z)
  (steps : list (Throttle.Step Args)) (s : Throttle.State Args) :
  Throttle.spacedFrom 0 (Throttle.lastCall s) (List.map Throttle.timeOf steps) ->
  exists l,
    Throttle.invoked (fold_left (Throttle.step delay) steps s)
    = Throttle.invoked s ++ l
    /\ Throttle.spacedFrom delay (Throttle.lastCall s) (List.map fst l)
    /\ List.map snd l `sublist_of` Throttle.calledWith steps.
Proof.
  revert s. induction steps as [|e steps IH]; intros s Hclock.
  - exists []. cbn. rewrite app_nil_r. repeat split. constructor.
  - cbn [List.map Throttle.spacedFrom] in Hclock. destruct Hclock as [Hle Hclock].
    cbn [fold_left]. destruct e as [now a|now]; cbn [Throttle.step Throttle.timeOf] in *.
    + unfold Throttle.throttled.
      destruct (Z.geb_spec (now - Throttle.lastCall s) delay) as [Hacc|Hdrop].
      * destruct (IH (Throttle.mkState now (Throttle.invoked s ++ [(now, a)])) Hclock)
          as (l & Hl & Hsp & Hsub).
        cbn [Throttle.invoked Throttle.lastCall] in Hl, Hsp.
        exists ((now, a) :: l). split; [now rewrite Hl, <- app_assoc|].
        split; [cbn; split; [lia|exact Hsp]|].
        cbn. now constructor.
      * destruct (IH s) as (l & Hl & Hsp & Hsub).
        { eapply spacedFrom_weaken; [|exact Hclock]. lia. }
        exists l. split; [exact Hl|]. split; [exact Hsp|].
        cbn. now constructor.
    + destruct (IH (Throttle.cancel now s) Hclock) as (l & Hl & Hsp & Hsub).
      cbn [Throttle.cancel Throttle.invoked Throttle.lastCall] in Hl, Hsp.
      exists l. split; [exact Hl|].
      split; [eapply spacedFrom_weaken; [|exact Hsp]; lia|exact Hsub].
Qed.

(** X27.  With a clock that starts at zero or later and never goes back,
    a throttled function invokes [fn] only with the arguments of its own
    calls, in their order; the first invocation comes no earlier than
    [delay] after time zero and each later one no earlier than [delay]
    after the one before; and after [cancel] no invocation comes earlier
    than [delay] after the cancellation. *)
Theorem throttle_spaces_invocations {Args : Type} (delay : Z)
  (steps : list (Throttle.Step Args)) :
  Throttle.spacedFrom 0 0 (List.map Throttle.timeOf steps) ->
  let s := Throttle.run delay steps in
  Throttle.spacedFrom delay 0 (List.map fst (Throttle.invoked s))
  /\ List.map snd (Throttle.invoked s) `sublist_of` Throttle.calledWith steps
  /\ forall earlier c later,
       steps = earlier ++ Throttle.Cancel c :: later ->
       exists l,
         Throttle.invoked s
         = Throttle.invoked (Throttle.run delay earlier) ++ l
         /\ Throttle.spacedFrom delay c (List.map fst l).
Proof.
  intros Hclock s. subst s. unfold Throttle.run.
  destruct (throttle_fold delay steps Throttle.initial Hclock)
    as (l & Hl & Hsp & Hsub).
  cbn [Throttle.initial Throttle.invoked Throttle.lastCall app] in Hl, Hsp.
  split; [now rewrite Hl|]. split; [now rewrite Hl|].
  intros earlier c later ->. rewrite fold_left_app. cbn [fold_left Throttle.step].
  rewrite map_app in Hclock. cbn [List.map Throttle.timeOf] in Hclock.
  apply spacedFrom_suffix in Hclock.
  destruct (throttle_fold delay later
              (Throttle.cancel c (fold_left (Throttle.step delay) earlier
                                    Throttle.initial)) Hclock)
    as (l' & Hl' & Hsp' & _).
  exists l'. split; [exact Hl'|exact Hsp'].
Qed.

Lemma throttle_spaces_invocations_witness :
  let steps := [Throttle.Call 50 "a"; Throttle.Call 120 "b"; Throttle.Call 150 "c";
                Throttle.Cancel 200; Throttle.Call 250 "d"; Throttle.Call 300 "e"]%Z in
  let s := Throttle.run 100 steps in
  Throttle.spacedFrom 100 0 (List.map fst (Throttle.invoked s))
  /\ List.map snd (Throttle.invoked s) `sublist_of` Throttle.calledWith steps
  /\ forall earlier c later,
       steps = earlier ++ Throttle.Cancel c :: later ->
       exists l,
         Throttle.invoked s
         = Throttle.invoked (Throttle.run 100 earlier) ++ l
         /\ Throttle.spacedFrom 100 c (List.map fst l).
Proof.
  intros steps.
  apply (throttle_spaces_invocations 100 steps).
  cbn. lia.
Defined.
